(** * Cantilever dataset generator: the BESO optimisation engine

    A shallow embedding of [source/python/BESO/structural_beso.py]: mesh and
    boundary conditions, the momentum step on the filtered sensitivities, the
    two-phase topology update and the patience-based convergence check.

    Numbers are modelled as the program has them:
    - compliance, sensitivities and nodal coordinates are binary64 values
      ([PrimFloat.float]); comparisons are IEEE comparisons, so NaN and the
      infinities behave as in numpy;
    - element, node and degree-of-freedom numbers are [nat]; Python integers
      that may become negative ([vol - Vt]) are [Z];
    - the two change caps multiply the element count by the dyadic constants
      [VV = 2^-6] and [TV = 2^-5]; these products are exact in binary64 for
      every element count below [2^53] and are modelled in [Q].

    The sparse solver (CHOLMOD through sksparse) and the compiled sensitivity
    and filter kernels ([str_cgs], [str_filter]) are external to the module:
    what they hand back in one iteration (the filtered sensitivity vector and
    the compliance) is an [oracle] record supplied to the iteration. *)

From Stdlib Require Import ZArith QArith Qround Lqa Floats Permutation.
From stdpp Require Import list.
Close Scope Q_scope.

Set Warnings "-inexact-float".

(** ** Python and numpy idioms *)

Module Py.

Inductive error :=
| ZeroDivisionError
| InsufficientConstraint   (* 'insufficient constraint' followed by sys.exit() *)
| IndexError
| ValueError
| NameError.

Inductive result (A : Type) :=
| Ok (a : A)
| Err (e : error).
Arguments Ok {A} a.
Arguments Err {A} e.

Definition bind {A B} (m : result A) (f : A -> result B) : result B :=
  match m with
  | Ok a => f a
  | Err e => Err e
  end.

Notation "'do' x <- m ; k" := (bind m (fun x => k))
  (at level 10, x name, m at level 100, k at level 200).

(** [range(n)] for a Python integer [n]; empty when [n <= 0]. *)
Definition range (n : Z) : list nat := seq 0 (Z.to_nat n).

(** [l[k]] for [k >= 0]. *)
Definition index {A} (l : list A) (k : nat) : result A :=
  match l !! k with
  | Some a => Ok a
  | None => Err IndexError
  end.

(** [l[-1-k]] for [k >= 0]: counted from the end, IndexError past the start. *)
Definition index_from_end {A} (l : list A) (k : nat) : result A :=
  if decide (k < length l) then index l (length l - 1 - k) else Err IndexError.

(** [l[mask]] with a boolean mask of the same length. *)
Fixpoint select {A} (l : list A) (mask : list bool) : list A :=
  match l, mask with
  | a :: l', b :: mask' => if b then a :: select l' mask' else select l' mask'
  | _, _ => []
  end.

(** [l[ids] = v] with an index array. *)
Definition assign {A} (ids : list nat) (v : A) (l : list A) : list A :=
  fold_left (fun acc i => <[i := v]> acc) ids l.

(** [sum(mask)] for a boolean array. *)
Fixpoint sum_bool (mask : list bool) : nat :=
  match mask with
  | [] => 0
  | b :: mask' => (if b then 1 else 0) + sum_bool mask'
  end.

(** [np.argwhere(x)[:,0]]. *)
Definition argwhere (x : list bool) : list nat := select (seq 0 (length x)) x.

(** [int(q)]: truncation toward zero. *)
Definition int (q : Q) : Z := Z.quot (Qnum q) (Zpos (Qden q)).

(** [max([a, b])] on numbers: the second only when it is strictly larger. *)
Definition max2 (a b : Q) : Q := if Qlt_le_dec a b then b else a.

(** The builtin [max] over a float array: the running maximum is replaced
    only when [item > maximum] holds, so NaN items are skipped unless first. *)
Definition max_float (l : list float) : result float :=
  match l with
  | [] => Err ValueError
  | h :: t => Ok (fold_left (fun m v => if PrimFloat.ltb m v then v else m) t h)
  end.

(** Conversion of a (small) non-negative integer to binary64. *)
Definition float_of_nat (n : nat) : float :=
  PrimFloat.of_uint63 (Uint63.of_Z (Z.of_nat n)).

(** The order numpy sorts floats by: ascending, NaN last. *)
Definition np_lt (a b : float) : bool :=
  PrimFloat.ltb a b || (PrimFloat.is_nan b && negb (PrimFloat.is_nan a)).

End Py.
Import Py.

Global Instance float_inhabited : Inhabited float := populate PrimFloat.zero.

(** ** Fixed properties (lines 55-65) *)

Definition VV : Q := 1 # 64.           (* 0.015625, maximal volume variation *)
Definition TV : Q := 1 # 32.           (* 0.031250, maximal topology variation *)
Definition patience : nat := 20.
Definition momentum : float := 0.5%float.
Definition Ly : float := 1%float.
Definition small : float := 1e-14%float.

(** ** Mesh and boundary conditions (lines 214-297) *)

Record params := Params {
  p_Ny : nat;
  bc_pos : float;
  bc_rad : float;
  ld_pos : float;
  ld_rad : float
}.

Definition Nx_of (Ny : nat) : nat := 2 * Ny.
Definition N_of (Ny : nat) : nat := Nx_of Ny * Ny.
Definition G_of (Ny : nat) : nat := 2 * (Nx_of Ny + 1) * (Ny + 1).

(** [esize = Ly/Ny]: a Python float divided by a Python int. *)
Definition esize (Ny : nat) : result float :=
  if decide (Ny = 0) then Err ZeroDivisionError
  else Ok (Ly / float_of_nat Ny)%float.

(** Node [k] sits in column [k // (Ny+1)] and row [k % (Ny+1)] (the two
    [np.ravel] calls); [coor] scales by [esize] and shifts y by [0.5*Ly]. *)
Definition coor (Ny : nat) (es : float) : list (float * float) :=
  fmap (fun k => ((es * float_of_nat (k / (Ny + 1)))%float,
                 (es * float_of_nat (k mod (Ny + 1)) - 0.5 * Ly)%float))
      (seq 0 ((Nx_of Ny + 1) * (Ny + 1))).

(** [abs(ycoor - pos*Ly) < rad*Ly + small], elementwise. *)
Definition band_mask (ys : list float) (pos rad : float) : list bool :=
  fmap (fun y => (abs (y - pos * Ly) <? rad * Ly + small)%float) ys.

Definition bc_ycoor (Ny : nat) (es : float) : list float :=
  take (Ny + 1) (fmap snd (coor Ny es)).

Definition ld_ycoor (Ny : nat) (es : float) : list float :=
  drop (Nx_of Ny * (Ny + 1)) (fmap snd (coor Ny es)).

(** The load vector [fg] (lines 279-296), given the loaded node numbers. *)
Definition load_vector (G : nat) (ld_num : nat) (ld_ids : list nat) : list float :=
  let fg := replicate G 0%float in
  if decide (ld_num = 0) then fg
  else if decide (ld_num = 1) then
    assign (fmap (fun i => 2 * i + 1) ld_ids) (-1)%float fg
  else
    let ld_val := ((-1) / float_of_nat (ld_num - 1))%float in
    let fg := assign (fmap (fun i => 2 * i + 1) (removelast (tail ld_ids))) ld_val fg in
    assign (fmap (fun i => 2 * i + 1) (take 1 ld_ids ++ drop (length ld_ids - 1) ld_ids))
           (0.5 * ld_val)%float fg.

Record setup := Setup {
  s_Ny : nat;
  s_bc_mask : list bool;
  s_bc_ids : list nat;
  s_bc_lim : nat * nat;
  s_freeDofs : list bool;
  s_ld_mask : list bool;
  s_ld_ele : list nat;
  s_ld_lim : nat * nat;
  s_ld_num : nat;
  s_ld_ids : list nat;
  s_fg : list float;
  s_fr : list float
}.

(** First and last entry of an index array, [np.array([a[0], a[-1]])]. *)
Definition first_last (a : list nat) : result (nat * nat) :=
  do f <- index a 0 ;
  do l <- index_from_end a 0 ;
  Ok (f, l).

Definition boundary_conditions (p : params) : result setup :=
  let Ny := p_Ny p in
  let Nx := Nx_of Ny in
  do es <- esize Ny ;
  (* free DOFs *)
  let bc_mask := band_mask (bc_ycoor Ny es) (bc_pos p) (bc_rad p) in
  if decide (sum_bool bc_mask < 2) then Err InsufficientConstraint
  else
    let bc_ids := select (seq 0 (Ny + 1)) bc_mask in
    do bc_lim <- first_last bc_ids ;
    let bc := fmap (fun i => 2 * i) bc_ids ++ fmap (fun i => 2 * i + 1) bc_ids in
    let freeDofs := assign bc false (replicate (G_of Ny) true) in
    (* load vector *)
    let ld_mask := band_mask (ld_ycoor Ny es) (ld_pos p) (ld_rad p) in
    let ld_mask_ele := zip_with orb (drop 1 ld_mask) (removelast ld_mask) in
    let ld_ele := select (seq ((Nx - 1) * Ny) Ny) ld_mask_ele in
    do ld_lim <- first_last ld_ele ;
    let ld_num := sum_bool ld_mask in
    let ld_ids := select (seq (Nx * (Ny + 1)) (Ny + 1)) ld_mask in
    let fg := load_vector (G_of Ny) ld_num ld_ids in
    Ok {| s_Ny := Ny; s_bc_mask := bc_mask; s_bc_ids := bc_ids; s_bc_lim := bc_lim;
          s_freeDofs := freeDofs; s_ld_mask := ld_mask; s_ld_ele := ld_ele;
          s_ld_lim := ld_lim; s_ld_num := ld_num; s_ld_ids := ld_ids;
          s_fg := fg; s_fr := select fg freeDofs |}.

(** ** Optimization setup (lines 365-386) *)

(** [Vt = int(N/2)], [dVmax = max([1,int(VV*N)])], [dXmax = max([2,TV*N])]. *)
Definition Vt_of (N : nat) : Z := int (inject_Z (Z.of_nat N) / 2)%Q.
Definition dVmax_of (N : nat) : Z := Z.max 1 (int (VV * inject_Z (Z.of_nat N))%Q).
Definition dXmax_of (N : nat) : Q := max2 2 (TV * inject_Z (Z.of_nat N))%Q.

(** The factor object is owned by the external solver; the model keeps the
    rank-k updates issued since [cholesky_inplace]: [(e, true)] stands for
    [update_inplace(H_e, subtract=True)], [(e, false)] for [subtract=False]. *)
Definition factor_log := list (nat * bool).

Record state := State {
  x : list bool;
  alpha_m : list float;
  vol : Z;
  obj_opt : float;
  x_opt : option (list bool);
  keep_going : bool;
  waiting : nat;
  it : nat;
  factor : factor_log
}.

(** [x_opt] is not assigned before the loop: an instance starts with whatever
    an earlier instance of the batch left in that variable ([None] for the
    first one, where the name is unbound). *)
Definition init_state (N : nat) (leftover : option (list bool)) : state :=
  let x0 := replicate N true in
  {| x := x0; alpha_m := replicate N 0%float; vol := Z.of_nat (sum_bool x0);
     obj_opt := infinity; x_opt := leftover; keep_going := true;
     waiting := 0; it := 0; factor := [] |}.

(** What the external kernels return in one iteration: the filtered
    sensitivities [alpha_f] written by [str_filter], and the compliance
    [obj = np.dot(ug,fg)] of the displacement solved after the update. *)
Record oracle := Oracle {
  o_alpha_f : list float;
  o_obj : float
}.

(** The kernels themselves ([str_cgs], [str_filter], the CHOLMOD solves) are
    compiled code outside the engine: functions of the mesh, the topology
    and the factor they are called with. *)
Record kernels := Kernels {
  k_sensitivity : setup -> list bool -> factor_log -> list float;
  k_compliance : setup -> list bool -> factor_log -> float
}.

(** ** Filter and momentum (lines 446-450) *)

Definition momentum_step (ld_ele : list nat) (am af : list float) : result (list float) :=
  if decide (length af = length am) then
    let am := assign ld_ele 0%float am in
    do mf <- max_float (fmap abs af) ;
    let am := zip_with (fun m f => (momentum * m + (1 - momentum) * (f / mf))%float) am af in
    do mm <- max_float (fmap abs am) ;
    let am := fmap (fun m => (m / mm)%float) am in
    Ok (assign ld_ele neg_infinity am)
  else Err ValueError.

(** ** Topology update (lines 456-559) *)

(** [alpha_m[solid]]: the entries at an index array. *)
Definition gather (v : list float) (ids : list nat) : list float :=
  fmap (fun i => v !!! i) ids.

(** Changing volume (lines 461-494): one pass of the loop body per [i]. *)
Fixpoint reduce_volume (solid sorted_solid : list nat) (js : list nat)
    (x : list bool) (count : nat) (f : factor_log)
    : result (list bool * nat * factor_log) :=
  match js with
  | [] => Ok (x, count, f)
  | i :: js' =>
      do k <- index_from_end sorted_solid i ;
      do es <- index solid k ;
      reduce_volume solid sorted_solid js'
        (<[es := false]> x) (count + 1) (f ++ [(es, true)])
  end.

(** Constant volume (lines 496-559); [break] leaves the loop. *)
Fixpoint swap_pairs (am : list float) (solid sorted_solid void sorted_void : list nat)
    (count : nat) (js : list nat) (x : list bool) (f : factor_log)
    : result (list bool * factor_log) :=
  match js with
  | [] => Ok (x, f)
  | i :: js' =>
      do k <- index_from_end sorted_solid (i + count) ;
      do es <- index solid k ;
      do kv <- index sorted_void i ;
      do ev <- index void kv ;
      if ((am !!! es) <? (am !!! ev))%float then Ok (x, f)
      else
        swap_pairs am solid sorted_solid void sorted_void count js'
          (<[ev := true]> (<[es := false]> x)) (f ++ [(es, true); (ev, false)])
  end.

(** ** Convergence check (lines 581-591) *)

Definition improves (obj best : float) : bool := (obj <? (1 - small) * best)%float.

Definition convergence_check (Vt : Z) (obj : float) (s : state) : state :=
  if (vol s =? Vt)%Z then
    if improves obj (obj_opt s) then
      {| x := x s; alpha_m := alpha_m s; vol := vol s; obj_opt := obj;
         x_opt := Some (x s); keep_going := keep_going s; waiting := 0;
         it := it s; factor := factor s |}
    else
      let w := waiting s + 1 in
      {| x := x s; alpha_m := alpha_m s; vol := vol s; obj_opt := obj_opt s;
         x_opt := x_opt s;
         keep_going := if decide (w = patience) then false else keep_going s;
         waiting := w; it := it s; factor := factor s |}
  else s.

(** ** One pass of the BESO loop (lines 394-593) *)

Section Engine.

(** [np.argsort]: numpy's default sort is not stable, so the engine is
    stated for any function returning a sorting permutation. *)
Variable argsort : list float -> list nat.

Definition update_topology (N : nat) (am : list float) (x : list bool) (vol : Z)
    (f : factor_log) : result (list bool * factor_log) :=
  let solid := argwhere x in
  let void := argwhere (fmap negb x) in
  let sorted_solid := argsort (gather am solid) in
  let sorted_void := argsort (gather am void) in
  do r <- reduce_volume solid sorted_solid
            (range (Z.min (vol - Vt_of N) (dVmax_of N))) x 0 f ;
  let '(x1, count, f1) := r in
  swap_pairs am solid sorted_solid void sorted_void count
    (range (Z.min (Z.of_nat (length sorted_void))
                  (int ((dXmax_of N - inject_Z (Z.of_nat count)) / 2)%Q)))
    x1 f1.

Definition iteration (N : nat) (ld_ele : list nat) (o : oracle) (s : state)
    : result state :=
  do am <- momentum_step ld_ele (alpha_m s) (o_alpha_f o) ;
  do r <- update_topology N am (x s) (vol s) (factor s) ;
  let '(x', f') := r in
  Ok (convergence_check (Vt_of N) (o_obj o)
        {| x := x'; alpha_m := am; vol := Z.of_nat (sum_bool x');
           obj_opt := obj_opt s; x_opt := x_opt s; keep_going := keep_going s;
           waiting := waiting s; it := it s + 1; factor := f' |}).

(** [while keep_going]: one oracle record is consumed per pass.  A final
    state that still has [keep_going = true] means the records ran out
    before the loop halted. *)
Fixpoint run (N : nat) (ld_ele : list nat) (os : list oracle) (s : state)
    : result state :=
  match os with
  | [] => Ok s
  | o :: os' =>
      if keep_going s then
        do s' <- iteration N ld_ele o s ;
        run N ld_ele os' s'
      else Ok s
  end.

(** One instance of the batch, up to [list_top_opt += [x_opt.copy()]]
    (line 645); [None] when the loop has not halted on the given records. *)
Definition run_instance (p : params) (leftover : option (list bool))
    (os : list oracle) : result (option (list bool * float)) :=
  do su <- boundary_conditions p ;
  let N := N_of (s_Ny su) in
  do s <- run N (s_ld_ele su) os (init_state N leftover) ;
  if keep_going s then Ok None
  else match x_opt s with
       | None => Err NameError
       | Some t => Ok (Some (t, obj_opt s))
       end.

(** The records of a run are not free: the kernels compute them from the
    mesh, the current topology and the factor.  [alpha_f] is taken before
    the update of a pass (lines 397-446), [obj] after it (lines 566-573). *)
Definition observe (k : kernels) (su : setup) (s : state) : oracle :=
  let N := N_of (s_Ny su) in
  let af := k_sensitivity k su (x s) (factor s) in
  {| o_alpha_f := af;
     o_obj :=
       match momentum_step (s_ld_ele su) (alpha_m s) af with
       | Ok am =>
           match update_topology N am (x s) (vol s) (factor s) with
           | Ok (x', f') => k_compliance k su x' f'
           | Err _ => 0%float
           end
       | Err _ => 0%float
       end |}.

(** [while keep_going] driven by the kernels, for at most [fuel] passes. *)
Fixpoint beso_loop (k : kernels) (su : setup) (fuel : nat) (s : state)
    : result state :=
  match fuel with
  | O => Ok s
  | S fuel' =>
      if keep_going s then
        do s' <- iteration (N_of (s_Ny su)) (s_ld_ele su) (observe k su s) s ;
        beso_loop k su fuel' s'
      else Ok s
  end.

Definition optimize_instance (k : kernels) (p : params)
    (leftover : option (list bool)) (fuel : nat)
    : result (option (list bool * float)) :=
  do su <- boundary_conditions p ;
  do s <- beso_loop k su fuel (init_state (N_of (s_Ny su)) leftover) ;
  if keep_going s then Ok None
  else match x_opt s with
       | None => Err NameError
       | Some t => Ok (Some (t, obj_opt s))
       end.

End Engine.

(** A concrete [argsort]: stable insertion sort in numpy's order. *)
Fixpoint insert_index (v : list float) (i : nat) (s : list nat) : list nat :=
  match s with
  | [] => [i]
  | j :: s' =>
      if np_lt (v !!! j) (v !!! i) then j :: insert_index v i s' else i :: j :: s'
  end.

Definition insertion_argsort (v : list float) : list nat :=
  foldr (insert_index v) [] (seq 0 (length v)).

(** * Binary64 facts

    The primitive operations are specified by the Standard Library against
    [SpecFloat]; the facts below are derived from those specifications. *)

Module FloatFacts.
Local Open Scope Z_scope.


Lemma pow2_xO (p : positive) : 2 ^ Zpos p~0 = 2 ^ Zpos p * 2 ^ Zpos p.
Proof. rewrite <- Z.pow_add_r by lia. f_equal. lia. Qed.

Lemma pow2_xI (p : positive) : 2 ^ Zpos p~1 = 2 * (2 ^ Zpos p * 2 ^ Zpos p).
Proof.
  rewrite <- Z.pow_add_r by lia. rewrite <- Z.pow_succ_r by lia. f_equal. lia.
Qed.

Lemma shr_m_shr_1 (mrs : shr_record) :
  0 <= shr_m mrs -> shr_m (shr_1 mrs) = shr_m mrs / 2.
Proof.
  destruct mrs as [m r s]; simpl. intros Hm.
  destruct m as [|p|p]; [reflexivity| |lia].
  destruct p as [p|p|]; simpl.
  - rewrite Pos2Z.inj_xI. apply Z.div_unique with (r := 1); lia.
  - rewrite Pos2Z.inj_xO. apply Z.div_unique with (r := 0); lia.
  - reflexivity.
Qed.

Lemma shr_m_iter_pos (p : positive) : forall mrs : shr_record,
  0 <= shr_m mrs -> shr_m (SpecFloat.iter_pos shr_1 p mrs) = shr_m mrs / 2 ^ Zpos p.
Proof.
  induction p as [p IH|p IH|]; intros mrs Hm; cbn [SpecFloat.iter_pos].
  - assert (Hpow : 0 < 2 ^ Z.pos p) by (apply Z.pow_pos_nonneg; lia).
    assert (H1 : 0 <= shr_m (shr_1 mrs))
      by (rewrite shr_m_shr_1 by exact Hm; apply Z.div_pos; lia).
    assert (H2 : 0 <= shr_m (SpecFloat.iter_pos shr_1 p (shr_1 mrs)))
      by (rewrite IH by exact H1; apply Z.div_pos; lia).
    rewrite (IH _ H2), (IH _ H1), shr_m_shr_1 by exact Hm.
    rewrite !Z.div_div by lia.
    f_equal. symmetry. apply pow2_xI.
  - assert (Hpow : 0 < 2 ^ Z.pos p) by (apply Z.pow_pos_nonneg; lia).
    assert (H2 : 0 <= shr_m (SpecFloat.iter_pos shr_1 p mrs))
      by (rewrite IH by exact Hm; apply Z.div_pos; lia).
    rewrite (IH _ H2), (IH _ Hm).
    rewrite !Z.div_div by lia.
    f_equal. symmetry. apply pow2_xO.
  - rewrite shr_m_shr_1 by exact Hm. rewrite Z.pow_1_r. reflexivity.
Qed.

Lemma shr_spec (m e n : Z) (l : location) :
  0 <= m ->
  shr_m (fst (shr (shr_record_of_loc m l) e n)) = m / 2 ^ Z.max n 0 /\
  snd (shr (shr_record_of_loc m l) e n) = e + Z.max n 0.
Proof.
  intros Hm.
  assert (Hrec : shr_m (shr_record_of_loc m l) = m)
    by (destruct l as [|[ | | ]]; reflexivity).
  destruct n as [|p|p]; simpl.
  - rewrite Hrec, Z.div_1_r. lia.
  - rewrite shr_m_iter_pos by (rewrite Hrec; exact Hm). rewrite Hrec.
    replace (Z.max (Z.pos p) 0) with (Z.pos p) by lia. split; reflexivity.
  - rewrite Hrec, Z.div_1_r. lia.
Qed.

Lemma round_nearest_even_bounds (m : Z) (l : location) :
  m <= round_nearest_even m l <= m + 1.
Proof.
  destruct l as [|[ | | ]]; simpl; try lia. destruct (Z.even m); lia.
Qed.

Lemma digits2_pos_bounds (p : positive) :
  2 ^ (Zpos (digits2_pos p) - 1) <= Zpos p < 2 ^ Zpos (digits2_pos p).
Proof.
  assert (Hstep : forall d : positive,
             2 ^ (Z.pos (Pos.succ d) - 1) = 2 * 2 ^ (Z.pos d - 1) /\
             2 ^ Z.pos (Pos.succ d) = 2 * 2 ^ Z.pos d).
  { intros d. rewrite Pos2Z.inj_succ. split.
    - rewrite <- Z.pow_succ_r by lia. f_equal. lia.
    - apply Z.pow_succ_r. lia. }
  induction p as [p IH|p IH|]; cbn [digits2_pos].
  - destruct (Hstep (digits2_pos p)) as [-> ->]. lia.
  - destruct (Hstep (digits2_pos p)) as [-> ->]. lia.
  - cbn. lia.
Qed.

Lemma Zdigits2_upper (m b : Z) : 0 <= m -> 0 <= b -> m < 2 ^ b -> Zdigits2 m <= b.
Proof.
  intros Hm Hb Hlt. destruct m as [|p|p]; simpl; [lia| |lia].
  pose proof (digits2_pos_bounds p) as [Hlo _].
  destruct (Z_le_gt_dec (Zpos (digits2_pos p)) b) as [|Hgt]; [assumption|exfalso].
  assert (2 ^ b <= 2 ^ (Zpos (digits2_pos p) - 1)) by (apply Z.pow_le_mono_r; lia).
  lia.
Qed.

Lemma Zdigits2_lower (m b : Z) : 0 <= b -> 2 ^ b <= m -> b + 1 <= Zdigits2 m.
Proof.
  intros Hb Hle.
  assert (0 < 2 ^ b) by (apply Z.pow_pos_nonneg; lia).
  destruct m as [|p|p]; simpl; [lia| |lia].
  pose proof (digits2_pos_bounds p) as [_ Hhi].
  destruct (Z_le_gt_dec (b + 1) (Zpos (digits2_pos p))) as [|Hgt]; [assumption|exfalso].
  assert (2 ^ Zpos (digits2_pos p) <= 2 ^ b) by (apply Z.pow_le_mono_r; lia).
  lia.
Qed.

(** [1.0 - small] is (2^53 - 90) * 2^-53. *)
Definition shrink_mant : positive := 9007199254740902.

Lemma binary_round_aux_shrink (m : positive) (e : Z) :
  bounded prec emax m e = true ->
  SFleb (binary_round_aux prec emax false (Zpos (shrink_mant * m)) (-53 + e) loc_Exact)
        (S754_finite false m e) = true.
Proof.
  unfold bounded, canonical_mantissa, fexp, SpecFloat.emin, prec, emax.
  intros Hb. apply andb_prop in Hb. destruct Hb as [Hcan Hemax].
  apply Z.eqb_eq in Hcan. apply Z.leb_le in Hemax.
  pose proof (digits2_pos_bounds m) as Hd.
  remember (Zpos (digits2_pos m)) as d eqn:Ed.
  assert (Hd1 : 1 <= d) by lia.
  assert (Hpd : 0 < 2 ^ (d - 1)) by (apply Z.pow_pos_nonneg; lia).
  rewrite Pos2Z.inj_mul.
  remember (Zpos shrink_mant * Zpos m) as P eqn:EP.
  assert (HK : Zpos shrink_mant = 2 ^ 53 - 90) by reflexivity.
  assert (H53 : 2 ^ 52 <= Zpos shrink_mant < 2 ^ 53) by (rewrite HK; cbn; lia).
  assert (HP0 : 0 <= P) by lia.
  assert (HPlo : 2 ^ 52 <= P) by nia.
  assert (HPhi : P < 2 ^ (d + 53)).
  { rewrite Z.pow_add_r by lia. nia. }
  pose proof (Zdigits2_upper P (d + 53) HP0 ltac:(lia) HPhi) as HdP1.
  pose proof (Zdigits2_lower P 52 ltac:(lia) HPlo) as HdP2.
  unfold binary_round_aux, shr_fexp, fexp, SpecFloat.emin, prec, emax.
  remember (Zdigits2 P) as dP eqn:EdP.
  remember (Z.max (dP + (-53 + e) - 53) (3 - 1024 - 53) - (-53 + e)) as n1 eqn:En1.
  destruct (shr_spec P (-53 + e) n1 loc_Exact HP0) as [Hm1 He1].
  destruct (shr (shr_record_of_loc P loc_Exact) (-53 + e) n1) as [mrs1 e1].
  cbn [fst snd] in Hm1, He1.
  remember (Z.max n1 0) as a eqn:Ea.
  assert (Ha : 0 <= a <= 53) by lia.
  assert (Hpa : 0 < 2 ^ a) by (apply Z.pow_pos_nonneg; lia).
  assert (Hsplit : 2 ^ 53 = 2 ^ a * 2 ^ (53 - a)).
  { rewrite <- Z.pow_add_r by lia. f_equal. lia. }
  assert (Hpt : 0 < 2 ^ (53 - a)) by (apply Z.pow_pos_nonneg; lia).
  assert (Hm1b : 0 <= shr_m mrs1 /\ shr_m mrs1 + 1 <= Zpos m * 2 ^ (53 - a)).
  { rewrite Hm1. split; [apply Z.div_pos; lia|].
    assert (P / 2 ^ a < Zpos m * 2 ^ (53 - a)); [|lia].
    apply Z.div_lt_upper_bound; [exact Hpa|]. nia. }
  pose proof (round_nearest_even_bounds (shr_m mrs1) (loc_of_shr_record mrs1)) as Hrnd.
  remember (round_nearest_even (shr_m mrs1) (loc_of_shr_record mrs1)) as mx eqn:Emx.
  assert (Hmx0 : 0 <= mx) by lia.
  assert (Hmxhi : mx < 2 ^ (d + 53 - a)).
  { replace (d + 53 - a) with (d + (53 - a)) by lia.
    rewrite Z.pow_add_r by lia. nia. }
  pose proof (Zdigits2_upper mx (d + 53 - a) Hmx0 ltac:(lia) Hmxhi) as Hdmx.
  remember (Zdigits2 mx) as dmx eqn:Edmx.
  remember (Z.max (dmx + e1 - 53) (3 - 1024 - 53) - e1) as n2 eqn:En2.
  destruct (shr_spec mx e1 n2 loc_Exact Hmx0) as [Hm2 He2].
  destruct (shr (shr_record_of_loc mx loc_Exact) e1 n2) as [mrs2 e2].
  cbn [fst snd] in Hm2, He2.
  remember (Z.max n2 0) as b eqn:Eb.
  assert (Hb : 0 <= b /\ a + b <= 53 /\ e2 = e - (53 - a - b)) by lia.
  assert (Hpb : 0 < 2 ^ b) by (apply Z.pow_pos_nonneg; lia).
  assert (Hsplit2 : 2 ^ (53 - a) = 2 ^ (53 - a - b) * 2 ^ b).
  { rewrite <- Z.pow_add_r by lia. f_equal. lia. }
  assert (Hptt : 0 < 2 ^ (53 - a - b)) by (apply Z.pow_pos_nonneg; lia).
  assert (Hm2b : 0 <= shr_m mrs2 /\ shr_m mrs2 <= Zpos m * 2 ^ (53 - a - b)).
  { rewrite Hm2. split; [apply Z.div_pos; lia|].
    apply Z.div_le_upper_bound; [exact Hpb|]. nia. }
  destruct (shr_m mrs2) as [|q|q]; [reflexivity| |lia].
  replace (e2 <=? 1024 - 53) with true by (symmetry; apply Z.leb_le; lia).
  unfold SFleb, SFcompare.
  destruct (Z.compare_spec e2 e) as [Heq|Hlt|Hgt]; [|reflexivity|lia].
  replace (53 - a - b) with 0 in Hm2b by lia.
  rewrite Pos.compare_cont_spec. cbn [Pos.switch_Eq].
  destruct (Pos.compare_spec q m) as [ | |Hgt]; [reflexivity|reflexivity|].
  exfalso. rewrite Z.pow_0_r in Hm2b. lia.
Qed.

Lemma SFltb_leb_trans (a b c : spec_float) :
  SFltb a b = true -> SFleb b c = true -> SFltb a c = true.
Proof.
  unfold SFltb, SFleb, SFcompare.
  destruct a as [sa|sa| |sa ma ea], b as [sb|sb| |sb mb eb], c as [sc|sc| |sc mc ec];
    try destruct sa; try destruct sb; try destruct sc;
    try discriminate; try reflexivity;
    rewrite ?Pos.compare_cont_spec; cbn [Pos.switch_Eq];
    repeat match goal with
           | |- context [Z.compare ?x ?y] => destruct (Z.compare_spec x y)
           | |- context [Pos.compare ?x ?y] => destruct (Pos.compare_spec x y)
           end;
    cbn [CompOpp]; try discriminate; try reflexivity; intros _ _; exfalso; lia.
Qed.

Lemma SFleb_shrink (y : spec_float) :
  valid_binary y = true ->
  SFleb (S754_zero false) y = true ->
  SFleb (SF64mul (S754_finite false shrink_mant (-53)) y) y = true.
Proof.
  intros Hv H0. destruct y as [s|s| |s m e].
  - reflexivity.
  - destruct s; [discriminate H0|reflexivity].
  - discriminate H0.
  - destruct s; [discriminate H0|].
    apply binary_round_aux_shrink. exact Hv.
Qed.

Ltac sf_step :=
  match goal with
  | H : context [Z.compare ?x ?y] |- _ => destruct (Z.compare_spec x y)
  | |- context [Z.compare ?x ?y] => destruct (Z.compare_spec x y)
  | H : context [Pos.compare ?x ?y] |- _ => destruct (Pos.compare_spec x y)
  | |- context [Pos.compare ?x ?y] => destruct (Pos.compare_spec x y)
  end;
  cbn [CompOpp negb andb orb] in *; cbv iota in *.

Ltac sf_compare_cases :=
  intros; rewrite ?Pos.compare_cont_spec in *; cbn [Pos.switch_Eq] in *;
  repeat first [discriminate | reflexivity | sf_step];
  try (exfalso; lia).

Ltac sf_destruct x :=
  let s := fresh "s" in
  destruct x as [s|s| |s ? ?]; try destruct s.

(** numpy's sorting order on specifications: ascending, NaN last. *)
Definition SFnp_lt (a b : spec_float) : bool :=
  SFltb a b || (negb (SFeqb b b) && negb (negb (SFeqb a a))).

Lemma SFnp_lt_asym (a b : spec_float) : SFnp_lt a b = true -> SFnp_lt b a = false.
Proof.
  unfold SFnp_lt, SFltb, SFeqb, SFcompare.
  sf_destruct a; sf_destruct b; cbn [negb andb orb];
    try discriminate; try reflexivity; sf_compare_cases.
Qed.

Lemma SFnp_le_trans (a b c : spec_float) :
  SFnp_lt b a = false -> SFnp_lt c b = false -> SFnp_lt c a = false.
Proof.
  unfold SFnp_lt, SFltb, SFeqb, SFcompare.
  sf_destruct a; sf_destruct b; sf_destruct c; cbn [negb andb orb];
    try discriminate; try reflexivity; sf_compare_cases.
Qed.

Lemma SFleb_trans (a b c : spec_float) :
  SFleb a b = true -> SFleb b c = true -> SFleb a c = true.
Proof.
  unfold SFleb, SFcompare.
  sf_destruct a; sf_destruct b; sf_destruct c;
    try discriminate; try reflexivity; sf_compare_cases.
Qed.

Lemma SFltb_leb (a b : spec_float) : SFltb a b = true -> SFleb a b = true.
Proof.
  unfold SFltb, SFleb. destruct (SFcompare a b) as [[ | | ]|]; intros H;
    try discriminate H; reflexivity.
Qed.

Lemma SFleb_refl (a : spec_float) : SFleb (S754_zero false) a = true -> SFleb a a = true.
Proof.
  unfold SFleb, SFcompare. sf_destruct a; try discriminate; try reflexivity.
  sf_compare_cases.
Qed.

Local Open Scope float_scope.

Lemma Prim2SF_shrink : Prim2SF (1 - small) = S754_finite false shrink_mant (-53).
Proof. vm_compute. reflexivity. Qed.

Lemma Prim2SF_zero : Prim2SF 0 = S754_zero false.
Proof. vm_compute. reflexivity. Qed.

Lemma Prim2SF_neg_infinity : Prim2SF neg_infinity = S754_infinity true.
Proof. vm_compute. reflexivity. Qed.

Lemma Prim2SF_infinity : Prim2SF infinity = S754_infinity false.
Proof. vm_compute. reflexivity. Qed.

(** A non-negative value only shrinks when scaled by [1 - small]. *)
Lemma shrink_leb (y : float) : (0 <=? y) = true -> ((1 - small) * y <=? y) = true.
Proof.
  intros H0. rewrite FloatAxioms.leb_spec, Prim2SF_zero in H0.
  rewrite FloatAxioms.leb_spec, FloatAxioms.mul_spec, Prim2SF_shrink.
  apply SFleb_shrink; [apply Prim2SF_valid | exact H0].
Qed.

Lemma ltb_leb_trans (a b c : float) :
  (a <? b) = true -> (b <=? c) = true -> (a <? c) = true.
Proof.
  intros H1 H2. rewrite FloatAxioms.ltb_spec in H1. rewrite FloatAxioms.leb_spec in H2. rewrite FloatAxioms.ltb_spec.
  exact (SFltb_leb_trans _ _ _ H1 H2).
Qed.

Lemma leb_trans (a b c : float) :
  (a <=? b) = true -> (b <=? c) = true -> (a <=? c) = true.
Proof.
  intros H1 H2. rewrite FloatAxioms.leb_spec in H1, H2. rewrite FloatAxioms.leb_spec.
  exact (SFleb_trans _ _ _ H1 H2).
Qed.

Lemma ltb_leb (a b : float) : (a <? b) = true -> (a <=? b) = true.
Proof.
  intros H. rewrite FloatAxioms.ltb_spec in H. rewrite FloatAxioms.leb_spec. exact (SFltb_leb _ _ H).
Qed.

Lemma leb_refl_nonneg (a : float) : (0 <=? a) = true -> (a <=? a) = true.
Proof.
  intros H. rewrite FloatAxioms.leb_spec, Prim2SF_zero in H. rewrite FloatAxioms.leb_spec.
  exact (SFleb_refl _ H).
Qed.

Lemma ltb_neg_infinity (a : float) : (a <? neg_infinity) = false.
Proof.
  rewrite FloatAxioms.ltb_spec, Prim2SF_neg_infinity. unfold SFltb, SFcompare.
  sf_destruct (Prim2SF a); reflexivity.
Qed.

Lemma finite_ltb_infinity (a : float) : is_finite a = true -> (a <? infinity) = true.
Proof.
  unfold is_finite, is_nan, is_infinity.
  rewrite FloatAxioms.ltb_spec, !FloatAxioms.eqb_spec, FloatAxioms.abs_spec, Prim2SF_infinity.
  unfold SFltb, SFeqb, SFcompare, SFabs.
  sf_destruct (Prim2SF a); cbn [negb andb orb]; try discriminate; try reflexivity;
    sf_compare_cases.
Qed.

Lemma np_lt_SF (a b : float) : np_lt a b = SFnp_lt (Prim2SF a) (Prim2SF b).
Proof. unfold np_lt, SFnp_lt, is_nan. rewrite FloatAxioms.ltb_spec, !FloatAxioms.eqb_spec. reflexivity. Qed.

Lemma np_lt_asym (a b : float) : np_lt a b = true -> np_lt b a = false.
Proof. rewrite !np_lt_SF. apply SFnp_lt_asym. Qed.

Lemma np_le_trans (a b c : float) :
  np_lt b a = false -> np_lt c b = false -> np_lt c a = false.
Proof. rewrite !np_lt_SF. apply SFnp_le_trans. Qed.

Lemma np_lt_of_ltb (a b : float) : (a <? b) = true -> np_lt a b = true.
Proof. unfold np_lt. intros ->. reflexivity. Qed.

End FloatFacts.

(** * The convergence controller *)

Section Controller.

Variable argsort : list float -> list nat.
Variable N : nat.
Variable ld_ele : list nat.

Local Open Scope float_scope.

(** The state handed to the convergence check by an iteration. *)
Lemma iteration_inv (o : oracle) (s s' : state) :
  iteration argsort N ld_ele o s = Ok s' ->
  exists am x' f',
    s' = convergence_check (Vt_of N) (o_obj o)
           {| x := x'; alpha_m := am; vol := Z.of_nat (sum_bool x');
              obj_opt := obj_opt s; x_opt := x_opt s; keep_going := keep_going s;
              waiting := waiting s; it := it s + 1; factor := f' |}.
Proof.
  unfold iteration. intros H.
  destruct (momentum_step ld_ele (alpha_m s) (o_alpha_f o)) as [am|e]; [|discriminate H].
  cbn [bind] in H.
  destruct (update_topology argsort N am (x s) (vol s) (factor s)) as [[x' f']|e];
    [|discriminate H].
  cbn [bind] in H. injection H as <-. eauto.
Qed.

Lemma convergence_check_x (Vt : Z) (obj : float) (s : state) :
  x (convergence_check Vt obj s) = x s /\ vol (convergence_check Vt obj s) = vol s /\
  alpha_m (convergence_check Vt obj s) = alpha_m s /\
  factor (convergence_check Vt obj s) = factor s /\
  it (convergence_check Vt obj s) = it s.
Proof.
  unfold convergence_check.
  destruct (vol s =? Vt)%Z; [destruct (improves obj (obj_opt s))|]; auto.
Qed.

Lemma iteration_vol (o : oracle) (s s' : state) :
  iteration argsort N ld_ele o s = Ok s' -> vol s' = Z.of_nat (sum_bool (x s')).
Proof.
  intros H. destruct (iteration_inv o s s' H) as (am & x' & f' & ->).
  destruct (convergence_check_x (Vt_of N) (o_obj o)
              {| x := x'; alpha_m := am; vol := Z.of_nat (sum_bool x');
                 obj_opt := obj_opt s; x_opt := x_opt s; keep_going := keep_going s;
                 waiting := waiting s; it := it s + 1; factor := f' |})
    as (-> & -> & _). reflexivity.
Qed.

(** The three ways an iteration can leave the controller. *)
Lemma iteration_controller (o : oracle) (s s' : state) :
  iteration argsort N ld_ele o s = Ok s' ->
  (vol s' <> Vt_of N /\
   waiting s' = waiting s /\ obj_opt s' = obj_opt s /\ x_opt s' = x_opt s /\
   keep_going s' = keep_going s) \/
  (vol s' = Vt_of N /\ improves (o_obj o) (obj_opt s) = true /\
   waiting s' = 0%nat /\ obj_opt s' = o_obj o /\ x_opt s' = Some (x s') /\
   keep_going s' = keep_going s) \/
  (vol s' = Vt_of N /\ improves (o_obj o) (obj_opt s) = false /\
   waiting s' = (waiting s + 1)%nat /\ obj_opt s' = obj_opt s /\ x_opt s' = x_opt s /\
   keep_going s' = (if decide ((waiting s + 1)%nat = patience) then false
                    else keep_going s)).
Proof.
  intros H. destruct (iteration_inv o s s' H) as (am & x' & f' & ->).
  unfold convergence_check. cbn [vol obj_opt].
  destruct (Z.eqb_spec (Z.of_nat (sum_bool x')) (Vt_of N)) as [Heq|Hne].
  - destruct (improves (o_obj o) (obj_opt s)) eqn:Himp; cbn.
    + right; left. auto 10.
    + right; right. auto 10.
  - left. cbn. auto.
Qed.

(** An invariant of the loop is kept by [run]. *)
Lemma run_invariant (Q : oracle -> Prop) (P : state -> Prop) :
  (forall o s s', Q o -> P s -> keep_going s = true ->
                  iteration argsort N ld_ele o s = Ok s' -> P s') ->
  forall os s s', Forall Q os -> P s -> run argsort N ld_ele os s = Ok s' -> P s'.
Proof.
  intros Hstep os. induction os as [|o os IH]; intros s s' HQ HP Hrun; cbn in Hrun.
  - injection Hrun as <-. exact HP.
  - apply Forall_cons in HQ. destruct HQ as [Ho Hos].
    destruct (keep_going s) eqn:Hk.
    + destruct (iteration argsort N ld_ele o s) as [s1|e] eqn:Hit; [|discriminate Hrun].
      cbn [bind] in Hrun. eapply IH; [exact Hos| |exact Hrun]. eauto.
    + injection Hrun as <-. exact HP.
Qed.

Definition waiting_inv (s : state) : Prop :=
  (waiting s <= patience)%nat /\ (keep_going s = false <-> waiting s = patience).

Lemma waiting_inv_step (o : oracle) (s s' : state) :
  waiting_inv s -> keep_going s = true ->
  iteration argsort N ld_ele o s = Ok s' -> waiting_inv s'.
Proof.
  unfold waiting_inv. intros [Hle Hiff] Hk Hit.
  assert (Hlt : (waiting s < patience)%nat).
  { destruct (decide (waiting s = patience)) as [Heq|]; [|lia].
    apply Hiff in Heq. congruence. }
  destruct (iteration_controller o s s' Hit)
    as [(_ & -> & _ & _ & ->)|[(_ & _ & -> & _ & _ & ->)|(_ & _ & -> & _ & _ & ->)]].
  - split; [lia|]. rewrite Hk. split; [discriminate|lia].
  - split; [unfold patience; lia|]. rewrite Hk. split; [discriminate|].
    unfold patience. discriminate.
  - split; [lia|]. destruct (decide ((waiting s + 1)%nat = patience)) as [Heq|Hne].
    + split; auto.
    + rewrite Hk. split; [discriminate|]. intros. contradiction.
Qed.

Lemma waiting_inv_run (os : list oracle) (leftover : option (list bool)) (s : state) :
  run argsort N ld_ele os (init_state N leftover) = Ok s -> waiting_inv s.
Proof.
  intros Hrun.
  apply (run_invariant (fun _ => True) waiting_inv) with (os := os)
    (s := init_state N leftover); [| |  |exact Hrun].
  - intros o s0 s1 _. apply waiting_inv_step.
  - apply Forall_forall. intros; exact I.
  - unfold waiting_inv, init_state, patience; cbn. split; [lia|]. split; discriminate.
Qed.

(** C6: every pass of the loop from a state the run reaches ends in exactly
    one of three ways.  Above the target volume the controller is untouched.
    At the target volume the compliance is tested with the strict
    [obj < (1 - small) * obj_opt]: passing resets the wait counter and
    retains the post-update topology and compliance, failing increments the
    counter.  The loop's terminal state ([keep_going = false]) is set exactly
    when the counter reaches [patience], which it never exceeds. *)
Theorem convergence_controller (os : list oracle) (leftover : option (list bool))
    (s s' : state) (o : oracle) :
  run argsort N ld_ele os (init_state N leftover) = Ok s ->
  keep_going s = true ->
  iteration argsort N ld_ele o s = Ok s' ->
  vol s' = Z.of_nat (sum_bool (x s')) /\
  (keep_going s' = false <-> waiting s' = patience) /\
  (waiting s < patience)%nat /\
  ((vol s' <> Vt_of N /\
    waiting s' = waiting s /\ obj_opt s' = obj_opt s /\ x_opt s' = x_opt s /\
    keep_going s' = true) \/
   (vol s' = Vt_of N /\ (o_obj o <? (1 - small) * obj_opt s) = true /\
    waiting s' = 0%nat /\ obj_opt s' = o_obj o /\ x_opt s' = Some (x s') /\
    keep_going s' = true) \/
   (vol s' = Vt_of N /\ (o_obj o <? (1 - small) * obj_opt s) = false /\
    waiting s' = (waiting s + 1)%nat /\ obj_opt s' = obj_opt s /\
    x_opt s' = x_opt s)).
Proof.
  intros Hrun Hk Hit.
  pose proof (waiting_inv_run os leftover s Hrun) as Hinv.
  pose proof (waiting_inv_step o s s' Hinv Hk Hit) as [_ Hiff'].
  destruct Hinv as [Hle Hiff].
  assert (Hlt : (waiting s < patience)%nat).
  { destruct (decide (waiting s = patience)) as [Heq|]; [|lia].
    apply Hiff in Heq. congruence. }
  split; [exact (iteration_vol o s s' Hit)|]. split; [exact Hiff'|].
  split; [exact Hlt|].
  destruct (iteration_controller o s s' Hit)
    as [(H1 & H2 & H3 & H4 & H5)|[(H1 & H2 & H3 & H4 & H5 & H6)|(H1 & H2 & H3 & H4 & H5 & H6)]].
  - left. rewrite H5. auto.
  - right; left. rewrite H6. unfold improves in H2. auto 10.
  - right; right. unfold improves in H2. auto 10.
Qed.

(** The strict test against a non-negative best value accepts only
    strictly smaller compliances. *)
Lemma improves_ltb (obj best : float) :
  (0 <=? best) = true -> improves obj best = true -> (obj <? best) = true.
Proof.
  intros H0 Himp. unfold improves in Himp.
  eapply FloatFacts.ltb_leb_trans; [exact Himp|]. apply FloatFacts.shrink_leb. exact H0.
Qed.

Lemma improves_infinity (obj : float) :
  is_finite obj = true -> improves obj infinity = true.
Proof.
  intros Hfin. unfold improves.
  replace ((1 - small) * infinity) with infinity by (vm_compute; reflexivity).
  apply FloatFacts.finite_ltb_infinity. exact Hfin.
Qed.

Definition nonneg_obj (o : oracle) : Prop := (0 <=? o_obj o) = true.

(** [best' <= best], where a change means a strict decrease. *)
Definition not_above (best' best : float) : Prop :=
  (best' <=? best) = true /\ (best' = best \/ (best' <? best) = true).

Lemma not_above_refl (best : float) : (0 <=? best) = true -> not_above best best.
Proof. intros H0. split; [apply FloatFacts.leb_refl_nonneg; exact H0|left; reflexivity]. Qed.

Lemma not_above_step (obj best0 best : float) :
  (0 <=? best) = true -> not_above best best0 ->
  improves obj best = true -> not_above obj best0.
Proof.
  intros H0 [Hle _] Himp.
  pose proof (improves_ltb obj best H0 Himp) as Hlt.
  pose proof (FloatFacts.ltb_leb_trans obj best best0 Hlt Hle) as Hlt0.
  split; [apply FloatFacts.ltb_leb; exact Hlt0|right; exact Hlt0].
Qed.

Lemma obj_opt_nonneg_run (os : list oracle) (s s' : state) :
  Forall nonneg_obj os -> (0 <=? obj_opt s) = true ->
  run argsort N ld_ele os s = Ok s' -> (0 <=? obj_opt s') = true.
Proof.
  apply (run_invariant nonneg_obj (fun s => (0 <=? obj_opt s) = true)).
  intros o s0 s1 Ho H0 _ Hit.
  destruct (iteration_controller o s0 s1 Hit)
    as [(_ & _ & -> & _)|[(_ & _ & _ & -> & _)|(_ & _ & _ & -> & _)]]; assumption.
Qed.

(** C7: the retained best objective starts at plus infinity and, compliances
    being non-negative (the compliance of a positive definite system), its
    value in any later state of the run is not above its value in an earlier
    one; a pass that reassigns it assigns a strictly smaller value. *)
Theorem obj_opt_non_increasing (os1 os2 : list oracle) (leftover : option (list bool))
    (s1 s2 : state) :
  Forall nonneg_obj (os1 ++ os2) ->
  run argsort N ld_ele os1 (init_state N leftover) = Ok s1 ->
  run argsort N ld_ele os2 s1 = Ok s2 ->
  obj_opt (init_state N leftover) = infinity /\
  (obj_opt s2 <=? obj_opt s1) = true /\
  (obj_opt s2 = obj_opt s1 \/ (obj_opt s2 <? obj_opt s1) = true).
Proof.
  intros Hos Hrun1 Hrun2. apply Forall_app in Hos. destruct Hos as [Hos1 Hos2].
  split; [reflexivity|].
  assert (H1 : (0 <=? obj_opt s1) = true).
  { apply (obj_opt_nonneg_run os1 (init_state N leftover) s1 Hos1); [|exact Hrun1].
    vm_compute. reflexivity. }
  change (not_above (obj_opt s2) (obj_opt s1)).
  assert (Hinv : (0 <=? obj_opt s2) = true /\ not_above (obj_opt s2) (obj_opt s1)).
  { apply (run_invariant nonneg_obj
             (fun s => (0 <=? obj_opt s) = true /\ not_above (obj_opt s) (obj_opt s1)))
      with (os := os2) (s := s1); [|exact Hos2| |exact Hrun2].
    - intros o s0 s' Ho [H0 Hna] _ Hit.
      destruct (iteration_controller o s0 s' Hit)
        as [(_ & _ & -> & _)|[(_ & Himp & _ & -> & _)|(_ & _ & _ & -> & _)]].
      + split; assumption.
      + split; [exact Ho|]. eapply not_above_step; eassumption.
      + split; assumption.
    - split; [exact H1|apply not_above_refl; exact H1]. }
  exact (proj2 Hinv).
Qed.

Definition finite_obj (o : oracle) : Prop := is_finite (o_obj o) = true.

(** Either no target-volume pass has happened yet, or a best pair of this
    run is retained. *)
Definition best_inv (leftover : option (list bool)) (s : state) : Prop :=
  (obj_opt s = infinity /\ waiting s = 0%nat /\ x_opt s = leftover /\
   keep_going s = true) \/
  (is_finite (obj_opt s) = true /\
   exists t, x_opt s = Some t /\ Z.of_nat (sum_bool t) = Vt_of N).

Lemma best_inv_step (leftover : option (list bool)) (o : oracle) (s s' : state) :
  finite_obj o -> best_inv leftover s -> keep_going s = true ->
  iteration argsort N ld_ele o s = Ok s' -> best_inv leftover s'.
Proof.
  intros Ho Hinv Hk Hit.
  pose proof (iteration_vol o s s' Hit) as Hvol.
  destruct (iteration_controller o s s' Hit)
    as [(_ & Hw & Hb & Hx & Hkg)|[(Hv & _ & _ & Hb & Hx & _)|(_ & Himp & Hw & Hb & Hx & _)]].
  - destruct Hinv as [(H1 & H2 & H3 & H4)|(H1 & t & H2 & H3)].
    + left. rewrite Hw, Hb, Hx, Hkg. auto.
    + right. rewrite Hb, Hx. eauto.
  - right. rewrite Hb, Hx. split; [exact Ho|]. exists (x s'). split; [reflexivity|].
    rewrite <- Hvol. exact Hv.
  - destruct Hinv as [(H1 & _)|(H1 & t & H2 & H3)].
    + rewrite H1, (improves_infinity _ Ho) in Himp. discriminate Himp.
    + right. rewrite Hb, Hx. eauto.
Qed.

(** C10: with finite compliances, a state of the run in which the wait
    counter has been incremented or the loop has halted retains a finite best
    objective and a best topology of target volume: the first target-volume
    pass meets [obj_opt = infinity], passes the strict test and records the
    pair, so [x_opt] is bound when line 645 reads it. *)
Theorem best_defined_on_halt (os : list oracle) (leftover : option (list bool))
    (s : state) :
  Forall finite_obj os ->
  run argsort N ld_ele os (init_state N leftover) = Ok s ->
  (0 < waiting s)%nat \/ keep_going s = false ->
  is_finite (obj_opt s) = true /\
  exists t, x_opt s = Some t /\ Z.of_nat (sum_bool t) = Vt_of N.
Proof.
  intros Hos Hrun Hhalt.
  assert (Hinv : best_inv leftover s).
  { apply (run_invariant finite_obj (best_inv leftover)) with (os := os)
      (s := init_state N leftover); [|exact Hos| |exact Hrun].
    - intros o s0 s1. apply best_inv_step.
    - left. cbn. auto. }
  destruct Hinv as [(_ & Hw & _ & Hk)|Hbest]; [|exact Hbest].
  destruct Hhalt as [Hpos|Hstop]; [lia|congruence].
Qed.

End Controller.

(** * Index arrays, masks and in-place assignment *)

Module ArrayFacts.

Lemma index_Ok {A} (l : list A) (k : nat) (a : A) :
  index l k = Ok a <-> l !! k = Some a.
Proof.
  unfold index. destruct (l !! k) as [b|]; split; intros H;
    try discriminate H; injection H as ->; reflexivity.
Qed.

Lemma index_from_end_Ok {A} (l : list A) (k : nat) (a : A) :
  index_from_end l k = Ok a <-> k < length l /\ l !! (length l - 1 - k) = Some a.
Proof.
  unfold index_from_end. destruct (decide (k < length l)) as [Hlt|Hge].
  - rewrite index_Ok. tauto.
  - split; [discriminate|tauto].
Qed.

Lemma select_elem {A} (l : list A) (mask : list bool) (a : A) :
  a ∈ select l mask <-> exists i, l !! i = Some a /\ mask !! i = Some true.
Proof.
  revert mask. induction l as [|b l IH]; intros mask.
  - cbn. split; [intros H; inversion H|intros (i & H & _); discriminate H].
  - destruct mask as [|m mask]; cbn [select].
    + split; [intros H; inversion H|intros (i & _ & H); discriminate H].
    + assert (Htl : a ∈ select l mask <->
                    exists i, (b :: l) !! S i = Some a /\ (m :: mask) !! S i = Some true)
        by (rewrite IH; reflexivity).
      destruct m.
      * rewrite elem_of_cons, Htl. split.
        -- intros [->|(i & H)]; [exists 0; auto|exists (S i); exact H].
        -- intros ([|i] & H1 & H2); [left; cbn in H1; congruence|right; eauto].
      * rewrite Htl. split.
        -- intros (i & H); exists (S i); exact H.
        -- intros ([|i] & H1 & H2); [discriminate H2|eauto].
Qed.

Lemma select_NoDup {A} (l : list A) (mask : list bool) :
  NoDup l -> NoDup (select l mask).
Proof.
  revert mask. induction l as [|b l IH]; intros mask Hnd; [constructor|].
  apply NoDup_cons in Hnd. destruct Hnd as [Hb Hnd].
  destruct mask as [|[] mask]; cbn [select]; [constructor| |auto].
  apply NoDup_cons. split; [|auto].
  intros Hin. apply select_elem in Hin. destruct Hin as (i & Hi & _).
  apply Hb. apply list_elem_of_lookup. eauto.
Qed.

Lemma select_length {A} (l : list A) (mask : list bool) :
  length mask <= length l -> length (select l mask) = sum_bool mask.
Proof.
  revert mask. induction l as [|b l IH]; intros [|m mask] Hlen; cbn in *; try lia.
  destruct m; cbn; rewrite IH by lia; reflexivity.
Qed.

Lemma sum_bool_le (mask : list bool) : sum_bool mask <= length mask.
Proof. induction mask as [|[] mask IH]; cbn; lia. Qed.

Lemma argwhere_elem (x : list bool) (e : nat) : e ∈ argwhere x <-> x !! e = Some true.
Proof.
  unfold argwhere. rewrite select_elem. split.
  - intros (i & Hi & Hm). apply lookup_seq in Hi. destruct Hi as [-> _]. exact Hm.
  - intros He. exists e. split; [|exact He].
    apply lookup_seq. split; [reflexivity|]. eapply lookup_lt_Some; exact He.
Qed.

Lemma argwhere_NoDup (x : list bool) : NoDup (argwhere x).
Proof. apply select_NoDup, NoDup_seq. Qed.

Lemma argwhere_length (x : list bool) : length (argwhere x) = sum_bool x.
Proof. unfold argwhere. apply select_length. rewrite length_seq. lia. Qed.

Lemma argwhere_negb_elem (x : list bool) (e : nat) :
  e ∈ argwhere (negb <$> x) <-> x !! e = Some false.
Proof.
  rewrite argwhere_elem, list_lookup_fmap.
  destruct (x !! e) as [[]|]; cbn; split; intros H; try discriminate H; reflexivity.
Qed.

Lemma sum_bool_negb (x : list bool) : sum_bool (negb <$> x) + sum_bool x = length x.
Proof. induction x as [|[] x IH]; cbn in *; lia. Qed.

Lemma sum_bool_insert (x : list bool) (e : nat) (b : bool) :
  x !! e = Some (negb b) ->
  sum_bool (<[e := b]> x) + (if b then 0 else 1) = sum_bool x + (if b then 1 else 0).
Proof.
  revert e. induction x as [|a x IH]; intros [|e] He; try discriminate He.
  - injection He as ->. destruct b; cbn; lia.
  - specialize (IH e He).
    change (<[S e := b]> (a :: x)) with (a :: <[e := b]> x).
    cbn [sum_bool]. destruct a, b; cbn [negb] in *; lia.
Qed.

Lemma sum_bool_insert_false (x : list bool) (e : nat) :
  x !! e = Some true -> sum_bool (<[e := false]> x) + 1 = sum_bool x.
Proof. intros He. pose proof (sum_bool_insert x e false He) as H. cbv iota in H. lia. Qed.

Lemma sum_bool_insert_true (x : list bool) (e : nat) :
  x !! e = Some false -> sum_bool (<[e := true]> x) = sum_bool x + 1.
Proof. intros He. pose proof (sum_bool_insert x e true He) as H. cbv iota in H. lia. Qed.

Lemma sum_bool_replicate_true (n : nat) : sum_bool (replicate n true) = n.
Proof. induction n as [|n IH]; cbn; lia. Qed.

Lemma assign_cons {A} (i : nat) (ids : list nat) (v : A) (l : list A) :
  assign (i :: ids) v l = assign ids v (<[i := v]> l).
Proof. reflexivity. Qed.

Lemma assign_length {A} (ids : list nat) (v : A) (l : list A) :
  length (assign ids v l) = length l.
Proof.
  revert l. induction ids as [|i ids IH]; intros l; [reflexivity|].
  rewrite assign_cons, IH. apply length_insert.
Qed.

Lemma assign_lookup_ne {A} (ids : list nat) (v : A) (l : list A) (e : nat) :
  e ∉ ids -> assign ids v l !! e = l !! e.
Proof.
  revert l. induction ids as [|i ids IH]; intros l Hnin; [reflexivity|].
  apply not_elem_of_cons in Hnin. destruct Hnin as [Hne Hnin].
  rewrite assign_cons, IH by exact Hnin. apply list_lookup_insert_ne. congruence.
Qed.

Lemma assign_lookup_eq {A} (ids : list nat) (v : A) (l : list A) (e : nat) :
  e ∈ ids -> e < length l -> assign ids v l !! e = Some v.
Proof.
  revert l. induction ids as [|i ids IH]; intros l Hin Hlt; [inversion Hin|].
  rewrite assign_cons.
  destruct (decide (e ∈ ids)) as [Hin'|Hnin].
  - apply IH; [exact Hin'|]. rewrite length_insert. exact Hlt.
  - apply elem_of_cons in Hin. destruct Hin as [->|Hin]; [|contradiction].
    rewrite assign_lookup_ne by exact Hnin. apply list_lookup_insert_eq. exact Hlt.
Qed.

(** Clearing distinct solid elements lowers the volume by their number. *)
Lemma sum_bool_assign_false (ids : list nat) (x : list bool) :
  NoDup ids -> (forall e, e ∈ ids -> x !! e = Some true) ->
  sum_bool (assign ids false x) + length ids = sum_bool x.
Proof.
  revert x. induction ids as [|i ids IH]; intros x Hnd Hall; [cbn; lia|].
  apply NoDup_cons in Hnd. destruct Hnd as [Hi Hnd].
  rewrite assign_cons. cbn [length].
  pose proof (sum_bool_insert_false x i (Hall i ltac:(left))) as Hins.
  assert (IH' : sum_bool (assign ids false (<[i := false]> x)) + length ids
                = sum_bool (<[i := false]> x)).
  { apply IH; [exact Hnd|]. intros e He.
    rewrite list_lookup_insert_ne by (intros ->; contradiction).
    apply Hall. right. exact He. }
  lia.
Qed.

End ArrayFacts.

(** * The two phases of the topology update *)

(** [solid[sorted_solid[-1-i]]] and [void[sorted_void[i]]]. *)
Definition pick (solid ss : list nat) (i : nat) : nat :=
  solid !!! (ss !!! (length ss - 1 - i)).

Definition vpick (void sv : list nat) (i : nat) : nat := void !!! (sv !!! i).

(** The factor updates issued for removed elements and for swapped pairs. *)
Definition log_removed (es : list nat) : factor_log := (fun e => (e, true)) <$> es.

Fixpoint log_pairs (ps : list (nat * nat)) : factor_log :=
  match ps with
  | [] => []
  | (es, ev) :: ps' => (es, true) :: (ev, false) :: log_pairs ps'
  end.

Definition apply_pairs (ps : list (nat * nat)) (x : list bool) : list bool :=
  fold_left (fun x p => <[p.2 := true]> (<[p.1 := false]> x)) ps x.

Section Phases.

Variable am : list float.
Variables solid ss void sv : list nat.
Variable count : nat.

(** The candidate pair of pass [i] of the constant-volume loop, and the test
    that breaks the loop. *)
Definition candidate (i : nat) : nat * nat :=
  (pick solid ss (i + count), vpick void sv i).

Definition halts_at (i : nat) : bool :=
  ((am !!! (candidate i).1) <? (am !!! (candidate i).2))%float.

(** Number of passes executed before the first [break]. *)
Fixpoint swap_count (js : list nat) : nat :=
  match js with
  | [] => 0
  | i :: js' => if halts_at i then 0 else S (swap_count js')
  end.

Definition swapped (js : list nat) : list (nat * nat) :=
  candidate <$> take (swap_count js) js.

Lemma pick_inv (i k es : nat) :
  index_from_end ss i = Ok k -> index solid k = Ok es ->
  i < length ss /\ k < length solid /\ es = pick solid ss i.
Proof.
  intros Hk Hes. apply ArrayFacts.index_from_end_Ok in Hk. destruct Hk as [Hlt Hk].
  apply ArrayFacts.index_Ok in Hes. split; [exact Hlt|].
  split; [eapply lookup_lt_Some; exact Hes|].
  unfold pick. rewrite (list_lookup_total_correct _ _ _ Hk).
  symmetry. apply list_lookup_total_correct. exact Hes.
Qed.

Lemma pick_Ok (i : nat) :
  i < length ss -> (forall k, k ∈ ss -> k < length solid) ->
  exists k, index_from_end ss i = Ok k /\ index solid k = Ok (pick solid ss i).
Proof.
  intros Hlt Hss.
  destruct (lookup_lt_is_Some_2 ss (length ss - 1 - i) ltac:(lia)) as [k Hk].
  assert (Hkin : k ∈ ss) by (apply list_elem_of_lookup; eauto).
  destruct (lookup_lt_is_Some_2 solid k (Hss k Hkin)) as [es Hes].
  exists k. split.
  - apply ArrayFacts.index_from_end_Ok. auto.
  - apply ArrayFacts.index_Ok. unfold pick.
    rewrite (list_lookup_total_correct _ _ _ Hk), (list_lookup_total_correct _ _ _ Hes).
    exact Hes.
Qed.

Lemma vpick_inv (i kv ev : nat) :
  index sv i = Ok kv -> index void kv = Ok ev ->
  i < length sv /\ kv < length void /\ ev = vpick void sv i.
Proof.
  intros Hk Hev. apply ArrayFacts.index_Ok in Hk, Hev.
  split; [eapply lookup_lt_Some; exact Hk|]. split; [eapply lookup_lt_Some; exact Hev|].
  unfold vpick. rewrite (list_lookup_total_correct _ _ _ Hk).
  symmetry. apply list_lookup_total_correct. exact Hev.
Qed.

Lemma vpick_Ok (i : nat) :
  i < length sv -> (forall k, k ∈ sv -> k < length void) ->
  exists k, index sv i = Ok k /\ index void k = Ok (vpick void sv i).
Proof.
  intros Hlt Hsv.
  destruct (lookup_lt_is_Some_2 sv i Hlt) as [k Hk].
  assert (Hkin : k ∈ sv) by (apply list_elem_of_lookup; eauto).
  destruct (lookup_lt_is_Some_2 void k (Hsv k Hkin)) as [ev Hev].
  exists k. split; [apply ArrayFacts.index_Ok; exact Hk|].
  apply ArrayFacts.index_Ok. unfold vpick.
  rewrite (list_lookup_total_correct _ _ _ Hk), (list_lookup_total_correct _ _ _ Hev).
  exact Hev.
Qed.

(** What the changing-volume loop returns when it returns. *)
Lemma reduce_volume_inv (js : list nat) : forall x c f r,
  reduce_volume solid ss js x c f = Ok r ->
  r = (assign (pick solid ss <$> js) false x, c + length js,
       f ++ log_removed (pick solid ss <$> js)).
Proof.
  induction js as [|i js IH]; intros x c f r H; cbn in H.
  - injection H as <-. cbn. rewrite app_nil_r, Nat.add_0_r. reflexivity.
  - destruct (index_from_end ss i) as [k|] eqn:Hk; [|discriminate H]. cbn [bind] in H.
    destruct (index solid k) as [es|] eqn:Hes; [|discriminate H]. cbn [bind] in H.
    destruct (pick_inv i k es Hk Hes) as (_ & _ & ->).
    rewrite (IH _ _ _ _ H). cbn [fmap list_fmap length log_removed].
    rewrite ArrayFacts.assign_cons, <- app_assoc.
    replace (c + 1 + length js) with (c + S (length js)) by lia. reflexivity.
Qed.

(** It returns whenever the loop indices stay inside [sorted_solid]. *)
Lemma reduce_volume_Ok (js : list nat) (x : list bool) (c : nat) (f : factor_log) :
  (forall i, i ∈ js -> i < length ss) -> (forall k, k ∈ ss -> k < length solid) ->
  reduce_volume solid ss js x c f =
  Ok (assign (pick solid ss <$> js) false x, c + length js,
      f ++ log_removed (pick solid ss <$> js)).
Proof.
  intros Hjs Hss.
  assert (Hok : exists r, reduce_volume solid ss js x c f = Ok r).
  { revert x c f. induction js as [|i js IH]; intros x c f; cbn; [eauto|].
    destruct (pick_Ok i (Hjs i ltac:(left)) Hss) as (k & Hk & Hes).
    rewrite Hk. cbn [bind]. rewrite Hes. cbn [bind].
    apply IH. intros j Hj. apply Hjs. right. exact Hj. }
  destruct Hok as [r Hr]. rewrite Hr. f_equal. eapply reduce_volume_inv. exact Hr.
Qed.

Lemma apply_pairs_cons (p : nat * nat) (ps : list (nat * nat)) (x : list bool) :
  apply_pairs (p :: ps) x = apply_pairs ps (<[p.2 := true]> (<[p.1 := false]> x)).
Proof. reflexivity. Qed.

(** What the constant-volume loop returns when it returns. *)
Lemma swap_pairs_inv (js : list nat) : forall x f x' f',
  swap_pairs am solid ss void sv count js x f = Ok (x', f') ->
  x' = apply_pairs (swapped js) x /\ f' = f ++ log_pairs (swapped js).
Proof.
  unfold swapped.
  induction js as [|i js IH]; intros x f x' f' H; cbn in H.
  - injection H as <- <-. cbn. rewrite app_nil_r. auto.
  - destruct (index_from_end ss (i + count)) as [k|] eqn:Hk; [|discriminate H].
    cbn [bind] in H.
    destruct (index solid k) as [es|] eqn:Hes; [|discriminate H]. cbn [bind] in H.
    destruct (index sv i) as [kv|] eqn:Hkv; [|discriminate H]. cbn [bind] in H.
    destruct (index void kv) as [ev|] eqn:Hev; [|discriminate H]. cbn [bind] in H.
    destruct (pick_inv _ _ _ Hk Hes) as (_ & _ & ->).
    destruct (vpick_inv _ _ _ Hkv Hev) as (_ & _ & ->).
    cbn [swap_count]. unfold halts_at, candidate. cbn [fst snd].
    destruct (am !!! pick solid ss (i + count) <? am !!! vpick void sv i)%float.
    + injection H as <- <-. cbn. rewrite app_nil_r. auto.
    + apply IH in H. destruct H as [-> ->].
      cbn [take fmap list_fmap log_pairs]. rewrite apply_pairs_cons.
      unfold candidate. cbn [fst snd]. rewrite <- app_assoc. split; reflexivity.
Qed.

Lemma swap_pairs_Ok (js : list nat) (x : list bool) (f : factor_log) :
  (forall i, i ∈ js -> i + count < length ss /\ i < length sv) ->
  (forall k, k ∈ ss -> k < length solid) -> (forall k, k ∈ sv -> k < length void) ->
  swap_pairs am solid ss void sv count js x f =
  Ok (apply_pairs (swapped js) x, f ++ log_pairs (swapped js)).
Proof.
  intros Hjs Hss Hsv.
  assert (Hok : exists r, swap_pairs am solid ss void sv count js x f = Ok r).
  { revert x f. induction js as [|i js IH]; intros x f; cbn; [eauto|].
    destruct (Hjs i ltac:(left)) as [Hi1 Hi2].
    destruct (pick_Ok _ Hi1 Hss) as (k & Hk & Hes).
    rewrite Hk. cbn [bind]. rewrite Hes. cbn [bind].
    destruct (vpick_Ok _ Hi2 Hsv) as (kv & Hkv & Hev).
    rewrite Hkv. cbn [bind]. rewrite Hev. cbn [bind].
    destruct (am !!! pick solid ss (i + count) <? am !!! vpick void sv i)%float; [eauto|].
    apply IH. intros j Hj. apply Hjs. right. exact Hj. }
  destruct Hok as [[x' f'] Hr]. rewrite Hr.
  destruct (swap_pairs_inv _ _ _ _ _ Hr) as [-> ->]. reflexivity.
Qed.

(** Every executed pass saw a solid entry not below the void entry; the loop
    stops at the first pass that sees the solid entry strictly below. *)
Lemma swap_count_spec (js : list nat) :
  swap_count js <= length js /\
  Forall (fun i => halts_at i = false) (take (swap_count js) js) /\
  (forall i, js !! swap_count js = Some i -> halts_at i = true).
Proof.
  induction js as [|i js (IH1 & IH2 & IH3)]; cbn [swap_count length].
  - split; [lia|]. split; [constructor|]. intros i H. discriminate H.
  - destruct (halts_at i) eqn:Hh.
    + split; [lia|]. split; [constructor|]. intros j H. injection H as <-. exact Hh.
    + split; [lia|]. split; [constructor; assumption|exact IH3].
Qed.

End Phases.

(** * The volume target and the two change caps *)

Module Caps.

Lemma Vt_of_eq (N : nat) : Vt_of N = (Z.of_nat N / 2)%Z.
Proof.
  unfold Vt_of, int. cbn. rewrite Z.mul_1_r. apply Z.quot_div_nonneg; lia.
Qed.

Lemma dVmax_of_eq (N : nat) : dVmax_of N = Z.max 1 (Z.of_nat N / 64).
Proof.
  unfold dVmax_of, int, VV. cbn. rewrite Z.mul_1_l.
  change (Z.pos (64 * 1)) with 64%Z. rewrite Z.quot_div_nonneg by lia. reflexivity.
Qed.

Lemma int_ge (q : Q) (m : Z) : (1 <= m)%Z -> (m <= int q)%Z -> (inject_Z m <= q)%Q.
Proof.
  destruct q as [n d]. unfold int, Qle. cbn. intros H1 Hm.
  destruct (Z_lt_le_dec n 0) as [Hneg|Hpos].
  - pose proof (Z.quot_opp_l (-n) (Zpos d) ltac:(lia)) as Ho.
    rewrite Z.opp_involutive in Ho.
    pose proof (Z.quot_pos (-n) (Zpos d) ltac:(lia) ltac:(lia)). lia.
  - rewrite Z.quot_div_nonneg in Hm by lia.
    pose proof (Z.mul_div_le n (Zpos d) ltac:(lia)). nia.
Qed.

Lemma Qhalf_ge (q : Q) (m : Z) : (inject_Z m <= q / 2)%Q -> (inject_Z (2 * m) <= q)%Q.
Proof.
  destruct q as [n d]. unfold Qle, Qdiv, Qmult, Qinv. cbn.
  rewrite Pos2Z.inj_mul. lia.
Qed.

Lemma dXmax_of_cases (N : nat) :
  ((Z.of_nat N <= 64)%Z /\ (dXmax_of N == 2)%Q) \/
  ((64 < Z.of_nat N)%Z /\ (dXmax_of N == inject_Z (Z.of_nat N) / 32)%Q).
Proof.
  unfold dXmax_of, max2, TV.
  destruct (Qlt_le_dec 2 ((1 # 32) * inject_Z (Z.of_nat N))) as [Hlt|Hle].
  - right. split.
    + unfold Qlt in Hlt. cbn in Hlt. lia.
    + unfold Qeq. cbn. lia.
  - left. split; [|reflexivity]. unfold Qle in Hle. cbn in Hle. lia.
Qed.

(** Pairs within the swap budget leave the total change within [dXmax]. *)
Lemma swap_budget (N count : nat) (m : Z) :
  (1 <= m)%Z ->
  (m <= int ((dXmax_of N - inject_Z (Z.of_nat count)) / 2)%Q)%Z ->
  (inject_Z (2 * m) <= dXmax_of N - inject_Z (Z.of_nat count))%Q /\
  (64 * m + 32 * Z.of_nat count <= Z.max 64 (Z.of_nat N))%Z.
Proof.
  intros H1 Hm. pose proof (int_ge _ _ H1 Hm) as Hq.
  assert (Hq2 : (inject_Z (2 * m) <= dXmax_of N - inject_Z (Z.of_nat count))%Q).
  { apply Qhalf_ge. exact Hq. }
  split; [exact Hq2|].
  destruct (dXmax_of_cases N) as [[HN Hd]|[HN Hd]]; rewrite Hd in Hq2;
    unfold Qle in Hq2; cbn in Hq2; lia.
Qed.

Lemma Vt_of_mesh (Ny : nat) : Vt_of (N_of Ny) = Z.of_nat (Ny * Ny).
Proof.
  rewrite Vt_of_eq. unfold N_of, Nx_of.
  replace (Z.of_nat (2 * Ny * Ny)) with (Z.of_nat (Ny * Ny) * 2)%Z by lia.
  apply Z.div_mul. discriminate.
Qed.

Lemma dVmax_le_dXmax (N : nat) :
  (64 * dVmax_of N <= 2 * Z.max 64 (Z.of_nat N))%Z.
Proof.
  rewrite dVmax_of_eq.
  pose proof (Z.mul_div_le (Z.of_nat N) 64 ltac:(lia)). lia.
Qed.

End Caps.

(** * Picking elements through a sorting permutation *)

Module Selection.

Section Sel.

Variables l s : list nat.
Hypothesis Hperm : s ≡ₚ seq 0 (length l).
Hypothesis Hnd : NoDup l.

Lemma perm_lt (k : nat) : k ∈ s -> k < length l.
Proof. rewrite Hperm, elem_of_seq. lia. Qed.

Lemma perm_length : length s = length l.
Proof. rewrite Hperm. apply length_seq. Qed.

Lemma perm_NoDup : NoDup s.
Proof. rewrite Hperm. apply NoDup_seq. Qed.

Lemma sel_lookup (p : nat) :
  p < length s -> exists k, s !! p = Some k /\ l !! k = Some (l !!! (s !!! p)).
Proof.
  intros Hp. destruct (lookup_lt_is_Some_2 s p Hp) as [k Hk].
  assert (Hkl : k < length l) by (apply perm_lt, list_elem_of_lookup; eauto).
  destruct (lookup_lt_is_Some_2 l k Hkl) as [e He].
  exists k. split; [exact Hk|].
  rewrite (list_lookup_total_correct _ _ _ Hk), (list_lookup_total_correct _ _ _ He).
  exact He.
Qed.

Lemma sel_elem (p : nat) : p < length s -> l !!! (s !!! p) ∈ l.
Proof.
  intros Hp. destruct (sel_lookup p Hp) as (k & _ & Hk).
  apply list_elem_of_lookup. eauto.
Qed.

Lemma sel_inj (p q : nat) :
  p < length s -> q < length s -> l !!! (s !!! p) = l !!! (s !!! q) -> p = q.
Proof.
  intros Hp Hq Heq.
  destruct (sel_lookup p Hp) as (k & Hk & Hlk).
  destruct (sel_lookup q Hq) as (k' & Hk' & Hlk').
  rewrite Heq in Hlk.
  assert (k = k') by (eapply NoDup_lookup; eassumption). subst k'.
  eapply NoDup_lookup; [apply perm_NoDup|exact Hk|exact Hk'].
Qed.

Lemma pick_elem (i : nat) : i < length s -> pick l s i ∈ l.
Proof. intros Hi. apply sel_elem. lia. Qed.

Lemma pick_inj (i j : nat) :
  i < length s -> j < length s -> pick l s i = pick l s j -> i = j.
Proof.
  intros Hi Hj Heq. apply sel_inj in Heq; lia.
Qed.

Lemma picks_NoDup (js : list nat) :
  NoDup js -> (forall i, i ∈ js -> i < length s) -> NoDup (pick l s <$> js).
Proof.
  intros Hjs Hlt. apply NoDup_fmap_2_strong; [|exact Hjs].
  intros i j Hi Hj. apply pick_inj; auto.
Qed.

Lemma vpicks_NoDup (js : list nat) :
  NoDup js -> (forall i, i ∈ js -> i < length s) -> NoDup (vpick l s <$> js).
Proof.
  intros Hjs Hlt. apply NoDup_fmap_2_strong; [|exact Hjs].
  intros i j Hi Hj. apply sel_inj; auto.
Qed.

End Sel.

Lemma apply_pairs_length (ps : list (nat * nat)) (x : list bool) :
  length (apply_pairs ps x) = length x.
Proof.
  revert x. induction ps as [|p ps IH]; intros x; [reflexivity|].
  rewrite apply_pairs_cons, IH, !length_insert. reflexivity.
Qed.

Lemma apply_pairs_lookup_ne (ps : list (nat * nat)) (x : list bool) (e : nat) :
  e ∉ ps.*1 -> e ∉ ps.*2 -> apply_pairs ps x !! e = x !! e.
Proof.
  revert x. induction ps as [|[es ev] ps IH]; intros x H1 H2; [reflexivity|].
  cbn [fmap list_fmap fst snd] in H1, H2.
  apply not_elem_of_cons in H1, H2. destruct H1 as [Hes H1], H2 as [Hev H2].
  rewrite apply_pairs_cons, IH by assumption. cbn [fst snd].
  rewrite !list_lookup_insert_ne by congruence. reflexivity.
Qed.

(** Swapping distinct solid elements against distinct void elements keeps
    the volume. *)
Lemma apply_pairs_sum (ps : list (nat * nat)) : forall x : list bool,
  NoDup ps.*1 -> NoDup ps.*2 ->
  (forall e, e ∈ ps.*1 -> x !! e = Some true) ->
  (forall e, e ∈ ps.*2 -> x !! e = Some false) ->
  sum_bool (apply_pairs ps x) = sum_bool x.
Proof.
  induction ps as [|[es ev] ps IH]; intros x Hn1 Hn2 H1 H2; [reflexivity|].
  cbn [fmap list_fmap fst snd] in *.
  apply NoDup_cons in Hn1, Hn2. destruct Hn1 as [Hes Hn1], Hn2 as [Hev Hn2].
  pose proof (H1 es ltac:(left)) as Hxes. pose proof (H2 ev ltac:(left)) as Hxev.
  assert (Hne : es <> ev) by congruence.
  rewrite apply_pairs_cons. cbn [fst snd]. rewrite IH; [|assumption|assumption| |].
  - rewrite ArrayFacts.sum_bool_insert_true
      by (rewrite list_lookup_insert_ne by exact Hne; exact Hxev).
    pose proof (ArrayFacts.sum_bool_insert_false x es Hxes). lia.
  - intros e He. pose proof (H1 e ltac:(right; exact He)) as Hxe.
    rewrite !list_lookup_insert_ne; [exact Hxe|congruence|congruence].
  - intros e He. pose proof (H2 e ltac:(right; exact He)) as Hxe.
    rewrite !list_lookup_insert_ne; [exact Hxe|congruence|congruence].
Qed.

End Selection.

(** * The topology update inside one iteration *)

Section Update.

Variable argsort : list float -> list nat.
Hypothesis argsort_perm : forall v, argsort v ≡ₚ seq 0 (length v).

Variable N : nat.
Variable am : list float.
Variable x : list bool.

Let solid := argwhere x.
Let void := argwhere (negb <$> x).
Let ss := argsort (gather am solid).
Let sv := argsort (gather am void).

(** Number of passes of the two loops. *)
Definition reduce_passes : nat :=
  Z.to_nat (Z.min (Z.of_nat (sum_bool x) - Vt_of N) (dVmax_of N)).

Definition swap_passes : nat :=
  Z.to_nat (Z.min (Z.of_nat (length sv))
                  (int ((dXmax_of N - inject_Z (Z.of_nat reduce_passes)) / 2)%Q)).

Definition removed : list nat := pick solid ss <$> seq 0 reduce_passes.

Definition pairs : list (nat * nat) :=
  swapped am solid ss void sv reduce_passes (seq 0 swap_passes).

Lemma ss_perm : ss ≡ₚ seq 0 (length solid).
Proof. unfold ss. rewrite argsort_perm. unfold gather. rewrite length_fmap. reflexivity. Qed.

Lemma sv_perm : sv ≡ₚ seq 0 (length void).
Proof. unfold sv. rewrite argsort_perm. unfold gather. rewrite length_fmap. reflexivity. Qed.

Lemma ss_length : length ss = sum_bool x.
Proof.
  rewrite (Selection.perm_length _ _ ss_perm). apply ArrayFacts.argwhere_length.
Qed.

Hypothesis HN : 2 <= N.
Hypothesis Hvol : (Vt_of N <= Z.of_nat (sum_bool x))%Z.

Lemma Vt_bounds : (1 <= Vt_of N)%Z /\ (2 * Vt_of N <= Z.of_nat N < 2 * Vt_of N + 2)%Z.
Proof.
  rewrite Caps.Vt_of_eq.
  pose proof (Z.div_mod (Z.of_nat N) 2 ltac:(lia)).
  pose proof (Z.mod_pos_bound (Z.of_nat N) 2 ltac:(lia)). lia.
Qed.

Lemma reduce_passes_eq :
  Z.of_nat reduce_passes = Z.min (Z.of_nat (sum_bool x) - Vt_of N) (dVmax_of N).
Proof.
  unfold reduce_passes. rewrite Caps.dVmax_of_eq.
  pose proof (Z.div_pos (Z.of_nat N) 64 ltac:(lia) ltac:(lia)). lia.
Qed.

Lemma reduce_passes_lt (i : nat) : i ∈ seq 0 reduce_passes -> i < length ss.
Proof.
  rewrite elem_of_seq, ss_length. pose proof reduce_passes_eq. pose proof Vt_bounds. lia.
Qed.

Lemma swap_passes_lt (i : nat) :
  i ∈ seq 0 swap_passes -> i + reduce_passes < length ss /\ i < length sv.
Proof.
  rewrite elem_of_seq, ss_length. unfold swap_passes. intros Hi.
  set (B := int ((dXmax_of N - inject_Z (Z.of_nat reduce_passes)) / 2)%Q) in *.
  assert (Hi1 : (Z.of_nat (i + 1) <= B)%Z) by lia.
  destruct (Caps.swap_budget N reduce_passes (Z.of_nat (i + 1)) ltac:(lia) Hi1) as [_ Hb].
  pose proof reduce_passes_eq. pose proof Vt_bounds. split; lia.
Qed.

Lemma swap_count_le :
  swap_count am solid ss void sv reduce_passes (seq 0 swap_passes) <= swap_passes.
Proof.
  pose proof (swap_count_spec am solid ss void sv reduce_passes (seq 0 swap_passes))
    as [Hle _]. rewrite length_seq in Hle. exact Hle.
Qed.

Lemma pairs_eq :
  pairs = candidate solid ss void sv reduce_passes <$> seq 0 (length pairs).
Proof.
  unfold pairs, swapped. rewrite length_fmap, take_seq, length_seq.
  pose proof swap_count_le. rewrite (Nat.min_l _ _ H). reflexivity.
Qed.

Lemma pairs_length : length pairs <= swap_passes.
Proof.
  unfold pairs, swapped. rewrite length_fmap, length_take, length_seq. lia.
Qed.

Lemma pairs_fst : pairs.*1 = pick solid ss <$> seq reduce_passes (length pairs).
Proof.
  rewrite pairs_eq at 1. rewrite <- list_fmap_compose.
  replace (seq reduce_passes (length pairs))
    with (Nat.add reduce_passes <$> seq 0 (length pairs))
    by (rewrite fmap_add_seq; f_equal; lia).
  rewrite <- list_fmap_compose.
  apply list_fmap_ext. intros _ i _. cbn. f_equal. lia.
Qed.

Lemma pairs_snd : pairs.*2 = vpick void sv <$> seq 0 (length pairs).
Proof. rewrite pairs_eq at 1. rewrite <- list_fmap_compose. reflexivity. Qed.

Lemma removed_pairs_fst :
  removed ++ pairs.*1 = pick solid ss <$> seq 0 (reduce_passes + length pairs).
Proof. rewrite pairs_fst. unfold removed. rewrite seq_app, fmap_app. reflexivity. Qed.

Lemma removed_pairs_NoDup : NoDup (removed ++ pairs.*1).
Proof.
  rewrite removed_pairs_fst.
  apply (Selection.picks_NoDup _ _ ss_perm (ArrayFacts.argwhere_NoDup x)); [apply NoDup_seq|].
  intros i Hi. apply elem_of_seq in Hi.
  destruct (decide (length pairs = 0)) as [H0|Hpos].
  - apply reduce_passes_lt, elem_of_seq. lia.
  - pose proof pairs_length.
    destruct (swap_passes_lt (length pairs - 1)) as [Hlt _]; [apply elem_of_seq; lia|lia].
Qed.

Lemma removed_pairs_solid (e : nat) : e ∈ removed ++ pairs.*1 -> x !! e = Some true.
Proof.
  rewrite removed_pairs_fst. intros He. apply list_elem_of_fmap in He.
  destruct He as (i & -> & Hi). apply elem_of_seq in Hi.
  apply ArrayFacts.argwhere_elem. apply (Selection.pick_elem _ _ ss_perm).
  destruct (decide (length pairs = 0)) as [H0|Hpos].
  - apply reduce_passes_lt, elem_of_seq. lia.
  - pose proof pairs_length.
    destruct (swap_passes_lt (length pairs - 1)) as [Hlt _]; [apply elem_of_seq; lia|lia].
Qed.

Lemma pairs_snd_lt (i : nat) : i ∈ seq 0 (length pairs) -> i < length sv.
Proof.
  intros Hi. apply elem_of_seq in Hi. pose proof pairs_length.
  apply swap_passes_lt, elem_of_seq. lia.
Qed.

Lemma pairs_void (e : nat) : e ∈ pairs.*2 -> x !! e = Some false.
Proof.
  rewrite pairs_snd. intros He. apply list_elem_of_fmap in He.
  destruct He as (i & -> & Hi).
  apply ArrayFacts.argwhere_negb_elem.
  apply (Selection.sel_elem _ _ sv_perm). apply pairs_snd_lt. exact Hi.
Qed.

Lemma pairs_snd_NoDup : NoDup pairs.*2.
Proof.
  rewrite pairs_snd.
  apply (Selection.vpicks_NoDup _ _ sv_perm (ArrayFacts.argwhere_NoDup _));
    [apply NoDup_seq|apply pairs_snd_lt].
Qed.

Lemma removed_length : length removed = reduce_passes.
Proof. unfold removed. rewrite length_fmap. apply length_seq. Qed.

(** The update returns, and its result is determined by the removed
    elements and the swapped pairs. *)
Lemma update_topology_eq (vol : Z) (f : factor_log) :
  vol = Z.of_nat (sum_bool x) ->
  update_topology argsort N am x vol f =
  Ok (apply_pairs pairs (assign removed false x),
      f ++ log_removed removed ++ log_pairs pairs).
Proof.
  intros ->. unfold update_topology. fold solid void ss sv.
  change (range (Z.min (Z.of_nat (sum_bool x) - Vt_of N) (dVmax_of N)))
    with (seq 0 reduce_passes).
  rewrite (reduce_volume_Ok solid ss (seq 0 reduce_passes) x 0 f reduce_passes_lt
             (Selection.perm_lt _ _ ss_perm)).
  cbn [bind]. rewrite length_seq. cbn [Nat.add].
  change (range _) with (seq 0 swap_passes).
  rewrite (swap_pairs_Ok am solid ss void sv reduce_passes (seq 0 swap_passes) _ _
             swap_passes_lt (Selection.perm_lt _ _ ss_perm) (Selection.perm_lt _ _ sv_perm)).
  fold removed pairs. rewrite <- app_assoc. reflexivity.
Qed.

Lemma reduced_volume :
  sum_bool (assign removed false x) + reduce_passes = sum_bool x.
Proof.
  rewrite <- removed_length. apply ArrayFacts.sum_bool_assign_false.
  - pose proof removed_pairs_NoDup as H. apply NoDup_app in H. tauto.
  - intros e He. apply removed_pairs_solid, elem_of_app. left. exact He.
Qed.

Lemma swapped_volume :
  sum_bool (apply_pairs pairs (assign removed false x)) = sum_bool (assign removed false x).
Proof.
  pose proof removed_pairs_NoDup as Hnd. apply NoDup_app in Hnd.
  destruct Hnd as (Hnd1 & Hdisj & Hnd2).
  apply Selection.apply_pairs_sum; [exact Hnd2|exact pairs_snd_NoDup| |].
  - intros e He. rewrite ArrayFacts.assign_lookup_ne.
    + apply removed_pairs_solid, elem_of_app. right. exact He.
    + intros Hin. exact (Hdisj e Hin He).
  - intros e He. pose proof (pairs_void e He) as Hv. rewrite ArrayFacts.assign_lookup_ne.
    + exact Hv.
    + intros Hin.
      pose proof (removed_pairs_solid e ltac:(apply elem_of_app; left; exact Hin)).
      congruence.
Qed.

(** Flips of the two phases against the caps. *)
Lemma swap_within_budget :
  (inject_Z (Z.of_nat (2 * length pairs))
   <= dXmax_of N - inject_Z (Z.of_nat reduce_passes))%Q /\
  (64 * Z.of_nat (length pairs) + 32 * Z.of_nat reduce_passes
   <= Z.max 64 (Z.of_nat N))%Z.
Proof.
  pose proof pairs_length as Hle. pose proof reduce_passes_eq as Hr.
  pose proof (Caps.dVmax_le_dXmax N) as Hcap.
  destruct (decide (length pairs = 0)) as [H0|Hpos].
  - rewrite H0. split; [|lia].
    destruct (Caps.dXmax_of_cases N) as [[HN' Hd]|[HN' Hd]]; rewrite Hd;
      unfold Qle; cbn; lia.
  - assert (Hm : (Z.of_nat (length pairs)
                  <= int ((dXmax_of N - inject_Z (Z.of_nat reduce_passes)) / 2)%Q)%Z).
    { unfold swap_passes in Hle.
      set (B := int ((dXmax_of N - inject_Z (Z.of_nat reduce_passes)) / 2)%Q) in *.
      lia. }
    destruct (Caps.swap_budget N reduce_passes (Z.of_nat (length pairs))
                ltac:(lia) Hm) as [Hq Hz].
    split; [|exact Hz].
    replace (Z.of_nat (2 * length pairs)) with (2 * Z.of_nat (length pairs))%Z by lia.
    exact Hq.
Qed.

End Update.

(** * Volume and change caps along a run *)

Section VolumeCaps.

Variable argsort : list float -> list nat.
Hypothesis argsort_perm : forall v, argsort v ≡ₚ seq 0 (length v).

Variable N : nat.
Variable ld_ele : list nat.
Hypothesis HN : 2 <= N.

(** An iteration is a momentum step, a topology update on the new
    sensitivities, and the convergence check. *)
Lemma iteration_update (o : oracle) (s s' : state) :
  iteration argsort N ld_ele o s = Ok s' ->
  momentum_step ld_ele (alpha_m s) (o_alpha_f o) = Ok (alpha_m s') /\
  update_topology argsort N (alpha_m s') (x s) (vol s) (factor s)
    = Ok (x s', factor s') /\
  vol s' = Z.of_nat (sum_bool (x s')) /\ it s' = it s + 1.
Proof.
  unfold iteration. intros H.
  destruct (momentum_step ld_ele (alpha_m s) (o_alpha_f o)) as [am|e]; [|discriminate H].
  cbn [bind] in H.
  destruct (update_topology argsort N am (x s) (vol s) (factor s)) as [[x' f']|e] eqn:Hup;
    [|discriminate H].
  cbn [bind] in H. injection H as <-.
  match goal with |- context [convergence_check ?v ?ob ?st] =>
    destruct (convergence_check_x v ob st) as (-> & -> & -> & -> & ->) end.
  cbn. auto.
Qed.

Definition volume_inv (s : state) : Prop :=
  vol s = Z.of_nat (sum_bool (x s)) /\ (Vt_of N <= vol s)%Z /\ length (x s) = N.

Lemma volume_inv_init (leftover : option (list bool)) :
  volume_inv (init_state N leftover).
Proof.
  unfold volume_inv, init_state. cbn [x vol].
  rewrite ArrayFacts.sum_bool_replicate_true, length_replicate, Caps.Vt_of_eq.
  split; [reflexivity|]. split; [|reflexivity].
  pose proof (Z.mul_div_le (Z.of_nat N) 2 ltac:(lia)). lia.
Qed.

Lemma volume_inv_step (o : oracle) (s s' : state) :
  volume_inv s -> iteration argsort N ld_ele o s = Ok s' -> volume_inv s'.
Proof.
  intros (Hv & Hge & Hlen) Hit.
  destruct (iteration_update o s s' Hit) as (_ & Hup & Hv' & _).
  rewrite Hv in Hge.
  rewrite (update_topology_eq argsort argsort_perm N (alpha_m s') (x s) HN Hge
             (vol s) (factor s) Hv) in Hup.
  injection Hup as Hx' _.
  pose proof (reduced_volume argsort argsort_perm N (alpha_m s') (x s) HN Hge) as Hred.
  pose proof (swapped_volume argsort argsort_perm N (alpha_m s') (x s) HN Hge) as Hsw.
  pose proof (reduce_passes_eq N (x s) HN Hge) as Hrp.
  unfold volume_inv. rewrite Hv', <- Hx', Hsw.
  split; [reflexivity|]. split; [lia|].
  rewrite Selection.apply_pairs_length, ArrayFacts.assign_length. exact Hlen.
Qed.

Lemma volume_inv_run (os : list oracle) (leftover : option (list bool)) (s : state) :
  run argsort N ld_ele os (init_state N leftover) = Ok s -> volume_inv s.
Proof.
  intros Hrun.
  apply (run_invariant argsort N ld_ele (fun _ => True) volume_inv) with (os := os)
    (s := init_state N leftover); [| |apply volume_inv_init|exact Hrun].
  - intros o s0 s1 _ Hinv _. apply volume_inv_step. exact Hinv.
  - apply Forall_forall. intros; exact I.
Qed.

(** C4: in every state the run reaches, the topology update on any
    sensitivity vector returns; its changing-volume phase removes exactly
    [min(vol - Vt, dVmax)] distinct solid elements, with
    [dVmax = max(1, floor(N/64))], and leaves the volume at or above [Vt];
    its constant-volume phase flips pairs of one solid and one void element,
    all distinct, so the volume is kept and twice the number of pairs stays
    within [dXmax - count]; in total at most [dVmax] elements are removed by
    the first phase and at most [dXmax] elements are flipped. *)
Theorem flips_within_caps (os : list oracle) (leftover : option (list bool))
    (s : state) (am : list float) :
  run argsort N ld_ele os (init_state N leftover) = Ok s ->
  let rm := removed argsort N am (x s) in
  let ps := pairs argsort N am (x s) in
  let x1 := assign rm false (x s) in
  update_topology argsort N am (x s) (vol s) (factor s)
    = Ok (apply_pairs ps x1, factor s ++ log_removed rm ++ log_pairs ps) /\
  Z.of_nat (length rm) = Z.min (vol s - Vt_of N) (dVmax_of N) /\
  dVmax_of N = Z.max 1 (Z.of_nat N / 64) /\
  (forall e, e ∈ rm -> x s !! e = Some true) /\
  (forall p, p ∈ ps -> x s !! p.1 = Some true /\ x s !! p.2 = Some false) /\
  NoDup (rm ++ ps.*1) /\ NoDup ps.*2 /\
  Z.of_nat (sum_bool x1) = (vol s - Z.of_nat (length rm))%Z /\
  (Vt_of N <= Z.of_nat (sum_bool x1))%Z /\
  sum_bool (apply_pairs ps x1) = sum_bool x1 /\
  (inject_Z (Z.of_nat (2 * length ps))
   <= dXmax_of N - inject_Z (Z.of_nat (length rm)))%Q /\
  (Z.of_nat (length rm) <= dVmax_of N)%Z /\
  (inject_Z (Z.of_nat (length rm + 2 * length ps)) <= dXmax_of N)%Q.
Proof.
  intros Hrun rm ps x1.
  destruct (volume_inv_run os leftover s Hrun) as (Hv & Hge & Hlen).
  rewrite Hv in Hge.
  pose proof (reduced_volume argsort argsort_perm N am (x s) HN Hge) as Hred.
  pose proof (reduce_passes_eq N (x s) HN Hge) as Hrp.
  pose proof (removed_length argsort N am (x s)) as Hrl.
  pose proof (swap_within_budget argsort N am (x s) HN Hge) as [Hq _].
  fold rm in Hred, Hrl. fold ps in Hq. fold x1 in Hred.
  rewrite <- Hrl in Hrp, Hred, Hq. rewrite <- Hv in Hrp.
  split; [apply update_topology_eq; assumption|].
  split; [exact Hrp|]. split; [apply Caps.dVmax_of_eq|].
  split.
  { intros e He. apply (removed_pairs_solid argsort argsort_perm N am (x s) HN Hge).
    apply elem_of_app. left. exact He. }
  split.
  { intros p Hp. split.
    - apply (removed_pairs_solid argsort argsort_perm N am (x s) HN Hge).
      apply elem_of_app. right. apply list_elem_of_fmap. eauto.
    - apply (pairs_void argsort argsort_perm N am (x s) HN Hge).
      apply list_elem_of_fmap. eauto. }
  split; [apply removed_pairs_NoDup; assumption|].
  split; [apply pairs_snd_NoDup; assumption|].
  split; [lia|]. split; [lia|].
  split; [apply swapped_volume; assumption|].
  split; [exact Hq|]. split; [lia|].
  rewrite Nat2Z.inj_add, inject_Z_plus. lra.
Qed.

End VolumeCaps.

(** * The rule of the constant-volume phase *)

(** The sentence of the specification, read literally: a pair [(es, ev)] of
    the constant-volume phase (consecutive factor updates [(es, true)],
    [(ev, false)]) is executed only if the void entry strictly exceeds the
    solid entry. *)
Definition swap_requires_void_above : Prop :=
  forall (argsort : list float -> list nat) (N : nat) (am : list float)
         (x : list bool) (vol : Z) (f : factor_log) (x' : list bool) (f' : factor_log),
    update_topology argsort N am x vol f = Ok (x', f') ->
    forall es ev l1 l2,
      f' = f ++ l1 ++ (es, true) :: (ev, false) :: l2 ->
      ((am !!! es) <? (am !!! ev))%float = true.

Section SwapRule.

Variable argsort : list float -> list nat.
Variable N : nat.
Variable am : list float.
Variable x : list bool.

Let solid := argwhere x.
Let void := argwhere (negb <$> x).
Let ss := argsort (gather am solid).
Let sv := argsort (gather am void).

(** C2, as the code has it: whenever the update returns, the pairs it
    executed are the first [m] candidates [(solid[sorted_solid[-1-i-count]],
    void[sorted_void[i]])]; each executed pair had a solid entry not strictly
    below the void entry (so the void entry never exceeds the solid one, and
    a tie is swapped), and the phase stopped either on its budget or at the
    first candidate whose solid entry is strictly below its void entry. *)
Theorem swap_only_when_solid_not_below (vol : Z) (f : factor_log)
    (x' : list bool) (f' : factor_log) :
  update_topology argsort N am x vol f = Ok (x', f') ->
  exists (rm : list nat) (m : nat),
    let cand := candidate solid ss void sv (length rm) in
    let budget :=
      Z.to_nat (Z.min (Z.of_nat (length sv))
                      (int ((dXmax_of N - inject_Z (Z.of_nat (length rm))) / 2)%Q)) in
    f' = f ++ log_removed rm ++ log_pairs (cand <$> seq 0 m) /\
    x' = apply_pairs (cand <$> seq 0 m) (assign rm false x) /\
    (forall i, i < m -> ((am !!! (cand i).1) <? (am !!! (cand i).2))%float = false) /\
    m <= budget /\
    (m < budget -> ((am !!! (cand m).1) <? (am !!! (cand m).2))%float = true).
Proof.
  unfold update_topology. fold solid void ss sv. intros H.
  destruct (reduce_volume solid ss _ x 0 f) as [[[x1 count] f1]|] eqn:Hred;
    [|discriminate H].
  cbn [bind] in H.
  apply reduce_volume_inv in Hred. injection Hred as -> -> ->.
  apply swap_pairs_inv in H. destruct H as [-> ->].
  set (rm := pick solid ss <$> range (Z.min (vol - Vt_of N) (dVmax_of N))) in *.
  assert (Hc : length (range (Z.min (vol - Vt_of N) (dVmax_of N))) = length rm).
  { unfold rm. rewrite length_fmap. reflexivity. }
  rewrite Hc. unfold range.
  set (budget := Z.to_nat (Z.min (Z.of_nat (length sv))
                   (int ((dXmax_of N - inject_Z (Z.of_nat (length rm))) / 2)%Q))).
  destruct (swap_count_spec am solid ss void sv (length rm) (seq 0 budget))
    as (Hle & Hall & Hnext).
  rewrite length_seq in Hle.
  set (m := swap_count am solid ss void sv (length rm) (seq 0 budget)) in *.
  exists rm, m. cbn zeta.
  unfold swapped. fold m. rewrite take_seq, (Nat.min_l _ _ Hle) in *.
  split; [rewrite <- app_assoc; reflexivity|]. split; [reflexivity|].
  split; [|split; [exact Hle|]].
  - intros i Hi. rewrite Forall_forall in Hall. apply (Hall i). apply elem_of_seq. lia.
  - intros Hlt. apply (Hnext m). apply lookup_seq. lia.
Qed.

End SwapRule.

(** * Insertion sort is an argsort *)

Module Argsort.

(** What the engine needs from [np.argsort]. *)
Definition sorting (argsort : list float -> list nat) : Prop :=
  forall v i j a b, i < j -> argsort v !! i = Some a -> argsort v !! j = Some b ->
                    np_lt (v !!! b) (v !!! a) = false.

Section Insertion.

Variable v : list float.

Let R (a b : nat) : Prop := np_lt (v !!! b) (v !!! a) = false.

Inductive ascending : list nat -> Prop :=
| ascending_nil : ascending []
| ascending_cons a s : Forall (R a) s -> ascending s -> ascending (a :: s).

Lemma insert_index_perm (i : nat) (s : list nat) : insert_index v i s ≡ₚ i :: s.
Proof.
  induction s as [|j s IH]; cbn [insert_index]; [reflexivity|].
  destruct (np_lt (v !!! j) (v !!! i)); [|reflexivity].
  rewrite IH. apply Permutation_swap.
Qed.

Lemma insert_index_ascending (i : nat) (s : list nat) :
  ascending s -> ascending (insert_index v i s).
Proof.
  induction 1 as [|j s Hall Hs IH]; cbn [insert_index].
  - constructor; constructor.
  - destruct (np_lt (v !!! j) (v !!! i)) eqn:Hji.
    + constructor; [|exact IH]. rewrite insert_index_perm. constructor; [|exact Hall].
      unfold R. apply FloatFacts.np_lt_asym. exact Hji.
    + constructor; [|constructor; assumption].
      constructor; [exact Hji|].
      eapply Forall_impl; [exact Hall|]. intros k Hk. unfold R in *.
      eapply FloatFacts.np_le_trans; eassumption.
Qed.

Lemma foldr_insert_perm (l : list nat) : foldr (insert_index v) [] l ≡ₚ l.
Proof.
  induction l as [|i l IH]; cbn [foldr]; [reflexivity|].
  rewrite insert_index_perm, IH. reflexivity.
Qed.

Lemma foldr_insert_ascending (l : list nat) : ascending (foldr (insert_index v) [] l).
Proof.
  induction l as [|i l IH]; cbn [foldr]; [constructor|].
  apply insert_index_ascending. exact IH.
Qed.

Lemma ascending_lookup (s : list nat) :
  ascending s ->
  forall i j a b, i < j -> s !! i = Some a -> s !! j = Some b -> R a b.
Proof.
  induction 1 as [|c s Hall Hs IH]; intros i j a b Hij Hi Hj; [discriminate Hi|].
  destruct j as [|j]; [lia|]. cbn in Hj. destruct i as [|i]; cbn in Hi.
  - injection Hi as <-. rewrite Forall_forall in Hall. apply Hall.
    apply list_elem_of_lookup. eauto.
  - apply (IH i j); [lia|assumption|assumption].
Qed.

End Insertion.

Lemma insertion_argsort_perm (v : list float) :
  insertion_argsort v ≡ₚ seq 0 (length v).
Proof. apply foldr_insert_perm. Qed.

Lemma insertion_argsort_sorting : sorting insertion_argsort.
Proof.
  intros v i j a b Hij Hi Hj.
  exact (ascending_lookup v _ (foldr_insert_ascending v _) i j a b Hij Hi Hj).
Qed.

End Argsort.

(** * The load band *)

(** The entries outside the load band are ordinary values above the
    sentinel: neither NaN nor minus infinity. *)
Definition regular (ld : list nat) (am : list float) : bool :=
  forallb (fun e => bool_decide (e ∈ ld) || (neg_infinity <? am !!! e)%float)
          (seq 0 (length am)).

Section LoadBand.

Variable argsort : list float -> list nat.
Hypothesis argsort_perm : forall v, argsort v ≡ₚ seq 0 (length v).
Hypothesis argsort_sorting : Argsort.sorting argsort.

Variable N : nat.
Variable ld : list nat.
Hypothesis HN : 2 <= N.
Hypothesis Hld_nd : NoDup ld.
Hypothesis Hld_len : (Z.of_nat (length ld) <= Vt_of N)%Z.

Section OneUpdate.

Variable am : list float.
Variable x : list bool.
Hypothesis Hvol : (Vt_of N <= Z.of_nat (sum_bool x))%Z.
Hypothesis Hlenx : length x = N.
Hypothesis Hlenam : length am = N.
Hypothesis Hsolid : forall e, e ∈ ld -> x !! e = Some true.
Hypothesis Hsentinel : forall e, e ∈ ld -> am !!! e = neg_infinity.
Hypothesis Hregular : regular ld am = true.

Let solid := argwhere x.
Let void := argwhere (negb <$> x).
Let ss := argsort (gather am solid).
Let sv := argsort (gather am void).

Lemma regular_above (e : nat) :
  e < N -> e ∉ ld -> (neg_infinity <? am !!! e)%float = true.
Proof.
  intros He Hnin. unfold regular in Hregular. rewrite forallb_forall in Hregular.
  specialize (Hregular e). rewrite <- list_elem_of_In, elem_of_seq, Hlenam in Hregular.
  specialize (Hregular ltac:(lia)). apply orb_prop in Hregular.
  destruct Hregular as [Hin|Hlt]; [|exact Hlt].
  apply bool_decide_eq_true in Hin. contradiction.
Qed.

Lemma gather_solid (k : nat) :
  k < length solid -> gather am solid !!! k = am !!! (solid !!! k).
Proof.
  intros Hk. unfold gather.
  exact (@list_lookup_total_fmap _ _ (fun i => am !!! i) _ _ solid k Hk).
Qed.

(** In the ascending order, everything at or before a load-band element is
    a load-band element. *)
Lemma before_load (q q' : nat) :
  q < length ss -> q' <= q -> solid !!! (ss !!! q) ∈ ld -> solid !!! (ss !!! q') ∈ ld.
Proof.
  intros Hq Hq' Hin.
  destruct (decide (q' = q)) as [->|Hne]; [exact Hin|].
  destruct (decide (solid !!! (ss !!! q') ∈ ld)) as [|Hnin]; [assumption|exfalso].
  pose proof (ss_perm argsort argsort_perm am x) as Hperm. fold solid ss in Hperm.
  destruct (Selection.sel_lookup solid ss Hperm q Hq) as (b & Hb & Hsb).
  destruct (Selection.sel_lookup solid ss Hperm q' ltac:(lia)) as (a & Ha & Hsa).
  pose proof (argsort_sorting (gather am solid) q' q a b ltac:(lia) Ha Hb) as Hsorted.
  rewrite !gather_solid in Hsorted by (eapply lookup_lt_Some; eassumption).
  rewrite (list_lookup_total_correct _ _ _ Ha) in Hnin, Hsa.
  rewrite (list_lookup_total_correct _ _ _ Hb) in Hin, Hsb.
  rewrite (Hsentinel _ Hin) in Hsorted.
  assert (Hlt : solid !!! a < N).
  { rewrite <- Hlenx. apply (lookup_lt_Some x _ true).
    apply ArrayFacts.argwhere_elem. apply list_elem_of_lookup. eauto. }
  pose proof (regular_above _ Hlt Hnin) as Habove.
  apply FloatFacts.np_lt_of_ltb in Habove. congruence.
Qed.

Lemma load_prefix (q : nat) :
  q < length ss -> solid !!! (ss !!! q) ∈ ld -> q + 1 <= length ld.
Proof.
  intros Hq Hin.
  pose proof (ss_perm argsort argsort_perm am x) as Hperm. fold solid ss in Hperm.
  set (L := (fun q' => solid !!! (ss !!! q')) <$> seq 0 (q + 1)).
  assert (HL : length L = q + 1) by (unfold L; rewrite length_fmap, length_seq; lia).
  rewrite <- HL. apply submseteq_length, NoDup_submseteq.
  - apply NoDup_fmap_2_strong; [|apply NoDup_seq].
    intros a b Ha Hb. apply elem_of_seq in Ha, Hb.
    apply (Selection.sel_inj solid ss Hperm (ArrayFacts.argwhere_NoDup x)); lia.
  - intros e He. apply list_elem_of_fmap in He. destruct He as (q' & -> & Hq').
    apply elem_of_seq in Hq'. apply (before_load q q'); [exact Hq|lia|exact Hin].
Qed.

(** The changing-volume phase takes from the high end and never reaches
    the load band. *)
Lemma removed_not_load (e : nat) : e ∈ removed argsort N am x -> e ∉ ld.
Proof.
  unfold removed. fold solid ss. intros He Hin.
  apply list_elem_of_fmap in He. destruct He as (i & -> & Hi).
  pose proof (reduce_passes_lt argsort argsort_perm N am x HN Hvol i Hi) as Hlt.
  fold solid ss in Hlt. apply elem_of_seq in Hi.
  pose proof (load_prefix (length ss - 1 - i) ltac:(lia) Hin) as Hpre.
  pose proof (reduce_passes_eq N x HN Hvol) as Hrp.
  pose proof (ss_length argsort argsort_perm am x) as Hss. fold solid ss in Hss.
  lia.
Qed.

Lemma pairs_snd_not_load (e : nat) : e ∈ (pairs argsort N am x).*2 -> e ∉ ld.
Proof.
  intros He Hin. pose proof (pairs_void argsort argsort_perm N am x HN Hvol e He) as Hv.
  rewrite (Hsolid e Hin) in Hv. discriminate Hv.
Qed.

(** A load-band candidate of the constant-volume phase breaks the loop. *)
Lemma pairs_fst_not_load (e : nat) : e ∈ (pairs argsort N am x).*1 -> e ∉ ld.
Proof.
  intros He Hin. apply list_elem_of_fmap in He. destruct He as ([es ev] & -> & Hp).
  cbn [fst] in Hin.
  assert (Hev : ev ∈ (pairs argsort N am x).*2).
  { apply list_elem_of_fmap. exists (es, ev). auto. }
  pose proof (pairs_snd_not_load ev Hev) as Hnin.
  pose proof (pairs_void argsort argsort_perm N am x HN Hvol ev Hev) as Hvoid.
  assert (Hlt : ev < N) by (rewrite <- Hlenx; eapply lookup_lt_Some; exact Hvoid).
  pose proof (regular_above ev Hlt Hnin) as Habove.
  unfold pairs, swapped in Hp. fold solid void ss sv in Hp.
  apply list_elem_of_fmap in Hp. destruct Hp as (i & Hc & Hi).
  destruct (swap_count_spec am solid ss void sv (reduce_passes N x)
              (seq 0 (swap_passes argsort N am x))) as (_ & Hall & _).
  rewrite Forall_forall in Hall. specialize (Hall i Hi).
  unfold halts_at in Hall. rewrite <- Hc in Hall. cbn [fst snd] in Hall.
  rewrite (Hsentinel es Hin) in Hall. congruence.
Qed.

End OneUpdate.

End LoadBand.

(** * Facts about the boundary-condition stage *)

Module Boundary.

Lemma select_length_le {A} (l : list A) (mask : list bool) :
  length (select l mask) <= length l.
Proof.
  revert mask. induction l as [|a l IH]; intros [|[] mask]; cbn; try lia.
  - specialize (IH mask). lia.
  - specialize (IH mask). lia.
Qed.

Lemma first_last_error (a : list nat) (e : error) :
  first_last a = Err e -> e = IndexError /\ a = [].
Proof.
  destruct a as [|n a]; intros H.
  - cbn in H. injection H as <-. auto.
  - exfalso. unfold first_last in H.
    change (index (n :: a) 0) with (Ok (A := nat) n) in H. cbn [bind] in H.
    destruct (index_from_end (n :: a) 0) as [l|e'] eqn:Hl; [discriminate H|].
    unfold index_from_end in Hl.
    destruct (decide (0 < length (n :: a))) as [_|Hn]; [|cbn in Hn; lia].
    unfold index in Hl.
    destruct ((n :: a) !! (length (n :: a) - 1 - 0)) eqn:Hlk; [discriminate Hl|].
    apply lookup_ge_None in Hlk. cbn in Hlk. lia.
Qed.

Lemma first_last_nil : first_last [] = Err IndexError.
Proof. reflexivity. Qed.

(** The stages of [boundary_conditions], read off a successful result. *)
Lemma boundary_conditions_inv (p : params) (su : setup) :
  boundary_conditions p = Ok su ->
  let Ny := p_Ny p in
  exists es,
    Ny <> 0 /\ es = (Ly / float_of_nat Ny)%float /\
    s_Ny su = Ny /\
    s_bc_mask su = band_mask (bc_ycoor Ny es) (bc_pos p) (bc_rad p) /\
    2 <= sum_bool (s_bc_mask su) /\
    s_ld_mask su = band_mask (ld_ycoor Ny es) (ld_pos p) (ld_rad p) /\
    s_ld_ele su = select (seq ((Nx_of Ny - 1) * Ny) Ny)
                    (zip_with orb (drop 1 (s_ld_mask su)) (removelast (s_ld_mask su))) /\
    s_ld_ele su <> [] /\
    s_ld_num su = sum_bool (s_ld_mask su) /\
    s_ld_ids su = select (seq (Nx_of Ny * (Ny + 1)) (Ny + 1)) (s_ld_mask su) /\
    s_fg su = load_vector (G_of Ny) (s_ld_num su) (s_ld_ids su).
Proof.
  unfold boundary_conditions, esize. intros H. cbv zeta in *.
  set (Ny := p_Ny p) in *.
  destruct (decide (Ny = 0)) as [|HNy]; [discriminate H|]. cbn [bind] in H.
  exists (Ly / float_of_nat Ny)%float.
  destruct (decide (sum_bool _ < 2)) as [|Hbc]; [discriminate H|].
  destruct (first_last (select (seq 0 (Ny + 1)) _)) as [bc_lim|]; [|discriminate H].
  cbn [bind] in H.
  destruct (first_last (select (seq ((Nx_of Ny - 1) * Ny) Ny) _)) as [ld_lim|] eqn:Hld;
    [|discriminate H].
  cbn [bind] in H. injection H as <-.
  cbn [s_Ny s_bc_mask s_ld_mask s_ld_ele s_ld_num s_ld_ids s_fg].
  repeat split; try reflexivity;
    [exact HNy | lia | intros Hnil; rewrite Hnil in Hld; discriminate Hld].
Qed.

(** The load-band elements lie in the last column; there are at most [Ny]
    of them, no more than the target volume. *)
Lemma ld_ele_facts (p : params) (su : setup) :
  boundary_conditions p = Ok su ->
  let N := N_of (s_Ny su) in
  2 <= N /\ NoDup (s_ld_ele su) /\ (forall e, e ∈ s_ld_ele su -> e < N) /\
  (Z.of_nat (length (s_ld_ele su)) <= Vt_of N)%Z.
Proof.
  intros H. destruct (boundary_conditions_inv p su H)
    as (es & HNy & _ & -> & _ & _ & _ & -> & _).
  set (Ny := p_Ny p) in *. cbn zeta.
  assert (HN : N_of Ny = (Nx_of Ny - 1) * Ny + Ny) by (unfold N_of, Nx_of; nia).
  split; [unfold N_of, Nx_of; nia|].
  split; [apply ArrayFacts.select_NoDup, NoDup_seq|].
  split.
  - intros e He. apply ArrayFacts.select_elem in He. destruct He as (i & Hi & _).
    apply lookup_seq in Hi. lia.
  - rewrite Caps.Vt_of_mesh.
    pose proof (select_length_le (seq ((Nx_of Ny - 1) * Ny) Ny)
                  (zip_with orb (drop 1 (s_ld_mask su)) (removelast (s_ld_mask su)))) as Hle.
    rewrite length_seq in Hle. nia.
Qed.

End Boundary.

(** * The momentum step *)

Module Momentum.

Lemma momentum_step_inv (ld : list nat) (am af am' : list float) :
  momentum_step ld am af = Ok am' ->
  length af = length am /\
  exists body, length body = length am /\ am' = assign ld neg_infinity body.
Proof.
  unfold momentum_step. intros H.
  destruct (decide (length af = length am)) as [Hlen|]; [|discriminate H].
  destruct (max_float (abs <$> af)) as [mf|]; [|discriminate H]. cbn [bind] in H.
  destruct (max_float _) as [mm|]; [|discriminate H]. cbn [bind] in H.
  injection H as <-. split; [exact Hlen|]. eexists. split; [|reflexivity].
  rewrite length_fmap, length_zip_with, ArrayFacts.assign_length. lia.
Qed.

Lemma momentum_step_length (ld : list nat) (am af am' : list float) :
  momentum_step ld am af = Ok am' -> length am' = length am.
Proof.
  intros H. destruct (momentum_step_inv ld am af am' H) as (_ & body & Hb & ->).
  rewrite ArrayFacts.assign_length. exact Hb.
Qed.

(** After the step every load-band entry is the sentinel. *)
Lemma momentum_step_sentinel (ld : list nat) (am af am' : list float) (e : nat) :
  momentum_step ld am af = Ok am' -> e ∈ ld -> e < length am ->
  am' !!! e = neg_infinity.
Proof.
  intros H He Hlt. destruct (momentum_step_inv ld am af am' H) as (_ & body & Hb & ->).
  apply list_lookup_total_correct, ArrayFacts.assign_lookup_eq; [exact He|lia].
Qed.

Lemma momentum_step_error (ld : list nat) (am af : list float) (e : error) :
  momentum_step ld am af = Err e -> e = ValueError.
Proof.
  unfold momentum_step, max_float. intros H.
  destruct (decide (length af = length am)); [|injection H as <-; reflexivity].
  destruct (abs <$> af); [injection H as <-; reflexivity|]. cbn [bind] in H.
  match type of H with context [match ?l with [] => _ | _ => _ end] => destruct l end;
    [injection H as <-; reflexivity|discriminate H].
Qed.

End Momentum.

(** * The load band along a run *)

(** The run as [run] makes it, checking that every sensitivity vector the
    momentum step produced was [regular]. *)
Fixpoint run_regular (argsort : list float -> list nat) (N : nat) (ld : list nat)
    (os : list oracle) (s : state) : bool :=
  match os with
  | [] => true
  | o :: os' =>
      if keep_going s then
        match iteration argsort N ld o s with
        | Ok s' => regular ld (alpha_m s') && run_regular argsort N ld os' s'
        | Err _ => true
        end
      else true
  end.

Lemma log_removed_elem (rm : list nat) (e : nat) (b : bool) :
  (e, b) ∈ log_removed rm -> e ∈ rm.
Proof.
  unfold log_removed. intros H. apply list_elem_of_fmap in H.
  destruct H as (e' & Heq & He'). injection Heq as -> _. exact He'.
Qed.

Lemma log_pairs_elem (ps : list (nat * nat)) (e : nat) (b : bool) :
  (e, b) ∈ log_pairs ps -> e ∈ ps.*1 \/ e ∈ ps.*2.
Proof.
  induction ps as [|[es ev] ps IH]; cbn [log_pairs fmap list_fmap fst snd]; intros H.
  - inversion H.
  - apply elem_of_cons in H. destruct H as [Heq|H].
    { injection Heq as -> _. left. left. }
    apply elem_of_cons in H. destruct H as [Heq|H].
    { injection Heq as -> _. right. left. }
    destruct (IH H) as [H1|H2]; [left|right]; right; assumption.
Qed.

Section LoadBandRun.

Variable argsort : list float -> list nat.
Hypothesis argsort_perm : forall v, argsort v ≡ₚ seq 0 (length v).
Hypothesis argsort_sorting : Argsort.sorting argsort.

Variable p : params.
Variable su : setup.
Hypothesis Hbc : boundary_conditions p = Ok su.

Let N := N_of (s_Ny su).
Let ld := s_ld_ele su.

Definition load_inv (s : state) : Prop :=
  volume_inv N s /\ length (alpha_m s) = N /\
  (forall e, e ∈ ld -> x s !! e = Some true) /\
  (forall e b, (e, b) ∈ factor s -> e ∉ ld) /\
  (0 < it s -> forall e, e ∈ ld -> alpha_m s !!! e = neg_infinity).

Lemma load_inv_init (leftover : option (list bool)) : load_inv (init_state N leftover).
Proof.
  destruct (Boundary.ld_ele_facts p su Hbc) as (HN & _ & Hlt & _). fold N ld in HN, Hlt.
  unfold load_inv. split; [apply volume_inv_init; exact HN|].
  unfold init_state. cbn [alpha_m x factor it].
  split; [apply length_replicate|].
  split; [intros e He; apply lookup_replicate_2, Hlt, He|].
  split; [intros e b H; inversion H|]. lia.
Qed.

Lemma load_inv_step (o : oracle) (s s' : state) :
  load_inv s -> iteration argsort N ld o s = Ok s' ->
  regular ld (alpha_m s') = true -> load_inv s'.
Proof.
  intros (Hvinv & Hlam & Hsolid & Hlog & _) Hit Hreg.
  destruct (Boundary.ld_ele_facts p su Hbc) as (HN & Hnd & Hlt & Hlen).
  fold N ld in HN, Hnd, Hlt, Hlen.
  pose proof (volume_inv_step argsort argsort_perm N ld HN o s s' Hvinv Hit) as Hvinv'.
  destruct (iteration_update argsort N ld o s s' Hit) as (Hmom & Hup & _ & Hit').
  destruct Hvinv as (Hv & Hge & Hlenx). rewrite Hv in Hge.
  pose proof (Momentum.momentum_step_length _ _ _ _ Hmom) as Hlam'.
  rewrite Hlam in Hlam'.
  assert (Hsent : forall e, e ∈ ld -> alpha_m s' !!! e = neg_infinity).
  { intros e He. eapply Momentum.momentum_step_sentinel; [exact Hmom|exact He|].
    rewrite Hlam. apply Hlt, He. }
  rewrite (update_topology_eq argsort argsort_perm N (alpha_m s') (x s) HN Hge
             (vol s) (factor s) Hv) in Hup.
  injection Hup as Hx' Hf'.
  pose proof (removed_not_load argsort argsort_perm argsort_sorting N ld HN Hlen
                (alpha_m s') (x s) Hge Hlenx Hlam' Hsent Hreg) as Hrm.
  pose proof (pairs_fst_not_load argsort argsort_perm N ld HN
                (alpha_m s') (x s) Hge Hlenx Hlam' Hsolid Hsent Hreg) as Hp1.
  pose proof (pairs_snd_not_load argsort argsort_perm N ld HN
                (alpha_m s') (x s) Hge Hsolid) as Hp2.
  unfold load_inv. split; [exact Hvinv'|]. split; [exact Hlam'|]. split; [|split].
  - intros e He. rewrite <- Hx'.
    rewrite Selection.apply_pairs_lookup_ne, ArrayFacts.assign_lookup_ne.
    + apply Hsolid, He.
    + intros Hin. exact (Hrm e Hin He).
    + intros Hin. exact (Hp1 e Hin He).
    + intros Hin. exact (Hp2 e Hin He).
  - intros e b. rewrite <- Hf', !elem_of_app. intros [H|[H|H]].
    + exact (Hlog e b H).
    + apply Hrm. eapply log_removed_elem. exact H.
    + destruct (log_pairs_elem _ _ _ H) as [H1|H2]; [apply Hp1|apply Hp2]; assumption.
  - intros _. exact Hsent.
Qed.

Lemma load_inv_run (os : list oracle) : forall s s',
  load_inv s -> run_regular argsort N ld os s = true ->
  run argsort N ld os s = Ok s' -> load_inv s'.
Proof.
  induction os as [|o os IH]; intros s s' Hinv Hreg Hrun;
    cbn [run run_regular] in Hrun, Hreg.
  - injection Hrun as <-. exact Hinv.
  - destruct (keep_going s); [|injection Hrun as <-; exact Hinv].
    destruct (iteration argsort N ld o s) as [s1|] eqn:Hit;
      [|cbn [bind] in Hrun; discriminate Hrun].
    cbn [bind] in Hrun. apply andb_prop in Hreg. destruct Hreg as [Hr1 Hr2].
    apply (IH s1 s'); [|exact Hr2|exact Hrun].
    eapply load_inv_step; eassumption.
Qed.

(** C8: along a run whose sensitivity vectors are regular outside the load
    band, every load-band element stays solid, no factor update (removal,
    or either member of a swap) is ever issued for a load-band element, and
    once an iteration has run every load-band entry of [alpha_m] is minus
    infinity, below which no entry of the vector lies. *)
Theorem load_band_stays_solid (os : list oracle) (leftover : option (list bool))
    (s : state) :
  run_regular argsort N ld os (init_state N leftover) = true ->
  run argsort N ld os (init_state N leftover) = Ok s ->
  (forall e, e ∈ ld -> x s !! e = Some true) /\
  (forall e b, (e, b) ∈ factor s -> e ∉ ld) /\
  (0 < it s ->
   forall e, e ∈ ld ->
     alpha_m s !!! e = neg_infinity /\
     forall j, ((alpha_m s !!! j) <? (alpha_m s !!! e))%float = false).
Proof.
  intros Hreg Hrun.
  destruct (load_inv_run os _ s (load_inv_init leftover) Hreg Hrun)
    as (_ & _ & Hsolid & Hlog & Hsent).
  split; [exact Hsolid|]. split; [exact Hlog|].
  intros Hit e He. rewrite (Hsent Hit e He). split; [reflexivity|].
  intros j. apply FloatFacts.ltb_neg_infinity.
Qed.

End LoadBandRun.

(** * The support band and the configuration error *)

(** y-coordinate of the node in row [j], and membership of a band. *)
Definition ynode (Ny j : nat) : float :=
  (Ly / float_of_nat Ny * float_of_nat j - 0.5 * Ly)%float.

Definition in_band (y pos rad : float) : bool :=
  (abs (y - pos * Ly) <? rad * Ly + small)%float.

(** The left-edge nodes inside the support band, and the right-edge nodes
    (by row) inside the load band. *)
Definition constrained_rows (p : params) : list nat :=
  filter (fun j => in_band (ynode (p_Ny p) j) (bc_pos p) (bc_rad p) = true)
         (seq 0 (p_Ny p + 1)).

Definition loaded_rows (p : params) : list nat :=
  filter (fun j => in_band (ynode (p_Ny p) j) (ld_pos p) (ld_rad p) = true)
         (seq 0 (p_Ny p + 1)).

Module Band.

Lemma sum_bool_fmap {A} (f : A -> bool) (l : list A) :
  sum_bool (f <$> l) = length (filter (fun a => f a = true) l).
Proof.
  induction l as [|a l IH]; [reflexivity|].
  cbn [fmap list_fmap sum_bool]. rewrite filter_cons.
  destruct (decide (f a = true)) as [Ht|Hf].
  - rewrite Ht. cbn [length]. lia.
  - destruct (f a); [congruence|]. cbn. exact IH.
Qed.

Lemma coor_snd (Ny : nat) (es : float) :
  (coor Ny es).*2 =
  (fun k => (es * float_of_nat (k mod (Ny + 1)) - 0.5 * Ly)%float)
    <$> seq 0 ((Nx_of Ny + 1) * (Ny + 1)).
Proof. unfold coor. rewrite <- list_fmap_compose. reflexivity. Qed.

Lemma bc_ycoor_rows (Ny : nat) :
  bc_ycoor Ny (Ly / float_of_nat Ny)%float = ynode Ny <$> seq 0 (Ny + 1).
Proof.
  unfold bc_ycoor. rewrite coor_snd, <- fmap_take, take_seq.
  replace ((Ny + 1) `min` ((Nx_of Ny + 1) * (Ny + 1))) with (Ny + 1) by nia.
  apply list_fmap_ext. intros i k Hk. apply lookup_seq in Hk. destruct Hk as [-> Hk].
  unfold ynode. rewrite Nat.mod_small by lia. reflexivity.
Qed.

Lemma ld_ycoor_rows (Ny : nat) :
  ld_ycoor Ny (Ly / float_of_nat Ny)%float = ynode Ny <$> seq 0 (Ny + 1).
Proof.
  unfold ld_ycoor. rewrite coor_snd, <- fmap_drop, drop_seq.
  replace ((Nx_of Ny + 1) * (Ny + 1) - Nx_of Ny * (Ny + 1)) with (Ny + 1) by nia.
  replace (seq (0 + Nx_of Ny * (Ny + 1)) (Ny + 1))
    with (Nat.add (Nx_of Ny * (Ny + 1)) <$> seq 0 (Ny + 1))
    by (rewrite fmap_add_seq; f_equal; lia).
  rewrite <- list_fmap_compose.
  apply list_fmap_ext. intros i k Hk. apply lookup_seq in Hk. destruct Hk as [-> Hk].
  unfold ynode. cbn [compose].
  replace ((Nx_of Ny * (Ny + 1) + (0 + i)) mod (Ny + 1)) with (0 + i); [reflexivity|].
  apply Nat.mod_unique with (q := Nx_of Ny); lia.
Qed.

Lemma bc_mask_rows (p : params) :
  sum_bool (band_mask (bc_ycoor (p_Ny p) (Ly / float_of_nat (p_Ny p))%float)
              (bc_pos p) (bc_rad p))
  = length (constrained_rows p).
Proof.
  rewrite bc_ycoor_rows. unfold band_mask, constrained_rows.
  rewrite <- list_fmap_compose. apply sum_bool_fmap.
Qed.

Lemma ld_mask_rows (p : params) :
  sum_bool (band_mask (ld_ycoor (p_Ny p) (Ly / float_of_nat (p_Ny p))%float)
              (ld_pos p) (ld_rad p))
  = length (loaded_rows p).
Proof.
  rewrite ld_ycoor_rows. unfold band_mask, loaded_rows.
  rewrite <- list_fmap_compose. apply sum_bool_fmap.
Qed.

Lemma boundary_insufficient (p : params) :
  p_Ny p <> 0 ->
  (boundary_conditions p = Err InsufficientConstraint <-> length (constrained_rows p) < 2).
Proof.
  intros HNy. rewrite <- bc_mask_rows. unfold boundary_conditions, esize.
  destruct (decide (p_Ny p = 0)) as [|_]; [contradiction|]. cbn [bind].
  destruct (decide (sum_bool _ < 2)) as [Hlt|Hge]; [tauto|].
  split; [|intros; contradiction]. intros H. exfalso.
  destruct (first_last (select (seq 0 (p_Ny p + 1)) _)) as [bc_lim|e] eqn:Hbl.
  - cbn [bind] in H.
    destruct (first_last (select (seq ((Nx_of (p_Ny p) - 1) * p_Ny p) (p_Ny p)) _))
      as [ld_lim|e] eqn:Hll; cbn [bind] in H; [discriminate H|].
    apply Boundary.first_last_error in Hll. destruct Hll as [-> _]. discriminate H.
  - cbn [bind] in H. apply Boundary.first_last_error in Hbl. destruct Hbl as [-> _].
    discriminate H.
Qed.

End Band.

(** * Errors of the optimisation loop *)

Module Errors.

Lemma index_error {A} (l : list A) (k : nat) (e : error) :
  index l k = Err e -> e = IndexError.
Proof. unfold index. destruct (l !! k); intros H; [discriminate H|congruence]. Qed.

Lemma index_from_end_error {A} (l : list A) (k : nat) (e : error) :
  index_from_end l k = Err e -> e = IndexError.
Proof.
  unfold index_from_end. destruct (decide (k < length l)); [apply index_error|congruence].
Qed.

Lemma reduce_volume_error (solid ss js : list nat) : forall x c f e,
  reduce_volume solid ss js x c f = Err e -> e = IndexError.
Proof.
  induction js as [|i js IH]; intros x c f e H; cbn [reduce_volume] in H; [discriminate H|].
  destruct (index_from_end ss i) as [k|e1] eqn:Hk; cbn [bind] in H;
    [|injection H as <-; eapply index_from_end_error; exact Hk].
  destruct (index solid k) as [es|e1] eqn:Hes; cbn [bind] in H;
    [|injection H as <-; eapply index_error; exact Hes].
  eapply IH. exact H.
Qed.

Lemma swap_pairs_error (am : list float) (solid ss void sv : list nat) (count : nat)
    (js : list nat) : forall x f e,
  swap_pairs am solid ss void sv count js x f = Err e -> e = IndexError.
Proof.
  induction js as [|i js IH]; intros x f e H; cbn [swap_pairs] in H; [discriminate H|].
  destruct (index_from_end ss (i + count)) as [k|e1] eqn:Hk; cbn [bind] in H;
    [|injection H as <-; eapply index_from_end_error; exact Hk].
  destruct (index solid k) as [es|e1] eqn:Hes; cbn [bind] in H;
    [|injection H as <-; eapply index_error; exact Hes].
  destruct (index sv i) as [kv|e1] eqn:Hkv; cbn [bind] in H;
    [|injection H as <-; eapply index_error; exact Hkv].
  destruct (index void kv) as [ev|e1] eqn:Hev; cbn [bind] in H;
    [|injection H as <-; eapply index_error; exact Hev].
  destruct (_ <? _)%float; [discriminate H|]. eapply IH. exact H.
Qed.

Section Loop.

Variable argsort : list float -> list nat.
Variable N : nat.
Variable ld : list nat.

Lemma iteration_error (o : oracle) (s : state) (e : error) :
  iteration argsort N ld o s = Err e -> e = ValueError \/ e = IndexError.
Proof.
  unfold iteration, update_topology. intros H.
  destruct (momentum_step ld (alpha_m s) (o_alpha_f o)) as [am|e1] eqn:Hm; cbn [bind] in H;
    [|injection H as <-; left; eapply Momentum.momentum_step_error; exact Hm].
  right.
  destruct (reduce_volume _ _ _ (x s) 0 (factor s)) as [[[x1 c] f1]|e1] eqn:Hr;
    cbn [bind] in H; [|injection H as <-; eapply reduce_volume_error; exact Hr].
  destruct (swap_pairs am _ _ _ _ c _ x1 f1) as [[x2 f2]|e1] eqn:Hs;
    cbn [bind] in H; [discriminate H|].
  injection H as <-. eapply swap_pairs_error. exact Hs.
Qed.

Lemma run_error (os : list oracle) : forall s e,
  run argsort N ld os s = Err e -> e = ValueError \/ e = IndexError.
Proof.
  induction os as [|o os IH]; intros s e H; cbn [run] in H; [discriminate H|].
  destruct (keep_going s); [|discriminate H].
  destruct (iteration argsort N ld o s) as [s1|e1] eqn:Hit; cbn [bind] in H.
  - eapply IH. exact H.
  - injection H as <-. eapply iteration_error. exact Hit.
Qed.

End Loop.

End Errors.

(** * Configuration errors of an instance *)

Section Configuration.

Variable argsort : list float -> list nat.

(** C5: for a mesh with at least one element row, the boundary-condition
    stage raises the insufficient-constraint error exactly when fewer than
    two left-edge nodes lie in the support band; the instance then ends with
    that error whatever the solver would have returned (no iteration is
    run), and an instance ends with that error in no other way. *)
Theorem insufficient_constraint_iff (p : params) (leftover : option (list bool))
    (os : list oracle) :
  0 < p_Ny p ->
  (boundary_conditions p = Err InsufficientConstraint
   <-> length (constrained_rows p) < 2) /\
  (run_instance argsort p leftover os = Err InsufficientConstraint
   <-> length (constrained_rows p) < 2).
Proof.
  intros HNy.
  pose proof (Band.boundary_insufficient p ltac:(lia)) as Hiff.
  split; [exact Hiff|]. rewrite <- Hiff. unfold run_instance.
  destruct (boundary_conditions p) as [su|e]; cbn [bind];
    [|split; intros H; injection H as ->; reflexivity].
  split; [|discriminate]. intros H. exfalso.
  destruct (run argsort (N_of (s_Ny su)) (s_ld_ele su) os
              (init_state (N_of (s_Ny su)) leftover)) as [s|e] eqn:Hrun; cbn [bind] in H.
  - destruct (keep_going s); [discriminate H|]. destruct (x_opt s); discriminate H.
  - injection H as ->. apply Errors.run_error in Hrun. destruct Hrun; discriminate.
Qed.

End Configuration.

(** * The empty load band *)

(** An instance whose load band holds no node of the right edge: the load
    is centred at [y = 2.0], outside the beam. *)
Definition unloaded_params : params :=
  Params 2 0%float 0.5%float 2%float 0.125%float.

(** C3, the degenerate case: with no right-edge node in the load band the
    branch [ld_num == 0] would leave the load vector at zero, but the stage
    does not reach it: [ld_ele] is empty and [ld_ele[0]] (line 285) raises
    IndexError. *)
Theorem empty_load_band_raises :
  length (constrained_rows unloaded_params) = 3 /\
  loaded_rows unloaded_params = [] /\
  load_vector (G_of 2) 0 [] = replicate (G_of 2) 0%float /\
  boundary_conditions unloaded_params = Err IndexError.
Proof. vm_compute. auto. Qed.

(** * A worked instance: two element rows, a point load at mid-height *)

Definition demo_params : params :=
  Params 2 0%float 0.5%float 0%float 0.125%float.

Definition demo_setup : setup :=
  {| s_Ny := 2;
     s_bc_mask := [true; true; true]; s_bc_ids := [0; 1; 2]; s_bc_lim := (0, 2);
     s_freeDofs := replicate 6 false ++ replicate 24 true;
     s_ld_mask := [false; true; false]; s_ld_ele := [6; 7]; s_ld_lim := (6, 7);
     s_ld_num := 1; s_ld_ids := [13];
     s_fg := <[27 := (-1)%float]> (replicate 30 0%float);
     s_fr := <[21 := (-1)%float]> (replicate 24 0%float) |}.

(** Kernel responses: equal sensitivities everywhere, compliance 3 or 2. *)
Definition demo_oracle : oracle := Oracle (replicate 8 (-1)%float) 3%float.
Definition demo_better : oracle := Oracle (replicate 8 (-1)%float) 2%float.

Definition demo_alpha_m : list float :=
  replicate 6 (-1)%float ++ [neg_infinity; neg_infinity].

(** The state after four passes (the volume has reached the target), after
    a fifth pass, and when the loop halts after twenty-four. *)
Definition demo_s4 : state :=
  {| x := [true; true; false; false; false; false; true; true];
     alpha_m := demo_alpha_m; vol := 4; obj_opt := 3%float;
     x_opt := Some [true; true; false; false; false; false; true; true];
     keep_going := true; waiting := 0; it := 4;
     factor := [(5, true); (4, true); (3, true); (2, true)] |}.

Definition demo_s5 : state :=
  {| x := [true; false; true; false; false; false; true; true];
     alpha_m := demo_alpha_m; vol := 4; obj_opt := 3%float;
     x_opt := Some [true; true; false; false; false; false; true; true];
     keep_going := true; waiting := 1; it := 5;
     factor := [(5, true); (4, true); (3, true); (2, true); (1, true); (2, false)] |}.

Definition demo_s5_better : state :=
  {| x := [true; false; true; false; false; false; true; true];
     alpha_m := demo_alpha_m; vol := 4; obj_opt := 2%float;
     x_opt := Some [true; false; true; false; false; false; true; true];
     keep_going := true; waiting := 0; it := 5;
     factor := [(5, true); (4, true); (3, true); (2, true); (1, true); (2, false)] |}.

Lemma demo_boundary : boundary_conditions demo_params = Ok demo_setup.
Proof. vm_compute. reflexivity. Defined.

Lemma demo_run4 :
  run insertion_argsort 8 [6; 7] (replicate 4 demo_oracle) (init_state 8 None)
  = Ok demo_s4.
Proof. vm_compute. reflexivity. Defined.

Lemma demo_pass5 : iteration insertion_argsort 8 [6; 7] demo_oracle demo_s4 = Ok demo_s5.
Proof. vm_compute. reflexivity. Defined.

Lemma demo_pass5_better :
  run insertion_argsort 8 [6; 7] [demo_better] demo_s4 = Ok demo_s5_better.
Proof. vm_compute. reflexivity. Defined.

Lemma convergence_controller_witness :
  run insertion_argsort 8 [6; 7] (replicate 4 demo_oracle) (init_state 8 None)
    = Ok demo_s4 /\
  keep_going demo_s4 = true /\
  iteration insertion_argsort 8 [6; 7] demo_oracle demo_s4 = Ok demo_s5 /\
  (keep_going demo_s5 = false <-> waiting demo_s5 = patience) /\
  (waiting demo_s4 < patience)%nat.
Proof.
  split; [exact demo_run4|]. split; [reflexivity|]. split; [exact demo_pass5|].
  destruct (convergence_controller insertion_argsort 8 [6; 7] (replicate 4 demo_oracle)
              None demo_s4 demo_s5 demo_oracle demo_run4 eq_refl demo_pass5)
    as (_ & Hiff & Hlt & _).
  split; [exact Hiff|exact Hlt].
Defined.

Lemma obj_opt_non_increasing_witness :
  Forall nonneg_obj (replicate 4 demo_oracle ++ [demo_better]) /\
  run insertion_argsort 8 [6; 7] (replicate 4 demo_oracle) (init_state 8 None)
    = Ok demo_s4 /\
  run insertion_argsort 8 [6; 7] [demo_better] demo_s4 = Ok demo_s5_better /\
  (obj_opt demo_s5_better <=? obj_opt demo_s4)%float = true.
Proof.
  assert (Hnn : Forall nonneg_obj (replicate 4 demo_oracle ++ [demo_better])).
  { repeat constructor. }
  split; [exact Hnn|]. split; [exact demo_run4|]. split; [exact demo_pass5_better|].
  destruct (obj_opt_non_increasing insertion_argsort 8 [6; 7] (replicate 4 demo_oracle)
              [demo_better] None demo_s4 demo_s5_better Hnn demo_run4 demo_pass5_better)
    as (_ & Hle & _).
  exact Hle.
Defined.

Definition demo_halt : state :=
  {| x := [true; true; false; false; false; false; true; true];
     alpha_m := demo_alpha_m; vol := 4; obj_opt := 3%float;
     x_opt := Some [true; true; false; false; false; false; true; true];
     keep_going := false; waiting := 20; it := 24;
     factor := [(5, true); (4, true); (3, true); (2, true)]
               ++ concat (replicate 10 [(1, true); (2, false); (2, true); (1, false)]) |}.

Lemma demo_run24 :
  run insertion_argsort 8 [6; 7] (replicate 24 demo_oracle) (init_state 8 None)
  = Ok demo_halt.
Proof. vm_compute. reflexivity. Defined.

Lemma best_defined_on_halt_witness :
  Forall finite_obj (replicate 24 demo_oracle) /\
  run insertion_argsort 8 [6; 7] (replicate 24 demo_oracle) (init_state 8 None)
    = Ok demo_halt /\
  keep_going demo_halt = false /\
  is_finite (obj_opt demo_halt) = true /\
  exists t, x_opt demo_halt = Some t /\ Z.of_nat (sum_bool t) = Vt_of 8.
Proof.
  assert (Hfin : Forall finite_obj (replicate 24 demo_oracle)).
  { apply Forall_replicate. reflexivity. }
  split; [exact Hfin|]. split; [exact demo_run24|]. split; [reflexivity|].
  exact (best_defined_on_halt insertion_argsort 8 [6; 7] (replicate 24 demo_oracle)
           None demo_halt Hfin demo_run24 (or_intror eq_refl)).
Defined.

Lemma flips_within_caps_witness :
  (forall v, insertion_argsort v ≡ₚ seq 0 (length v)) /\
  2 <= 8 /\
  run insertion_argsort 8 [6; 7] (replicate 4 demo_oracle) (init_state 8 None)
    = Ok demo_s4 /\
  update_topology insertion_argsort 8 demo_alpha_m (x demo_s4) (vol demo_s4)
    (factor demo_s4)
  = Ok (apply_pairs (pairs insertion_argsort 8 demo_alpha_m (x demo_s4))
          (assign (removed insertion_argsort 8 demo_alpha_m (x demo_s4)) false
             (x demo_s4)),
        factor demo_s4
        ++ log_removed (removed insertion_argsort 8 demo_alpha_m (x demo_s4))
        ++ log_pairs (pairs insertion_argsort 8 demo_alpha_m (x demo_s4))) /\
  (inject_Z (Z.of_nat (length (removed insertion_argsort 8 demo_alpha_m (x demo_s4))
                       + 2 * length (pairs insertion_argsort 8 demo_alpha_m (x demo_s4))))
   <= dXmax_of 8)%Q.
Proof.
  assert (H2 : 2 <= 8) by lia.
  split; [exact Argsort.insertion_argsort_perm|]. split; [exact H2|].
  split; [exact demo_run4|].
  destruct (flips_within_caps insertion_argsort Argsort.insertion_argsort_perm 8 [6; 7]
              H2 (replicate 4 demo_oracle) None demo_s4 demo_alpha_m demo_run4)
    as (Hup & _ & _ & _ & _ & _ & _ & _ & _ & _ & _ & _ & Hcap).
  split; [exact Hup|exact Hcap].
Defined.

Lemma demo_update5 :
  update_topology insertion_argsort 8 demo_alpha_m (x demo_s4) 4 (factor demo_s4)
  = Ok (x demo_s5, factor demo_s5).
Proof. vm_compute. reflexivity. Defined.

Lemma swap_only_when_solid_not_below_witness :
  update_topology insertion_argsort 8 demo_alpha_m (x demo_s4) 4 (factor demo_s4)
    = Ok (x demo_s5, factor demo_s5) /\
  exists (rm : list nat) (m : nat),
    let cand :=
      candidate (argwhere (x demo_s4))
        (insertion_argsort (gather demo_alpha_m (argwhere (x demo_s4))))
        (argwhere (negb <$> x demo_s4))
        (insertion_argsort (gather demo_alpha_m (argwhere (negb <$> x demo_s4))))
        (length rm) in
    factor demo_s5 = factor demo_s4 ++ log_removed rm ++ log_pairs (cand <$> seq 0 m) /\
    (forall i, i < m ->
       ((demo_alpha_m !!! (cand i).1) <? (demo_alpha_m !!! (cand i).2))%float = false).
Proof.
  split; [exact demo_update5|].
  destruct (swap_only_when_solid_not_below insertion_argsort 8 demo_alpha_m (x demo_s4)
              4 (factor demo_s4) (x demo_s5) (factor demo_s5) demo_update5)
    as (rm & m & Hf & _ & Hall & _).
  exists rm, m. split; [exact Hf|exact Hall].
Defined.

(** The specification's sentence fails on the fifth pass of the worked
    instance: element 1 (solid) and element 2 (void) carry the same
    sensitivity, the void entry does not exceed the solid one, and the pair
    is swapped. *)
Lemma swap_on_tie :
  iteration insertion_argsort 8 [6; 7] demo_oracle demo_s4 = Ok demo_s5 /\
  x demo_s4 !! 1 = Some true /\ x demo_s4 !! 2 = Some false /\
  factor demo_s5 = factor demo_s4 ++ [(1, true); (2, false)] /\
  x demo_s5 !! 1 = Some false /\ x demo_s5 !! 2 = Some true /\
  alpha_m demo_s5 !!! 1 = alpha_m demo_s5 !!! 2 /\
  ((alpha_m demo_s5 !!! 2%nat) <=? (alpha_m demo_s5 !!! 1%nat))%float = true /\
  ((alpha_m demo_s5 !!! 1%nat) <? (alpha_m demo_s5 !!! 2%nat))%float = false /\
  ~ swap_requires_void_above.
Proof.
  split; [exact demo_pass5|]. repeat (split; [reflexivity|]).
  intros H.
  specialize (H insertion_argsort 8 demo_alpha_m (x demo_s4) 4%Z (factor demo_s4)
                (x demo_s5) (factor demo_s5) demo_update5 1 2 [] [] eq_refl).
  vm_compute in H. discriminate H.
Qed.

Lemma demo_regular :
  run_regular insertion_argsort 8 [6; 7] (replicate 5 demo_oracle) (init_state 8 None)
  = true.
Proof. vm_compute. reflexivity. Defined.

Lemma demo_run5 :
  run insertion_argsort 8 [6; 7] (replicate 5 demo_oracle) (init_state 8 None)
  = Ok demo_s5.
Proof. vm_compute. reflexivity. Defined.

Lemma load_band_stays_solid_witness :
  (forall v, insertion_argsort v ≡ₚ seq 0 (length v)) /\
  Argsort.sorting insertion_argsort /\
  boundary_conditions demo_params = Ok demo_setup /\
  run_regular insertion_argsort 8 [6; 7] (replicate 5 demo_oracle) (init_state 8 None)
    = true /\
  run insertion_argsort 8 [6; 7] (replicate 5 demo_oracle) (init_state 8 None)
    = Ok demo_s5 /\
  (forall e, e ∈ [6; 7] -> x demo_s5 !! e = Some true) /\
  (forall e b, (e, b) ∈ factor demo_s5 -> e ∉ [6; 7]).
Proof.
  split; [exact Argsort.insertion_argsort_perm|].
  split; [exact Argsort.insertion_argsort_sorting|].
  split; [exact demo_boundary|]. split; [exact demo_regular|]. split; [exact demo_run5|].
  destruct (load_band_stays_solid insertion_argsort Argsort.insertion_argsort_perm
              Argsort.insertion_argsort_sorting demo_params demo_setup demo_boundary
              (replicate 5 demo_oracle) None demo_s5 demo_regular demo_run5)
    as (Hsolid & Hlog & _).
  split; [exact Hsolid|exact Hlog].
Defined.

(** The sentence of the specification, read literally: whatever the
    kernels return, every load-band element is solid at the end of a run and
    no factor update was issued for one. *)
Definition load_band_always_solid : Prop :=
  forall (argsort : list float -> list nat),
    (forall v, argsort v ≡ₚ seq 0 (length v)) -> Argsort.sorting argsort ->
    forall (p : params) (su : setup),
      boundary_conditions p = Ok su ->
      forall (os : list oracle) (leftover : option (list bool)) (s : state),
        run argsort (N_of (s_Ny su)) (s_ld_ele su) os
          (init_state (N_of (s_Ny su)) leftover) = Ok s ->
        (forall e, e ∈ s_ld_ele su -> x s !! e = Some true) /\
        (forall e b, (e, b) ∈ factor s -> e ∉ s_ld_ele su).

(** The mesh of two elements, held and loaded over its whole height, with
    filtered sensitivities that vanish. *)
Definition tiny_params : params := Params 1 0%float 0.5%float 0%float 0.5%float.

Definition tiny_setup : setup :=
  Eval vm_compute in
    match boundary_conditions tiny_params with
    | Ok su => su
    | Err _ => demo_setup
    end.

Definition zero_oracle : oracle := Oracle [0; 0]%float 1%float.

(** It fails when the sensitivities are not numbers.  On the two-element
    mesh element 1 is the load band.  With [alpha_f = [0, 0]] the momentum
    step divides zero by zero: [alpha_m = [nan, -inf]].  The first pass
    removes element 0; in the second the pair (solid 1, void 0) is tested
    with [-inf < nan], which is false, and the load element is swapped
    out. *)
Lemma load_element_swapped_out :
  boundary_conditions tiny_params = Ok tiny_setup /\
  s_Ny tiny_setup = 1 /\ s_ld_ele tiny_setup = [1] /\
  momentum_step [1] (replicate 2 0%float) (o_alpha_f zero_oracle)
    = Ok [nan; neg_infinity] /\
  (neg_infinity <? nan)%float = false /\
  (exists s,
     run insertion_argsort 2 [1] [zero_oracle; zero_oracle] (init_state 2 None) = Ok s /\
     x s = [true; false] /\
     factor s = [(0, true); (1, true); (0, false)]) /\
  ~ load_band_always_solid.
Proof.
  split; [vm_compute; reflexivity|]. split; [reflexivity|]. split; [reflexivity|].
  split; [vm_compute; reflexivity|]. split; [reflexivity|].
  split.
  { eexists. split; [vm_compute; reflexivity|]. split; reflexivity. }
  intros H.
  destruct (H insertion_argsort Argsort.insertion_argsort_perm
              Argsort.insertion_argsort_sorting tiny_params tiny_setup
              ltac:(vm_compute; reflexivity) [zero_oracle; zero_oracle] None
              {| x := [true; false]; alpha_m := [nan; neg_infinity]; vol := 1;
                 obj_opt := 1; x_opt := Some [false; true]; keep_going := true;
                 waiting := 1; it := 2;
                 factor := [(0, true); (1, true); (0, false)] |}
              ltac:(vm_compute; reflexivity)) as [Hsolid _].
  specialize (Hsolid 1 ltac:(left)). discriminate Hsolid.
Qed.

(** A support band that holds a single node. *)
Definition narrow_params : params :=
  Params 4 0%float 0.1%float 0%float 0.5%float.

Lemma insufficient_constraint_iff_witness :
  0 < p_Ny narrow_params /\
  constrained_rows narrow_params = [2] /\
  boundary_conditions narrow_params = Err InsufficientConstraint /\
  run_instance insertion_argsort narrow_params None [demo_oracle]
    = Err InsufficientConstraint.
Proof.
  assert (H0 : 0 < p_Ny narrow_params) by (cbn; lia).
  assert (Hrows : constrained_rows narrow_params = [2]) by (vm_compute; reflexivity).
  split; [exact H0|]. split; [exact Hrows|].
  destruct (insufficient_constraint_iff insertion_argsort narrow_params None
              [demo_oracle] H0) as [[_ Hbc] [_ Hrun]].
  assert (Hlt : length (constrained_rows narrow_params) < 2)
    by (rewrite Hrows; cbn; lia).
  split; [exact (Hbc Hlt)|exact (Hrun Hlt)].
Defined.

(** * The load vector *)

Module Loads.

Definition odd_dof (i : nat) : nat := 2 * i + 1.

Lemma odd_dof_elem (i : nat) (ids : list nat) : odd_dof i ∈ odd_dof <$> ids <-> i ∈ ids.
Proof.
  split.
  - intros H. apply list_elem_of_fmap in H. destruct H as (j & Hj & Hin).
    unfold odd_dof in Hj. replace i with j by lia. exact Hin.
  - intros H. apply list_elem_of_fmap. eauto.
Qed.

(** The weights written by the load-vector code for the loaded nodes [ids]
    (in ascending order): a single node carries [-1]; otherwise the two end
    nodes carry half of [ld_val = -1/(n-1)] and the nodes between carry
    [ld_val]; every other entry is zero. *)
Lemma load_vector_weights (G : nat) (ids : list nat) :
  NoDup ids -> (forall i, i ∈ ids -> 2 * i + 1 < G) ->
  let n := length ids in
  let fg := load_vector G n ids in
  let ld_val := ((-1) / float_of_nat (n - 1))%float in
  length fg = G /\
  (forall k i, ids !! k = Some i ->
     fg !! (2 * i + 1)
     = Some (if decide (n = 1) then (-1)%float
             else if decide (k = 0 \/ k = n - 1) then (0.5 * ld_val)%float
                  else ld_val)) /\
  (forall d, d < G -> (forall i, i ∈ ids -> d <> 2 * i + 1) ->
     fg !! d = Some 0%float).
Proof.
  intros Hnd Hlt n fg ld_val. unfold fg, load_vector.
  change (fun i => 2 * i + 1) with odd_dof.
  destruct (decide (n = 0)) as [Hn0|Hn0].
  { destruct ids; [|discriminate Hn0]. rewrite length_replicate.
    split; [reflexivity|]. split; [intros k i H; discriminate H|].
    intros d Hd _. apply lookup_replicate_2. exact Hd. }
  destruct (decide (n = 1)) as [Hn1|Hn1].
  { rewrite ArrayFacts.assign_length, length_replicate. split; [reflexivity|]. split.
    - intros k i Hk. apply ArrayFacts.assign_lookup_eq.
      + apply odd_dof_elem, list_elem_of_lookup. eauto.
      + rewrite length_replicate. apply Hlt, list_elem_of_lookup. eauto.
    - intros d Hd Hne. rewrite ArrayFacts.assign_lookup_ne.
      + apply lookup_replicate_2. exact Hd.
      + intros Hin. apply list_elem_of_fmap in Hin. destruct Hin as (i & -> & Hi).
        exact (Hne i Hi eq_refl). }
  destruct ids as [|a t]; [contradiction|].
  destruct (exists_last (l := t)) as (mid & b & ->).
  { intros ->. apply Hn1. reflexivity. }
  assert (Hn : n = S (S (length mid))).
  { unfold n. cbn [length]. rewrite length_app. cbn. lia. }
  cbn [tail]. rewrite removelast_last.
  replace (take 1 (a :: mid ++ [b])) with [a] by reflexivity.
  replace (drop (length (a :: mid ++ [b]) - 1) (a :: mid ++ [b])) with [b].
  2:{ cbn [length]. rewrite length_app. cbn [length].
      replace (S (length mid + 1) - 1) with (S (length mid)) by lia.
      cbn [drop]. rewrite drop_app_length. reflexivity. }
  apply NoDup_cons in Hnd. destruct Hnd as [Ha Hnd].
  apply NoDup_app in Hnd. destruct Hnd as (Hmid & Hmb & _).
  rewrite !ArrayFacts.assign_length, length_replicate. split; [reflexivity|].
  assert (Hends : forall i, i ∈ mid -> odd_dof i ∉ odd_dof <$> ([a] ++ [b])).
  { intros i Hi Hin. apply (proj1 (odd_dof_elem _ _)) in Hin.
    apply elem_of_app in Hin. destruct Hin as [Hin|Hin]; apply list_elem_of_singleton in Hin.
    - subst i. apply Ha. apply elem_of_app. left. exact Hi.
    - subst i. apply (Hmb b Hi). left. }
  split.
  - intros k i Hk.
    assert (Hi : i ∈ a :: mid ++ [b]) by (apply list_elem_of_lookup; eauto).
    destruct (decide (k = 0 \/ k = n - 1)) as [Hend|Hmidk].
    + apply ArrayFacts.assign_lookup_eq.
      * apply odd_dof_elem. destruct Hend as [->| ->].
        -- cbn in Hk. injection Hk as <-. left.
        -- rewrite Hn in Hk.
           replace (S (S (length mid)) - 1) with (S (length mid)) in Hk by lia.
           change ((mid ++ [b]) !! length mid = Some i) in Hk.
           rewrite lookup_app_r in Hk by lia. rewrite Nat.sub_diag in Hk.
           injection Hk as <-. right. left.
      * rewrite ArrayFacts.assign_length, length_replicate. apply Hlt, Hi.
    + assert (Him : i ∈ mid).
      { destruct k as [|k]; [tauto|].
        change ((mid ++ [b]) !! k = Some i) in Hk.
        assert (Hkm : k < length mid).
        { apply lookup_lt_Some in Hk. rewrite length_app in Hk. cbn in Hk. lia. }
        rewrite lookup_app_l in Hk by exact Hkm. apply list_elem_of_lookup. eauto. }
      rewrite ArrayFacts.assign_lookup_ne by (apply Hends, Him).
      apply ArrayFacts.assign_lookup_eq.
      * apply odd_dof_elem, Him.
      * rewrite length_replicate. apply Hlt, Hi.
  - intros d Hd Hne.
    rewrite !ArrayFacts.assign_lookup_ne.
    + apply lookup_replicate_2. exact Hd.
    + intros Hin. apply list_elem_of_fmap in Hin. destruct Hin as (i & -> & Hi).
      apply (Hne i); [|reflexivity]. right. apply elem_of_app. left. exact Hi.
    + intros Hin. apply list_elem_of_fmap in Hin. destruct Hin as (i & -> & Hi).
      apply (Hne i); [|reflexivity].
      apply elem_of_app in Hi. destruct Hi as [Hi|Hi]; apply list_elem_of_singleton in Hi;
        subst i; [left|right; apply elem_of_app; right; left].
Qed.

Lemma select_fmap {A B} (g : A -> B) (f : A -> bool) (l : list A) :
  select (g <$> l) (f <$> l) = g <$> filter (fun a => f a = true) l.
Proof.
  induction l as [|a l IH]; [reflexivity|].
  cbn [fmap list_fmap select]. rewrite filter_cons.
  destruct (decide (f a = true)) as [Ht|Hf].
  - rewrite Ht. cbn [fmap list_fmap]. f_equal. exact IH.
  - destruct (f a); [congruence|]. exact IH.
Qed.

(** An entry kept by a mask sits at the number of kept entries before it. *)
Lemma select_lookup {A} (l : list A) (mask : list bool) (d : nat) :
  mask !! d = Some true -> select l mask !! sum_bool (take d mask) = l !! d.
Proof.
  revert mask d. induction l as [|a l IH]; intros [|m mask] [|d] Hd;
    try discriminate Hd; try reflexivity.
  - cbn in Hd. injection Hd as ->. reflexivity.
  - change ((m :: mask) !! S d) with (mask !! d) in Hd.
    cbn [select take sum_bool]. destruct m; cbn [Nat.add]; apply (IH mask d Hd).
Qed.

(** The weight of the [k]-th of [n] loaded nodes. *)
Definition weight (n k : nat) : float :=
  if decide (n = 1) then (-1)%float
  else if decide (k = 0 \/ k = n - 1)
       then (0.5 * ((-1) / float_of_nat (n - 1)))%float
       else ((-1) / float_of_nat (n - 1))%float.

(** The load vector of a successful boundary-condition stage: the [k]-th
    right-edge node of the load band (row [j]) carries [weight n k] on its
    vertical degree of freedom, every other entry is zero, and the reduced
    vector keeps the entries of the free degrees of freedom. *)
Lemma boundary_load_weights (p : params) (su : setup) :
  boundary_conditions p = Ok su ->
  let Ny := p_Ny p in
  let base := Nx_of Ny * (Ny + 1) in
  let n := length (loaded_rows p) in
  s_ld_num su = n /\
  s_ld_ids su = Nat.add base <$> loaded_rows p /\
  length (s_fg su) = G_of Ny /\
  (forall k j, loaded_rows p !! k = Some j ->
     s_fg su !! (2 * (base + j) + 1) = Some (weight n k)) /\
  (forall d, d < G_of Ny -> (forall j, j ∈ loaded_rows p -> d <> 2 * (base + j) + 1) ->
     s_fg su !! d = Some 0%float).
Proof.
  intros H Ny base n.
  destruct (Boundary.boundary_conditions_inv p su H)
    as (es & HNy & -> & _ & _ & _ & Hmask & _ & _ & Hnum & Hids & Hfg).
  fold Ny in Hmask, Hids, Hfg, HNy.
  assert (Hn : s_ld_num su = n).
  { rewrite Hnum, Hmask. apply Band.ld_mask_rows. }
  assert (Hids' : s_ld_ids su = Nat.add base <$> loaded_rows p).
  { rewrite Hids, Hmask, Band.ld_ycoor_rows. unfold band_mask.
    rewrite <- list_fmap_compose. fold base.
    replace (seq base (Ny + 1)) with (Nat.add base <$> seq 0 (Ny + 1))
      by (rewrite fmap_add_seq; f_equal; lia).
    apply select_fmap. }
  assert (Hlen : length (s_ld_ids su) = n) by (rewrite Hids', length_fmap; reflexivity).
  assert (Hnd : NoDup (s_ld_ids su)).
  { rewrite Hids'. apply NoDup_fmap_2; [intros a b; lia|].
    apply NoDup_filter, NoDup_seq. }
  assert (Hlt : forall i, i ∈ s_ld_ids su -> 2 * i + 1 < G_of Ny).
  { intros i Hi. rewrite Hids' in Hi. apply list_elem_of_fmap in Hi.
    destruct Hi as (j & -> & Hj). apply list_elem_of_filter in Hj. destruct Hj as [_ Hj].
    apply elem_of_seq in Hj. unfold G_of, base. nia. }
  destruct (load_vector_weights (G_of Ny) (s_ld_ids su) Hnd Hlt) as (HG & Hw & Hz).
  rewrite Hlen, <- Hn, <- Hfg in HG, Hw, Hz.
  split; [exact Hn|]. split; [exact Hids'|]. split; [exact HG|]. split.
  - intros k j Hk. rewrite (Hw k (base + j)).
    + rewrite Hn. reflexivity.
    + rewrite Hids', list_lookup_fmap, Hk. reflexivity.
  - intros d Hd Hne. apply Hz; [exact Hd|]. intros i Hi ->.
    rewrite Hids' in Hi. apply list_elem_of_fmap in Hi. destruct Hi as (j & -> & Hj).
    exact (Hne j Hj eq_refl).
Qed.

Lemma boundary_conditions_dofs (p : params) (su : setup) :
  boundary_conditions p = Ok su ->
  let Ny := p_Ny p in
  s_bc_ids su = select (seq 0 (Ny + 1)) (s_bc_mask su) /\
  s_freeDofs su
  = assign (fmap (fun i => 2 * i) (s_bc_ids su)
            ++ fmap (fun i => 2 * i + 1) (s_bc_ids su))
      false (replicate (G_of Ny) true) /\
  s_fr su = select (s_fg su) (s_freeDofs su).
Proof.
  unfold boundary_conditions, esize. intros H. cbv zeta in *.
  set (Ny := p_Ny p) in *.
  destruct (decide (Ny = 0)) as [|HNy]; [discriminate H|]. cbn [bind] in H.
  destruct (decide (sum_bool _ < 2)) as [|Hbc]; [discriminate H|].
  destruct (first_last (select (seq 0 (Ny + 1)) _)) as [bc_lim|]; [|discriminate H].
  cbn [bind] in H.
  destruct (first_last (select (seq ((Nx_of Ny - 1) * Ny) Ny) _)) as [ld_lim|];
    [|discriminate H].
  cbn [bind] in H. injection H as <-.
  cbn [s_bc_ids s_bc_mask s_freeDofs s_fr s_fg]. auto.
Qed.

(** The degrees of freedom of the right edge are free, and the reduced load
    vector carries their weights at their reduced positions. *)
Lemma reduced_load_weights (p : params) (su : setup) (k j : nat) :
  boundary_conditions p = Ok su ->
  loaded_rows p !! k = Some j ->
  let Ny := p_Ny p in
  let d := 2 * (Nx_of Ny * (Ny + 1) + j) + 1 in
  s_freeDofs su !! d = Some true /\
  s_fr su !! sum_bool (take d (s_freeDofs su))
  = Some (weight (length (loaded_rows p)) k).
Proof.
  intros H Hk Ny d.
  destruct (Boundary.boundary_conditions_inv p su H) as (es & HNy & _).
  destruct (boundary_conditions_dofs p su H) as (Hids & Hfree & Hfr).
  destruct (boundary_load_weights p su H) as (_ & _ & _ & Hw & _).
  fold Ny in HNy, Hids, Hfree.
  assert (Hj : j < Ny + 1).
  { assert (Hin : j ∈ loaded_rows p) by (apply list_elem_of_lookup; eauto).
    apply list_elem_of_filter in Hin. destruct Hin as [_ Hin].
    apply elem_of_seq in Hin. fold Ny in Hin. lia. }
  assert (Hd : s_freeDofs su !! d = Some true).
  { rewrite Hfree, ArrayFacts.assign_lookup_ne.
    - apply lookup_replicate_2. unfold d, G_of, Nx_of. nia.
    - intros Hin.
      assert (Hsmall : exists i, i ∈ s_bc_ids su /\ (d = 2 * i \/ d = 2 * i + 1)).
      { apply elem_of_app in Hin. destruct Hin as [Hin|Hin];
          apply list_elem_of_fmap in Hin; destruct Hin as (i & -> & Hi); eauto. }
      destruct Hsmall as (i & Hi & Hdi).
      rewrite Hids in Hi. apply ArrayFacts.select_elem in Hi.
      destruct Hi as (q & Hq & _). apply lookup_seq in Hq.
      unfold d, Nx_of in Hdi. nia. }
  split; [exact Hd|].
  rewrite Hfr, (select_lookup _ _ _ Hd). apply (Hw k j Hk).
Qed.

End Loads.

(** * The factor updates follow the topology *)

(** Replaying the issued updates on a topology: [(e, true)] (subtract)
    clears element [e], [(e, false)] (add) sets it. *)
Definition replay (log : factor_log) (x : list bool) : list bool :=
  fold_left (fun x u => <[u.1 := negb u.2]> x) log x.

(** Every update is a real flip: a subtraction is issued for an element
    that is solid at that moment, an addition for one that is void. *)
Fixpoint genuine (log : factor_log) (x : list bool) : Prop :=
  match log with
  | [] => True
  | u :: log' => x !! u.1 = Some u.2 /\ genuine log' (<[u.1 := negb u.2]> x)
  end.

Module Bookkeeping.

Lemma replay_app (l1 l2 : factor_log) (x : list bool) :
  replay (l1 ++ l2) x = replay l2 (replay l1 x).
Proof. unfold replay. apply fold_left_app. Qed.

Lemma genuine_app (l1 l2 : factor_log) : forall x,
  genuine (l1 ++ l2) x <-> genuine l1 x /\ genuine l2 (replay l1 x).
Proof.
  induction l1 as [|u l1 IH]; intros x; cbn [app genuine].
  - cbn. tauto.
  - rewrite IH. cbn. tauto.
Qed.

Lemma replay_removed (rm : list nat) : forall x,
  replay (log_removed rm) x = assign rm false x.
Proof.
  induction rm as [|e rm IH]; intros x; [reflexivity|].
  rewrite ArrayFacts.assign_cons, <- IH. reflexivity.
Qed.

Lemma replay_pairs (ps : list (nat * nat)) : forall x,
  replay (log_pairs ps) x = apply_pairs ps x.
Proof.
  induction ps as [|[es ev] ps IH]; intros x; [reflexivity|].
  rewrite apply_pairs_cons, <- IH. reflexivity.
Qed.

Lemma genuine_removed (rm : list nat) : forall x,
  NoDup rm -> (forall e, e ∈ rm -> x !! e = Some true) -> genuine (log_removed rm) x.
Proof.
  induction rm as [|e rm IH]; intros x Hnd Hall; [exact I|].
  apply NoDup_cons in Hnd. destruct Hnd as [He Hnd].
  cbn [log_removed fmap list_fmap genuine fst snd negb].
  split; [apply Hall; left|]. apply IH; [exact Hnd|].
  intros e' He'. rewrite list_lookup_insert_ne by (intros ->; contradiction).
  apply Hall. right. exact He'.
Qed.

Lemma genuine_pairs (ps : list (nat * nat)) : forall x,
  NoDup ps.*1 -> NoDup ps.*2 ->
  (forall e, e ∈ ps.*1 -> x !! e = Some true) ->
  (forall e, e ∈ ps.*2 -> x !! e = Some false) ->
  genuine (log_pairs ps) x.
Proof.
  induction ps as [|[es ev] ps IH]; intros x Hn1 Hn2 H1 H2; [exact I|].
  cbn [fmap list_fmap fst snd] in *.
  apply NoDup_cons in Hn1, Hn2. destruct Hn1 as [Hes Hn1], Hn2 as [Hev Hn2].
  pose proof (H1 es ltac:(left)) as Hxes. pose proof (H2 ev ltac:(left)) as Hxev.
  assert (Hne : es <> ev) by congruence.
  cbn [log_pairs genuine fst snd negb].
  split; [exact Hxes|]. split; [rewrite list_lookup_insert_ne by exact Hne; exact Hxev|].
  apply IH; [exact Hn1|exact Hn2| |].
  - intros e He. pose proof (H1 e ltac:(right; exact He)) as Hxe.
    rewrite !list_lookup_insert_ne; [exact Hxe|congruence|congruence].
  - intros e He. pose proof (H2 e ltac:(right; exact He)) as Hxe.
    rewrite !list_lookup_insert_ne; [exact Hxe|congruence|congruence].
Qed.

Section Run.

Variable argsort : list float -> list nat.
Hypothesis argsort_perm : forall v, argsort v ≡ₚ seq 0 (length v).
Variable N : nat.
Variable ld_ele : list nat.
Hypothesis HN : 2 <= N.

Definition tracks (s : state) : Prop :=
  volume_inv N s /\
  replay (factor s) (replicate N true) = x s /\ genuine (factor s) (replicate N true).

Lemma tracks_step (o : oracle) (s s' : state) :
  tracks s -> iteration argsort N ld_ele o s = Ok s' -> tracks s'.
Proof.
  intros (Hvinv & Hrep & Hgen) Hit.
  pose proof (volume_inv_step argsort argsort_perm N ld_ele HN o s s' Hvinv Hit) as Hvinv'.
  destruct (iteration_update argsort N ld_ele o s s' Hit) as (_ & Hup & _).
  destruct Hvinv as (Hv & Hge & Hlenx). rewrite Hv in Hge.
  rewrite (update_topology_eq argsort argsort_perm N (alpha_m s') (x s) HN Hge
             (vol s) (factor s) Hv) in Hup.
  injection Hup as Hx' Hf'.
  pose proof (removed_pairs_NoDup argsort argsort_perm N (alpha_m s') (x s) HN Hge) as Hnd.
  pose proof (removed_pairs_solid argsort argsort_perm N (alpha_m s') (x s) HN Hge) as Hsol.
  pose proof (pairs_void argsort argsort_perm N (alpha_m s') (x s) HN Hge) as Hvoid.
  pose proof (pairs_snd_NoDup argsort argsort_perm N (alpha_m s') (x s) HN Hge) as Hnd2.
  apply NoDup_app in Hnd. destruct Hnd as (Hnd_rm & Hdisj & Hnd_ps).
  split; [exact Hvinv'|].
  rewrite <- Hf', <- Hx'. split.
  - rewrite !replay_app, Hrep, replay_removed, replay_pairs. reflexivity.
  - apply genuine_app. split; [exact Hgen|]. rewrite Hrep.
    apply genuine_app. split.
    + apply genuine_removed; [exact Hnd_rm|].
      intros e He. apply Hsol, elem_of_app. left. exact He.
    + rewrite replay_removed. apply genuine_pairs; [exact Hnd_ps|exact Hnd2| |].
      * intros e He. rewrite ArrayFacts.assign_lookup_ne.
        -- apply Hsol, elem_of_app. right. exact He.
        -- intros Hin. exact (Hdisj e Hin He).
      * intros e He. rewrite ArrayFacts.assign_lookup_ne; [apply Hvoid, He|].
        intros Hin.
        pose proof (Hsol e ltac:(apply elem_of_app; left; exact Hin)) as Ht.
        rewrite (Hvoid e He) in Ht. discriminate Ht.
Qed.

(** In every state of a run the topology is the all-solid topology with
    the issued factor updates replayed on it, and each update was a real
    flip: the updates the factor has received are those of the elements
    that changed state, one subtraction per removal and one addition per
    insertion. *)
Lemma factor_tracks_topology (os : list oracle) (leftover : option (list bool))
    (s : state) :
  run argsort N ld_ele os (init_state N leftover) = Ok s ->
  replay (factor s) (replicate N true) = x s /\ genuine (factor s) (replicate N true).
Proof.
  intros Hrun.
  assert (Ht : tracks s).
  { apply (run_invariant argsort N ld_ele (fun _ => True) tracks) with (os := os)
      (s := init_state N leftover); [| | |exact Hrun].
    - intros o s0 s1 _ Ht _. apply tracks_step. exact Ht.
    - apply Forall_forall. intros; exact I.
    - split; [apply volume_inv_init; exact HN|]. split; [reflexivity|exact I]. }
  exact (proj2 Ht).
Qed.

End Run.

End Bookkeeping.

(** * Re-running an instance *)

(** Two states that differ at most in the variable [x_opt], and there only
    while no best has been recorded in this instance. *)
Definition forget (s : state) : state :=
  {| x := x s; alpha_m := alpha_m s; vol := vol s; obj_opt := obj_opt s;
     x_opt := None; keep_going := keep_going s; waiting := waiting s;
     it := it s; factor := factor s |}.

Definition same_but_leftover (s1 s2 : state) : Prop :=
  forget s1 = forget s2 /\
  (x_opt s1 = x_opt s2 \/ (obj_opt s1 = infinity /\ keep_going s1 = true)).

Definition same_outcome (r1 r2 : result state) : Prop :=
  match r1, r2 with
  | Ok s1, Ok s2 => same_but_leftover s1 s2
  | Err e1, Err e2 => e1 = e2
  | _, _ => False
  end.

(** Kernels whose compliance is always a finite number. *)
Definition finite_compliance (k : kernels) : Prop :=
  forall su x f, is_finite (k_compliance k su x f) = true.

Section Rerun.

Variable argsort : list float -> list nat.
Variable k : kernels.
Hypothesis Hfinite : finite_compliance k.

Lemma forget_fields (s1 s2 : state) :
  forget s1 = forget s2 ->
  x s1 = x s2 /\ alpha_m s1 = alpha_m s2 /\ vol s1 = vol s2 /\
  obj_opt s1 = obj_opt s2 /\ keep_going s1 = keep_going s2 /\
  waiting s1 = waiting s2 /\ it s1 = it s2 /\ factor s1 = factor s2.
Proof. unfold forget. intros H. injection H. intros. repeat split; assumption. Qed.

Lemma observe_forget (su : setup) (s1 s2 : state) :
  forget s1 = forget s2 -> observe argsort k su s1 = observe argsort k su s2.
Proof.
  intros H. apply forget_fields in H.
  destruct H as (Hx & Ham & Hv & _ & _ & _ & _ & Hf).
  unfold observe. rewrite Hx, Ham, Hv, Hf. reflexivity.
Qed.

Lemma observe_finite (su : setup) (s s' : state) :
  iteration argsort (N_of (s_Ny su)) (s_ld_ele su) (observe argsort k su s) s = Ok s' ->
  is_finite (o_obj (observe argsort k su s)) = true.
Proof.
  unfold iteration, observe. cbn [o_alpha_f o_obj].
  destruct (momentum_step _ _ _) as [am|e]; cbn [bind]; [|discriminate].
  destruct (update_topology _ _ _ _ _ _) as [[x' f']|e]; cbn [bind]; [|discriminate].
  intros _. apply Hfinite.
Qed.

Lemma iteration_same (N : nat) (ld : list nat) (o : oracle) (s1 s2 : state) :
  is_finite (o_obj o) = true \/ (forall s', iteration argsort N ld o s1 <> Ok s') ->
  same_but_leftover s1 s2 ->
  same_outcome (iteration argsort N ld o s1) (iteration argsort N ld o s2).
Proof.
  intros Hfin [Hforget Hbest].
  apply forget_fields in Hforget.
  destruct Hforget as (Hx & Ham & Hv & Hobj & Hkg & Hw & Hit & Hf).
  unfold iteration in *. rewrite <- Hx, <- Ham, <- Hv, <- Hf.
  destruct (momentum_step ld (alpha_m s1) (o_alpha_f o)) as [am|e];
    cbn [bind] in *; [|reflexivity].
  destruct (update_topology argsort N am (x s1) (vol s1) (factor s1)) as [[x' f']|e];
    cbn [bind] in *; [|reflexivity].
  destruct Hfin as [Hfin|Hno]; [|exfalso; eapply Hno; reflexivity].
  unfold same_outcome, same_but_leftover, convergence_check, forget.
  cbn [x alpha_m vol obj_opt x_opt keep_going waiting it factor].
  rewrite <- Hobj, <- Hkg, <- Hw, <- Hit.
  destruct (Z.of_nat (sum_bool x') =? Vt_of N)%Z.
  - destruct (improves (o_obj o) (obj_opt s1)) eqn:Himp;
      cbn [x alpha_m vol obj_opt x_opt keep_going waiting it factor].
    + split; [reflexivity|]. left. reflexivity.
    + split; [reflexivity|]. left.
      destruct Hbest as [Heq|[Hinf _]]; [exact Heq|].
      rewrite Hinf, (improves_infinity _ Hfin) in Himp. discriminate Himp.
  - cbn [x alpha_m vol obj_opt x_opt keep_going waiting it factor].
    split; [reflexivity|exact Hbest].
Qed.

Lemma beso_loop_same (su : setup) (fuel : nat) : forall s1 s2,
  same_but_leftover s1 s2 ->
  same_outcome (beso_loop argsort k su fuel s1) (beso_loop argsort k su fuel s2).
Proof.
  induction fuel as [|fuel IH]; intros s1 s2 Hsame; cbn [beso_loop].
  - exact Hsame.
  - pose proof (proj1 Hsame) as Hforget.
    rewrite <- (observe_forget su s1 s2 Hforget).
    pose proof (forget_fields _ _ Hforget) as (_ & _ & _ & _ & Hkg & _).
    rewrite <- Hkg.
    destruct (keep_going s1); [|exact Hsame].
    pose proof (iteration_same (N_of (s_Ny su)) (s_ld_ele su)
                  (observe argsort k su s1) s1 s2) as Hstep.
    destruct (iteration argsort (N_of (s_Ny su)) (s_ld_ele su)
                (observe argsort k su s1) s1) as [s1'|e1] eqn:H1.
    + specialize (Hstep (or_introl (observe_finite su s1 s1' H1)) Hsame).
      destruct (iteration argsort (N_of (s_Ny su)) (s_ld_ele su)
                  (observe argsort k su s1) s2) as [s2'|e2]; [|contradiction].
      cbn [bind]. apply IH. exact Hstep.
    + assert (Hno : forall s', @Err state e1 <> Ok s') by (intros s' H; discriminate H).
      specialize (Hstep (or_intror Hno) Hsame).
      destruct (iteration argsort (N_of (s_Ny su)) (s_ld_ele su)
                  (observe argsort k su s1) s2) as [s2'|e2]; [contradiction|].
      cbn [bind]. exact Hstep.
Qed.

(** C9: with the same parameters and the same kernels, whose compliance is
    a finite number, an instance returns the same best topology and the same
    best compliance (or raises the same exception) whatever an earlier
    instance left in [x_opt]: nothing of the engine's own is random, and no
    state of another instance reaches the result. *)
Theorem rerun_same_best (p : params) (fuel : nat)
    (leftover1 leftover2 : option (list bool)) :
  optimize_instance argsort k p leftover1 fuel
  = optimize_instance argsort k p leftover2 fuel.
Proof.
  unfold optimize_instance.
  destruct (boundary_conditions p) as [su|e]; cbn [bind]; [|reflexivity].
  pose proof (beso_loop_same su fuel
                (init_state (N_of (s_Ny su)) leftover1)
                (init_state (N_of (s_Ny su)) leftover2)) as H.
  assert (Hinit : same_but_leftover (init_state (N_of (s_Ny su)) leftover1)
                    (init_state (N_of (s_Ny su)) leftover2)).
  { split; [reflexivity|]. right. split; reflexivity. }
  specialize (H Hinit).
  destruct (beso_loop argsort k su fuel (init_state (N_of (s_Ny su)) leftover1))
    as [s1|e1];
  destruct (beso_loop argsort k su fuel (init_state (N_of (s_Ny su)) leftover2))
    as [s2|e2]; cbn [same_outcome] in H; try contradiction; cbn [bind].
  - destruct H as [Hforget Hbest].
    apply forget_fields in Hforget.
    destruct Hforget as (_ & _ & _ & Hobj & Hkg & _).
    rewrite <- Hkg, <- Hobj.
    destruct (keep_going s1) eqn:Hk1; [reflexivity|].
    destruct Hbest as [Heq|[_ Habs]]; [|discriminate Habs].
    rewrite Heq. reflexivity.
  - rewrite H. reflexivity.
Qed.

End Rerun.

(** Kernels returning the records of the worked instance at every call, and
    kernels whose compliance is not a number. *)
Definition demo_kernels : kernels :=
  Kernels (fun _ _ _ => o_alpha_f demo_oracle) (fun _ _ _ => o_obj demo_oracle).

Definition nan_kernels : kernels :=
  Kernels (fun _ _ _ => o_alpha_f demo_oracle) (fun _ _ _ => nan).

Lemma demo_optimize :
  optimize_instance insertion_argsort demo_kernels demo_params None 24
  = Ok (Some ([true; true; false; false; false; false; true; true], 3%float)).
Proof. vm_compute. reflexivity. Defined.

Lemma rerun_same_best_witness :
  finite_compliance demo_kernels /\
  optimize_instance insertion_argsort demo_kernels demo_params None 24
  = Ok (Some ([true; true; false; false; false; false; true; true], 3%float)) /\
  optimize_instance insertion_argsort demo_kernels demo_params None 24
  = optimize_instance insertion_argsort demo_kernels demo_params
      (Some (replicate 8 false)) 24.
Proof.
  assert (Hfin : finite_compliance demo_kernels) by (intros su x f; reflexivity).
  split; [exact Hfin|]. split; [exact demo_optimize|].
  exact (rerun_same_best insertion_argsort demo_kernels Hfin demo_params 24
           None (Some (replicate 8 false))).
Defined.

(** The sentence of the specification, read literally: an instance run with
    the same parameters gives the same best topology, whatever ran before
    it. *)
Definition rerun_bit_identical : Prop :=
  forall (argsort : list float -> list nat) (k : kernels) (p : params) (fuel : nat)
         (leftover1 leftover2 : option (list bool)),
    optimize_instance argsort k p leftover1 fuel
    = optimize_instance argsort k p leftover2 fuel.

(** It fails for kernels whose compliance is not a number: [x_opt] is the
    one variable lines 381-384 do not reset, no pass assigns it, and the
    instance returns the best topology of whatever instance ran before,
    or raises [NameError] when none did. *)
Lemma rerun_returns_leftover :
  optimize_instance insertion_argsort nan_kernels demo_params
    (Some (replicate 8 false)) 24
  = Ok (Some (replicate 8 false, infinity)) /\
  optimize_instance insertion_argsort nan_kernels demo_params
    (Some (replicate 8 true)) 24
  = Ok (Some (replicate 8 true, infinity)) /\
  optimize_instance insertion_argsort nan_kernels demo_params None 24
  = Err NameError /\
  ~ rerun_bit_identical.
Proof.
  split; [vm_compute; reflexivity|]. split; [vm_compute; reflexivity|].
  split; [vm_compute; reflexivity|].
  intros H.
  specialize (H insertion_argsort nan_kernels demo_params 24
                (Some (replicate 8 false)) (Some (replicate 8 true))).
  vm_compute in H. discriminate H.
Qed.

(** * Kernel-driven runs are runs *)

(** The records the kernels produce along a run. *)
Fixpoint trace (argsort : list float -> list nat) (k : kernels) (su : setup)
    (fuel : nat) (s : state) : list oracle :=
  match fuel with
  | O => []
  | S fuel' =>
      if keep_going s then
        let o := observe argsort k su s in
        o :: match iteration argsort (N_of (s_Ny su)) (s_ld_ele su) o s with
             | Ok s' => trace argsort k su fuel' s'
             | Err _ => []
             end
      else []
  end.

(** What is proved of [run] on a list of records holds of the loop driven
    by the kernels, on the records of its trace. *)
Lemma beso_loop_run (argsort : list float -> list nat) (k : kernels) (su : setup)
    (fuel : nat) : forall s,
  beso_loop argsort k su fuel s
  = run argsort (N_of (s_Ny su)) (s_ld_ele su) (trace argsort k su fuel s) s.
Proof.
  induction fuel as [|fuel IH]; intros s; cbn [beso_loop trace]; [reflexivity|].
  destruct (keep_going s) eqn:Hk; [|reflexivity].
  cbn [run]. rewrite Hk.
  destruct (iteration argsort (N_of (s_Ny su)) (s_ld_ele su)
              (observe argsort k su s) s) as [s'|e]; cbn [bind]; [|reflexivity].
  apply IH.
Qed.

Lemma trace_finite (argsort : list float -> list nat) (k : kernels) (su : setup)
    (fuel : nat) : forall s s',
  finite_compliance k ->
  beso_loop argsort k su fuel s = Ok s' ->
  Forall finite_obj (trace argsort k su fuel s).
Proof.
  induction fuel as [|fuel IH]; intros s s' Hfin Hrun; cbn [beso_loop trace] in *.
  - constructor.
  - destruct (keep_going s); [|constructor].
    destruct (iteration argsort (N_of (s_Ny su)) (s_ld_ele su)
                (observe argsort k su s) s) as [s1|e] eqn:Hit; cbn [bind] in *;
      [|discriminate Hrun].
    constructor; [|exact (IH s1 s' Hfin Hrun)].
    exact (observe_finite argsort k Hfin su s s1 Hit).
Qed.

(** * The loop does not raise *)

Module Safety.

Lemma max_float_Ok (l : list float) : l <> [] -> exists m, max_float l = Ok m.
Proof. destruct l as [|h t]; [congruence|]. intros _. eexists. reflexivity. Qed.

(** The momentum step succeeds on a non-empty sensitivity vector of the
    length of [alpha_m]. *)
Lemma momentum_step_Ok (ld : list nat) (am af : list float) :
  length af = length am -> am <> [] ->
  exists am', momentum_step ld am af = Ok am'.
Proof.
  intros Hlen Hne. unfold momentum_step.
  destruct (decide (length af = length am)) as [_|Hn]; [|contradiction].
  assert (Haf : af <> []).
  { destruct af; [|discriminate]. destruct am; [contradiction|discriminate Hlen]. }
  destruct (max_float_Ok (abs <$> af)) as [mf ->].
  { destruct af; [contradiction|discriminate]. }
  cbn [bind].
  match goal with |- context [max_float ?l] => destruct (max_float_Ok l) as [mm ->] end.
  { destruct am as [|a am]; [contradiction|]. destruct af as [|b af]; [contradiction|].
    intros Habs. apply (f_equal length) in Habs.
    rewrite length_fmap, length_zip_with, ArrayFacts.assign_length in Habs.
    cbn in Habs. lia. }
  cbn [bind]. eexists. reflexivity.
Qed.

End Safety.

Section NeverRaises.

Variable argsort : list float -> list nat.
Hypothesis argsort_perm : forall v, argsort v ≡ₚ seq 0 (length v).
Variable N : nat.
Variable ld_ele : list nat.
Hypothesis HN : 2 <= N.

(** The kernels write one filtered sensitivity per element. *)
Definition well_sized (o : oracle) : Prop := length (o_alpha_f o) = N.

Lemma iteration_Ok (o : oracle) (s : state) :
  well_sized o -> volume_inv N s -> length (alpha_m s) = N ->
  exists s', iteration argsort N ld_ele o s = Ok s' /\
             volume_inv N s' /\ length (alpha_m s') = N.
Proof.
  intros Ho Hinv Ham.
  destruct (Safety.momentum_step_Ok ld_ele (alpha_m s) (o_alpha_f o)) as [am Hm].
  { rewrite Ham. exact Ho. }
  { intros Hnil. rewrite Hnil in Ham. cbn in Ham. lia. }
  destruct Hinv as (Hv & Hge & Hlen).
  assert (Hge' : (Vt_of N <= Z.of_nat (sum_bool (x s)))%Z) by (rewrite <- Hv; exact Hge).
  pose proof (update_topology_eq argsort argsort_perm N am (x s) HN Hge'
                (vol s) (factor s) Hv) as Hup.
  assert (Hit : exists s', iteration argsort N ld_ele o s = Ok s').
  { unfold iteration. rewrite Hm. cbn [bind]. rewrite Hup. cbn [bind].
    eexists. reflexivity. }
  destruct Hit as [s' Hit]. exists s'. split; [exact Hit|]. split.
  - exact (volume_inv_step argsort argsort_perm N ld_ele HN o s s'
             (conj Hv (conj Hge Hlen)) Hit).
  - destruct (iteration_update argsort N ld_ele o s s' Hit) as (Hm' & _).
    rewrite (Momentum.momentum_step_length _ _ _ _ Hm'). exact Ham.
Qed.

(** X1: on a mesh of at least two elements, with sensitivity vectors of one
    entry per element, the loop raises nothing: every index the two update
    phases compute ([sorted_solid[-1-i]], [solid[...]], [sorted_void[i]],
    [void[...]]) is inside its array, for any sensitivities (NaN and
    infinities included) and any argsort that returns a permutation. *)
Theorem run_never_raises (os : list oracle) (leftover : option (list bool)) :
  Forall well_sized os ->
  exists s, run argsort N ld_ele os (init_state N leftover) = Ok s.
Proof.
  intros Hos.
  assert (Hgen : forall s, volume_inv N s -> length (alpha_m s) = N ->
                   exists s', run argsort N ld_ele os s = Ok s').
  { induction Hos as [|o os Ho Hos IH]; intros s Hinv Ham; cbn [run].
    - eexists. reflexivity.
    - destruct (keep_going s); [|eexists; reflexivity].
      destruct (iteration_Ok o s Ho Hinv Ham) as (s' & -> & Hinv' & Ham').
      cbn [bind]. exact (IH s' Hinv' Ham'). }
  apply Hgen.
  - apply volume_inv_init. exact HN.
  - cbn. apply length_replicate.
Qed.

End NeverRaises.

Lemma run_never_raises_witness :
  Forall (well_sized 8) (replicate 24 demo_oracle) /\
  exists s, run insertion_argsort 8 [6; 7] (replicate 24 demo_oracle)
              (init_state 8 None) = Ok s.
Proof.
  assert (Hos : Forall (well_sized 8) (replicate 24 demo_oracle)).
  { apply Forall_replicate. reflexivity. }
  split; [exact Hos|].
  apply (run_never_raises insertion_argsort Argsort.insertion_argsort_perm 8 [6; 7]);
    [lia|exact Hos].
Defined.

(** * The volume schedule *)

Section Schedule.

Variable argsort : list float -> list nat.
Hypothesis argsort_perm : forall v, argsort v ≡ₚ seq 0 (length v).
Variable N : nat.
Variable ld_ele : list nat.
Hypothesis HN : 2 <= N.

(** The volume after [it] passes, and the pass at which the wait counter
    started to count. *)
Definition schedule_inv (s : state) : Prop :=
  volume_inv N s /\
  vol s = Z.max (Vt_of N) (Z.of_nat N - Z.of_nat (it s) * dVmax_of N) /\
  (waiting s = 0 \/
   (waiting s <= it s /\
    (Z.of_nat N - Vt_of N
     <= (Z.of_nat (it s) - Z.of_nat (waiting s) + 1) * dVmax_of N)%Z)).

Lemma update_volume (am : list float) (x0 x1 : list bool) (v : Z)
    (f0 f1 : factor_log) :
  v = Z.of_nat (sum_bool x0) -> (Vt_of N <= v)%Z ->
  update_topology argsort N am x0 v f0 = Ok (x1, f1) ->
  Z.of_nat (sum_bool x1) = Z.max (Vt_of N) (v - dVmax_of N).
Proof.
  intros Hv Hge Hup. rewrite Hv in Hge.
  rewrite (update_topology_eq argsort argsort_perm N am x0 HN Hge v f0 Hv) in Hup.
  injection Hup as Hx1 _.
  pose proof (reduced_volume argsort argsort_perm N am x0 HN Hge) as Hred.
  pose proof (swapped_volume argsort argsort_perm N am x0 HN Hge) as Hsw.
  pose proof (reduce_passes_eq N x0 HN Hge) as Hpasses.
  rewrite Hx1 in Hsw. rewrite <- Hv in Hpasses.
  assert (Hd : (1 <= dVmax_of N)%Z) by (unfold dVmax_of; lia).
  lia.
Qed.

Lemma schedule_inv_step (o : oracle) (s s' : state) :
  schedule_inv s -> iteration argsort N ld_ele o s = Ok s' -> schedule_inv s'.
Proof.
  intros (Hinv & Hvol & Hwait) Hit.
  pose proof (volume_inv_step argsort argsort_perm N ld_ele HN o s s' Hinv Hit) as Hinv'.
  destruct (iteration_update argsort N ld_ele o s s' Hit) as (_ & Hup & Hv' & Hit').
  destruct Hinv as (Hv & Hge & _).
  pose proof (update_volume _ _ _ _ _ _ Hv Hge Hup) as Hnew.
  rewrite <- Hv' in Hnew.
  assert (Hd : (1 <= dVmax_of N)%Z) by (unfold dVmax_of; lia).
  assert (Hvol' : vol s' = Z.max (Vt_of N) (Z.of_nat N - Z.of_nat (it s') * dVmax_of N)).
  { rewrite Hnew, Hvol, Hit'. nia. }
  split; [exact Hinv'|]. split; [exact Hvol'|].
  destruct (iteration_controller argsort N ld_ele o s s' Hit)
    as [(Hne & Hw & _)|[(_ & _ & Hw & _)|(Heq & _ & Hw & _)]].
  - rewrite Hw, Hit'. destruct Hwait as [H0|[Hle Hw0]]; [left; exact H0|right].
    split; [lia|nia].
  - left. exact Hw.
  - right. rewrite Hw, Hit'. destruct Hwait as [H0|[Hle Hw0]].
    + rewrite H0. split; [lia|]. rewrite Heq in Hvol'. rewrite Hit' in Hvol'. nia.
    + split; [lia|]. nia.
Qed.

Lemma schedule_inv_run (os : list oracle) (leftover : option (list bool)) (s : state) :
  run argsort N ld_ele os (init_state N leftover) = Ok s -> schedule_inv s.
Proof.
  apply (run_invariant argsort N ld_ele (fun _ => True) schedule_inv).
  - intros o s0 s1 _ H0 _. apply schedule_inv_step. exact H0.
  - apply Forall_forall. intros; exact I.
  - split; [apply volume_inv_init; exact HN|]. cbn.
    rewrite ArrayFacts.sum_bool_replicate_true.
    pose proof (Vt_bounds N [] HN). split; [lia|left; reflexivity].
Qed.

(** X2: after [it] passes the volume is [max(Vt, N - it*dVmax)]: it falls
    by exactly [dVmax] elements per pass until the target volume, reaches
    the target exactly, and stays there. *)
Theorem volume_schedule (os : list oracle) (leftover : option (list bool))
    (s : state) :
  run argsort N ld_ele os (init_state N leftover) = Ok s ->
  vol s = Z.max (Vt_of N) (Z.of_nat N - Z.of_nat (it s) * dVmax_of N).
Proof. intros Hrun. exact (proj1 (proj2 (schedule_inv_run os leftover s Hrun))). Qed.

(** X3: the loop cannot halt early: when it has halted, the target volume
    had been reached [patience] passes before, so at least
    [(N - Vt)/dVmax + patience - 1] passes were made. *)
Theorem earliest_halt (os : list oracle) (leftover : option (list bool))
    (s : state) :
  run argsort N ld_ele os (init_state N leftover) = Ok s ->
  keep_going s = false ->
  vol s = Vt_of N /\
  (Z.of_nat patience <= Z.of_nat (it s))%Z /\
  (Z.of_nat N - Vt_of N
   <= (Z.of_nat (it s) - Z.of_nat patience + 1) * dVmax_of N)%Z.
Proof.
  intros Hrun Hk.
  destruct (schedule_inv_run os leftover s Hrun) as (_ & Hvol & Hwait).
  destruct (waiting_inv_run argsort N ld_ele os leftover s Hrun) as [_ Hiff].
  apply Hiff in Hk. rewrite Hk in Hwait.
  destruct Hwait as [H0|[Hle Hw]]; [discriminate H0|].
  assert (Hd : (1 <= dVmax_of N)%Z) by (unfold dVmax_of; lia).
  split; [|split; [lia|exact Hw]].
  rewrite Hvol. unfold patience in *. nia.
Qed.

End Schedule.

Lemma volume_schedule_witness :
  run insertion_argsort 8 [6; 7] (replicate 24 demo_oracle) (init_state 8 None)
    = Ok demo_halt /\
  vol demo_halt = Z.max (Vt_of 8) (8 - Z.of_nat (it demo_halt) * dVmax_of 8).
Proof.
  split; [exact demo_run24|].
  exact (volume_schedule insertion_argsort Argsort.insertion_argsort_perm 8 [6; 7]
           ltac:(lia) (replicate 24 demo_oracle) None demo_halt demo_run24).
Defined.

Lemma earliest_halt_witness :
  run insertion_argsort 8 [6; 7] (replicate 24 demo_oracle) (init_state 8 None)
    = Ok demo_halt /\
  keep_going demo_halt = false /\
  vol demo_halt = Vt_of 8 /\
  (Z.of_nat patience <= Z.of_nat (it demo_halt))%Z /\
  (8 - Vt_of 8 <= (Z.of_nat (it demo_halt) - Z.of_nat patience + 1) * dVmax_of 8)%Z.
Proof.
  split; [exact demo_run24|]. split; [reflexivity|].
  exact (earliest_halt insertion_argsort Argsort.insertion_argsort_perm 8 [6; 7]
           ltac:(lia) (replicate 24 demo_oracle) None demo_halt demo_run24 eq_refl).
Defined.

(** * Which elements are flipped *)

Module Ranking.

Section Rank.

Variable argsort : list float -> list nat.
Hypothesis argsort_perm : forall v, argsort v ≡ₚ seq 0 (length v).
Hypothesis argsort_sorting : Argsort.sorting argsort.
Variable am : list float.
Variable l : list nat.
Hypothesis Hnd : NoDup l.

Let s := argsort (gather am l).

Lemma s_perm : s ≡ₚ seq 0 (length l).
Proof. unfold s. rewrite argsort_perm. unfold gather. rewrite length_fmap. reflexivity. Qed.

Lemma gather_lookup (k : nat) : k < length l -> gather am l !!! k = am !!! (l !!! k).
Proof.
  intros Hk. exact (@list_lookup_total_fmap _ _ (fun i => am !!! i) _ _ l k Hk).
Qed.

(** Every member of [l] sits at one position of the sorted order. *)
Lemma position (e : nat) :
  e ∈ l -> exists q k, q < length s /\ s !! q = Some k /\ k < length l /\ l !!! k = e.
Proof.
  intros He. apply list_elem_of_lookup in He. destruct He as [k Hk].
  pose proof (lookup_lt_Some _ _ _ Hk) as Hlt.
  assert (Hin : k ∈ s) by (rewrite s_perm; apply elem_of_seq; lia).
  apply list_elem_of_lookup in Hin. destruct Hin as [q Hq].
  exists q, k. split; [exact (lookup_lt_Some _ _ _ Hq)|]. split; [exact Hq|].
  split; [exact Hlt|]. apply list_lookup_total_correct. exact Hk.
Qed.

Lemma order (q q' k k' : nat) :
  q < q' -> s !! q = Some k -> s !! q' = Some k' ->
  np_lt (am !!! (l !!! k')) (am !!! (l !!! k)) = false.
Proof.
  intros Hlt Hq Hq'.
  assert (Hk : k < length l).
  { apply (Selection.perm_lt l s s_perm). apply list_elem_of_lookup. eauto. }
  assert (Hk' : k' < length l).
  { apply (Selection.perm_lt l s s_perm). apply list_elem_of_lookup. eauto. }
  rewrite <- (gather_lookup k Hk), <- (gather_lookup k' Hk').
  exact (argsort_sorting (gather am l) q q' k k' Hlt Hq Hq').
Qed.

(** The last [m] positions of the sorted order hold the largest values. *)
Lemma top_picks (m i : nat) (e' : nat) :
  m <= length s -> i < m -> e' ∈ l -> e' ∉ pick l s <$> seq 0 m ->
  np_lt (am !!! pick l s i) (am !!! e') = false.
Proof.
  intros Hm Hi He' Hout.
  destruct (position e' He') as (q & k & Hq & Hsq & Hk & <-).
  assert (Hlow : q < length s - m).
  { destruct (decide (q < length s - m)) as [|Hge]; [assumption|]. exfalso. apply Hout.
    apply list_elem_of_fmap. exists (length s - 1 - q). split.
    - unfold pick. replace (length s - 1 - (length s - 1 - q)) with q by lia.
      rewrite (list_lookup_total_correct _ _ _ Hsq). reflexivity.
    - apply elem_of_seq. lia. }
  unfold pick.
  destruct (lookup_lt_is_Some_2 s (length s - 1 - i) ltac:(lia)) as [b Hb].
  rewrite (list_lookup_total_correct _ _ _ Hb).
  apply (order q (length s - 1 - i) k b); [lia|exact Hsq|exact Hb].
Qed.

(** The first [m] positions hold the smallest values. *)
Lemma bottom_picks (m i : nat) (e' : nat) :
  m <= length s -> i < m -> e' ∈ l -> e' ∉ vpick l s <$> seq 0 m ->
  np_lt (am !!! e') (am !!! vpick l s i) = false.
Proof.
  intros Hm Hi He' Hout.
  destruct (position e' He') as (q & k & Hq & Hsq & Hk & <-).
  assert (Hhigh : m <= q).
  { destruct (decide (m <= q)) as [|Hlt]; [assumption|]. exfalso. apply Hout.
    apply list_elem_of_fmap. exists q. split.
    - unfold vpick. rewrite (list_lookup_total_correct _ _ _ Hsq). reflexivity.
    - apply elem_of_seq. lia. }
  unfold vpick.
  destruct (lookup_lt_is_Some_2 s i ltac:(lia)) as [b Hb].
  rewrite (list_lookup_total_correct _ _ _ Hb).
  apply (order i q b k); [lia|exact Hb|exact Hsq].
Qed.

End Rank.

End Ranking.

Section Extremes.

Variable argsort : list float -> list nat.
Hypothesis argsort_perm : forall v, argsort v ≡ₚ seq 0 (length v).
Hypothesis argsort_sorting : Argsort.sorting argsort.
Variable N : nat.
Variable am : list float.
Variable x : list bool.
Hypothesis HN : 2 <= N.
Hypothesis Hvol : (Vt_of N <= Z.of_nat (sum_bool x))%Z.

Lemma flipped_bounds :
  reduce_passes N x + length (pairs argsort N am x)
    <= length (argsort (gather am (argwhere x))) /\
  length (pairs argsort N am x)
    <= length (argsort (gather am (argwhere (negb <$> x)))).
Proof.
  pose proof (pairs_length argsort N am x HN) as Hle.
  destruct (decide (length (pairs argsort N am x) = 0)) as [H0|Hpos].
  - rewrite H0. split; [|lia].
    destruct (decide (reduce_passes N x = 0)) as [Hr|Hr]; [lia|].
    pose proof (reduce_passes_lt argsort argsort_perm N am x HN Hvol
                  (reduce_passes N x - 1) ltac:(apply elem_of_seq; lia)). lia.
  - destruct (swap_passes_lt argsort argsort_perm N am x HN Hvol
                (length (pairs argsort N am x) - 1) ltac:(apply elem_of_seq; lia)).
    lia.
Qed.

(** X4: the elements a pass turns void (removed, or the solid member of a
    swapped pair) carry the highest smoothed sensitivities among the solid
    elements, and the elements it turns solid the lowest among the void
    ones, in the order numpy sorts by: no element that keeps its state
    beats a flipped one. *)
Theorem flipped_are_extreme :
  (forall e e', e ∈ removed argsort N am x ++ (pairs argsort N am x).*1 ->
                x !! e' = Some true ->
                e' ∉ removed argsort N am x ++ (pairs argsort N am x).*1 ->
                np_lt (am !!! e) (am !!! e') = false) /\
  (forall e e', e ∈ (pairs argsort N am x).*2 ->
                x !! e' = Some false ->
                e' ∉ (pairs argsort N am x).*2 ->
                np_lt (am !!! e') (am !!! e) = false).
Proof.
  destruct flipped_bounds as [Hs Hv]. split.
  - intros e e'. rewrite (removed_pairs_fst argsort N am x HN).
    intros He He' Hout. apply list_elem_of_fmap in He. destruct He as (i & -> & Hi).
    apply elem_of_seq in Hi.
    apply (Ranking.top_picks argsort argsort_perm argsort_sorting am (argwhere x)
             (reduce_passes N x + length (pairs argsort N am x)) i e');
      [exact Hs|lia|apply ArrayFacts.argwhere_elem; exact He'|exact Hout].
  - intros e e'. rewrite (pairs_snd argsort N am x).
    intros He He' Hout. apply list_elem_of_fmap in He. destruct He as (i & -> & Hi).
    apply elem_of_seq in Hi.
    apply (Ranking.bottom_picks argsort argsort_perm argsort_sorting am
             (argwhere (negb <$> x)) (length (pairs argsort N am x)) i e');
      [exact Hv|lia|apply ArrayFacts.argwhere_negb_elem; exact He'|exact Hout].
Qed.

End Extremes.

Lemma flipped_are_extreme_witness :
  (removed insertion_argsort 8 demo_alpha_m (x demo_s4) = [] /\
   pairs insertion_argsort 8 demo_alpha_m (x demo_s4) = [(1, 2)]) /\
  (forall e e', e ∈ removed insertion_argsort 8 demo_alpha_m (x demo_s4)
                    ++ (pairs insertion_argsort 8 demo_alpha_m (x demo_s4)).*1 ->
                x demo_s4 !! e' = Some true ->
                e' ∉ removed insertion_argsort 8 demo_alpha_m (x demo_s4)
                     ++ (pairs insertion_argsort 8 demo_alpha_m (x demo_s4)).*1 ->
                np_lt (demo_alpha_m !!! e) (demo_alpha_m !!! e') = false) /\
  (forall e e', e ∈ (pairs insertion_argsort 8 demo_alpha_m (x demo_s4)).*2 ->
                x demo_s4 !! e' = Some false ->
                e' ∉ (pairs insertion_argsort 8 demo_alpha_m (x demo_s4)).*2 ->
                np_lt (demo_alpha_m !!! e') (demo_alpha_m !!! e) = false).
Proof.
  split; [split; vm_compute; reflexivity|].
  apply (flipped_are_extreme insertion_argsort Argsort.insertion_argsort_perm
           Argsort.insertion_argsort_sorting 8 demo_alpha_m (x demo_s4)).
  - lia.
  - vm_compute. discriminate.
Defined.

(** * Mesh and assembly (lines 227-252 and 304-329) *)

(** numpy's array idioms on nested lists: a two-dimensional array is the
    list of its rows. *)
Module Np.

(** [a.repeat(c)] and [a.repeat(c, axis=0)]: each entry (row) [c] times. *)
Definition repeat {A} (c : nat) (a : list A) : list A := concat (replicate c <$> a).

(** [np.tile(a, n)]: [n] copies of [a] in a row. *)
Definition tile {A} (a : list A) (n : nat) : list A := concat (replicate n a).

(** [a.T] for a rectangular array. *)
Definition transpose {A} `{Inhabited A} (a : list (list A)) : list (list A) :=
  match a with
  | [] => []
  | r :: _ => (fun j => (fun row => row !!! j) <$> a) <$> seq 0 (length r)
  end.

(** [np.ravel(a, 'C')] reads row by row, [np.ravel(a, 'F')] column by column. *)
Definition ravel_C {A} (a : list (list A)) : list A := concat a.
Definition ravel_F {A} `{Inhabited A} (a : list (list A)) : list A :=
  concat (transpose a).

(** [a[:, k]]. *)
Definition column {A} `{Inhabited A} (k : nat) (a : list (list A)) : list A :=
  (fun row => row !!! k) <$> a.

End Np.

(** The incidence matrix (lines 244-252): one row of four node numbers per
    element. *)
Definition inci (Ny : nat) : list (list nat) :=
  (fun e => let n0 := e + e / Ny in [n0; n0 + Ny + 1; n0 + Ny + 2; n0 + 1])
    <$> seq 0 (N_of Ny).

(** The coordinate grid before scaling (lines 236-240). *)
Definition xcoor (Ny : nat) : list nat :=
  Np.ravel_F (replicate (Ny + 1) (seq 0 (Nx_of Ny + 1))).
Definition ycoor (Ny : nat) : list nat :=
  Np.ravel_C (replicate (Nx_of Ny + 1) (seq 0 (Ny + 1))).

(** COO indices (lines 313-324). *)
Definition eledofs (Ny : nat) : list (list nat) :=
  let dof0 := (fun n => 2 * n) <$> Np.column 0 (inci Ny) in
  let dof1 := (fun d => d + 1) <$> dof0 in
  let dof2 := (fun n => 2 * n) <$> Np.column 1 (inci Ny) in
  let dof3 := (fun d => d + 1) <$> dof2 in
  let dof4 := (fun n => 2 * n) <$> Np.column 2 (inci Ny) in
  let dof5 := (fun d => d + 1) <$> dof4 in
  let dof6 := (fun n => 2 * n) <$> Np.column 3 (inci Ny) in
  let dof7 := (fun d => d + 1) <$> dof6 in
  [dof0; dof1; dof2; dof3; dof4; dof5; dof6; dof7].

Definition coo_row (Ny : nat) : list nat := Np.ravel_F (Np.repeat 8 (eledofs Ny)).
Definition coo_col (Ny : nat) : list nat :=
  Np.ravel_C (Np.repeat 8 (Np.transpose (eledofs Ny))).

(** COO data (lines 307-311), for the soft-kill factor [epsk] and the
    flattened element matrix [Kevec]. *)
Definition coo_data (epsk : float) (Kevec : list float) (x : list bool) : list float :=
  let pen := (fun b : bool => if b then 1%float else epsk) <$> x in
  zip_with PrimFloat.mul (Np.repeat 64 pen) (Np.tile Kevec (length x)).

Module NpFacts.

Lemma lookup_concat {A} (n : nat) (a : list (list A)) : forall k,
  0 < n -> Forall (fun r => length r = n) a ->
  concat a !! k = a !! (k / n) ≫= (fun r => r !! (k mod n)).
Proof.
  induction a as [|r a IH]; intros k Hn Hall; [reflexivity|].
  apply Forall_cons in Hall. destruct Hall as [Hr Hall]. cbn [concat].
  destruct (decide (k < n)) as [Hlt|Hge].
  - rewrite lookup_app_l by lia.
    rewrite Nat.div_small, Nat.mod_small by lia. reflexivity.
  - rewrite lookup_app_r by lia. rewrite Hr, (IH (k - n) Hn Hall).
    assert (Hd : k / n = S ((k - n) / n)).
    { replace k with ((k - n) + 1 * n) at 1 by lia. rewrite Nat.div_add by lia. lia. }
    assert (Hm : k mod n = (k - n) mod n).
    { replace k with ((k - n) + 1 * n) at 1 by lia. apply Nat.Div0.mod_add. }
    rewrite Hd, Hm. reflexivity.
Qed.

Lemma length_concat {A} (n : nat) (a : list (list A)) :
  Forall (fun r => length r = n) a -> length (concat a) = length a * n.
Proof.
  induction 1 as [|r a Hr _ IH]; [reflexivity|].
  cbn [concat]. rewrite length_app, IH, Hr. cbn. lia.
Qed.

Lemma lookup_at {A} (n : nat) (a : list (list A)) (q k : nat) :
  Forall (fun r => length r = n) a -> k < n ->
  concat a !! (q * n + k) = a !! q ≫= (fun r => r !! k).
Proof.
  intros Hall Hk. rewrite (lookup_concat n) by (lia || exact Hall).
  rewrite Nat.div_add_l, Nat.div_small, Nat.add_0_r by lia.
  rewrite Nat.add_comm, Nat.Div0.mod_add, Nat.mod_small by lia. reflexivity.
Qed.

Lemma repeat_lookup {A} (c : nat) (a : list A) (q k : nat) :
  k < c -> Np.repeat c a !! (q * c + k) = a !! q.
Proof.
  intros Hk. unfold Np.repeat. rewrite (lookup_at c).
  - rewrite list_lookup_fmap. destruct (a !! q) as [v|]; [|reflexivity].
    cbn. apply lookup_replicate_2. exact Hk.
  - apply Forall_fmap, Forall_forall. intros v _. apply length_replicate.
  - exact Hk.
Qed.

Lemma repeat_length {A} (c : nat) (a : list A) : length (Np.repeat c a) = length a * c.
Proof.
  unfold Np.repeat. rewrite (length_concat c), length_fmap; [reflexivity|].
  apply Forall_fmap, Forall_forall. intros v _. apply length_replicate.
Qed.

Lemma tile_lookup {A} (a : list A) (n q k : nat) :
  q < n -> k < length a -> Np.tile a n !! (q * length a + k) = a !! k.
Proof.
  intros Hq Hk. unfold Np.tile. rewrite (lookup_at (length a)).
  - rewrite lookup_replicate_2 by exact Hq. reflexivity.
  - apply Forall_replicate. reflexivity.
  - exact Hk.
Qed.

Lemma tile_length {A} (a : list A) (n : nat) : length (Np.tile a n) = n * length a.
Proof.
  unfold Np.tile. rewrite (length_concat (length a)), length_replicate; [reflexivity|].
  apply Forall_replicate. reflexivity.
Qed.

Lemma transpose_lookup {A} `{Inhabited A} (n : nat) (a : list (list A)) (j : nat) :
  a <> [] -> Forall (fun r => length r = n) a -> j < n ->
  Np.transpose a !! j = Some (Np.column j a).
Proof.
  intros Hne Hall Hj. destruct a as [|r a]; [contradiction|].
  apply Forall_cons in Hall. destruct Hall as [Hr _].
  unfold Np.transpose. rewrite list_lookup_fmap, lookup_seq_lt by lia. reflexivity.
Qed.

Lemma transpose_rows {A} `{Inhabited A} (a : list (list A)) :
  Forall (fun r => length r = length a) (Np.transpose a).
Proof.
  destruct a as [|r a]; [constructor|].
  unfold Np.transpose. apply Forall_fmap, Forall_forall. intros j _.
  cbn. rewrite length_fmap. reflexivity.
Qed.

Lemma transpose_length {A} `{Inhabited A} (n : nat) (a : list (list A)) :
  a <> [] -> Forall (fun r => length r = n) a -> length (Np.transpose a) = n.
Proof.
  intros Hne Hall. destruct a as [|r a]; [contradiction|].
  apply Forall_cons in Hall. destruct Hall as [Hr _].
  unfold Np.transpose. rewrite length_fmap, length_seq. exact Hr.
Qed.

Lemma column_lookup {A} `{Inhabited A} (a : list (list A)) (j q : nat) (r : list A) :
  a !! q = Some r -> Np.column j a !! q = Some (r !!! j).
Proof. intros Hq. unfold Np.column. rewrite list_lookup_fmap, Hq. reflexivity. Qed.

End NpFacts.

Module Mesh.

Lemma xcoor_eq (Ny : nat) :
  xcoor Ny = (fun k => k / (Ny + 1)) <$> seq 0 ((Nx_of Ny + 1) * (Ny + 1)).
Proof.
  apply list_eq. intros k. unfold xcoor, Np.ravel_F.
  set (a := replicate (Ny + 1) (seq 0 (Nx_of Ny + 1))).
  assert (Hne : a <> []).
  { unfold a. replace (Ny + 1) with (S Ny) by lia. discriminate. }
  assert (Hall : Forall (fun r => length r = Nx_of Ny + 1) a).
  { apply Forall_replicate. apply length_seq. }
  assert (Hlen : length a = Ny + 1) by apply length_replicate.
  rewrite (NpFacts.lookup_concat (Ny + 1)); [|lia|].
  2:{ rewrite <- Hlen. apply NpFacts.transpose_rows. }
  rewrite list_lookup_fmap.
  destruct (decide (k < (Nx_of Ny + 1) * (Ny + 1))) as [Hk|Hk].
  - assert (Hq : k / (Ny + 1) < Nx_of Ny + 1) by (apply Nat.Div0.div_lt_upper_bound; lia).
    rewrite (NpFacts.transpose_lookup (Nx_of Ny + 1)) by assumption.
    rewrite lookup_seq_lt by lia. cbn.
    unfold Np.column, a. rewrite fmap_replicate.
    rewrite lookup_replicate_2 by (apply Nat.mod_upper_bound; lia).
    rewrite list_lookup_total_correct with (x := k / (Ny + 1));
      [reflexivity|apply lookup_seq_lt; lia].
  - rewrite lookup_seq_ge by lia. cbn.
    assert (Hq : Nx_of Ny + 1 <= k / (Ny + 1)) by (apply Nat.div_le_lower_bound; lia).
    rewrite lookup_ge_None_2; [reflexivity|].
    rewrite (NpFacts.transpose_length (Nx_of Ny + 1)) by assumption. exact Hq.
Qed.

Lemma ycoor_eq (Ny : nat) :
  ycoor Ny = (fun k => k mod (Ny + 1)) <$> seq 0 ((Nx_of Ny + 1) * (Ny + 1)).
Proof.
  apply list_eq. intros k. unfold ycoor, Np.ravel_C.
  rewrite (NpFacts.lookup_concat (Ny + 1)); [|lia|].
  2:{ apply Forall_replicate. apply length_seq. }
  rewrite list_lookup_fmap.
  destruct (decide (k < (Nx_of Ny + 1) * (Ny + 1))) as [Hk|Hk].
  - assert (Hq : k / (Ny + 1) < Nx_of Ny + 1) by (apply Nat.Div0.div_lt_upper_bound; lia).
    rewrite lookup_replicate_2 by exact Hq.
    rewrite (lookup_seq_lt _ _ k) by exact Hk. cbn [mbind option_bind].
    rewrite lookup_seq_lt by (apply Nat.mod_upper_bound; lia). reflexivity.
  - rewrite lookup_seq_ge by lia. cbn.
    assert (Hq : Nx_of Ny + 1 <= k / (Ny + 1)) by (apply Nat.div_le_lower_bound; lia).
    rewrite lookup_ge_None_2; [reflexivity|]. rewrite length_replicate. exact Hq.
Qed.

Lemma grid_lookup (Ny c r : nat) :
  c <= Nx_of Ny -> r <= Ny ->
  xcoor Ny !! (c * (Ny + 1) + r) = Some c /\ ycoor Ny !! (c * (Ny + 1) + r) = Some r.
Proof.
  intros Hc Hr.
  assert (Hk : c * (Ny + 1) + r < (Nx_of Ny + 1) * (Ny + 1)) by nia.
  rewrite xcoor_eq, ycoor_eq, !list_lookup_fmap, !lookup_seq_lt by exact Hk.
  cbn [fmap option_fmap option_map Nat.add]. split; f_equal.
  - symmetry. apply (Nat.div_unique _ _ c r); lia.
  - symmetry. apply (Nat.mod_unique _ _ c r); lia.
Qed.

Lemma inci_lookup (Ny e : nat) :
  e < N_of Ny ->
  inci Ny !! e
  = Some [e + e / Ny; e + e / Ny + Ny + 1; e + e / Ny + Ny + 2; e + e / Ny + 1].
Proof.
  intros He. unfold inci. rewrite list_lookup_fmap, lookup_seq_lt by exact He.
  reflexivity.
Qed.

End Mesh.

(** X5: the two [np.ravel] calls number the nodes column by column, bottom
    to top: node [k] has grid column [k // (Ny+1)] and grid row
    [k % (Ny+1)], and its coordinates are [esize] times these, the second
    shifted by half the height. *)
Theorem node_numbering (Ny : nat) (es : float) :
  xcoor Ny = (fun k => k / (Ny + 1)) <$> seq 0 ((Nx_of Ny + 1) * (Ny + 1)) /\
  ycoor Ny = (fun k => k mod (Ny + 1)) <$> seq 0 ((Nx_of Ny + 1) * (Ny + 1)) /\
  coor Ny es
  = zip_with (fun xc yc => ((es * float_of_nat xc)%float,
                            (es * float_of_nat yc - 0.5 * Ly)%float))
      (xcoor Ny) (ycoor Ny).
Proof.
  split; [apply Mesh.xcoor_eq|]. split; [apply Mesh.ycoor_eq|].
  rewrite Mesh.xcoor_eq, Mesh.ycoor_eq. unfold coor.
  generalize (seq 0 ((Nx_of Ny + 1) * (Ny + 1))). intros l.
  induction l as [|k l IH]; [reflexivity|].
  cbn [fmap list_fmap zip_with]. rewrite <- IH. reflexivity.
Qed.

(** X6: element [e] of column [c = e // Ny] and row [r = e % Ny] has as
    its four nodes, in the order of the incidence matrix, the grid points
    [(c, r)], [(c+1, r)], [(c+1, r+1)] and [(c, r+1)]: the corners of its
    cell, counter-clockwise from the lower left, all of them nodes of the
    mesh. *)
Theorem inci_grid (Ny e : nat) :
  Ny <> 0 -> e < N_of Ny ->
  let c := e / Ny in
  let r := e mod Ny in
  exists n0 n1 n2 n3,
    inci Ny !! e = Some [n0; n1; n2; n3] /\
    (xcoor Ny !! n0 = Some c /\ ycoor Ny !! n0 = Some r) /\
    (xcoor Ny !! n1 = Some (c + 1) /\ ycoor Ny !! n1 = Some r) /\
    (xcoor Ny !! n2 = Some (c + 1) /\ ycoor Ny !! n2 = Some (r + 1)) /\
    (xcoor Ny !! n3 = Some c /\ ycoor Ny !! n3 = Some (r + 1)).
Proof.
  intros HNy He c r.
  assert (Hr : r < Ny) by (apply Nat.mod_upper_bound; exact HNy).
  assert (Hc : c < Nx_of Ny).
  { apply Nat.Div0.div_lt_upper_bound. unfold N_of in He. lia. }
  assert (Hdm : e = Ny * c + r) by (apply Nat.div_mod_eq).
  exists (e + e / Ny), (e + e / Ny + Ny + 1), (e + e / Ny + Ny + 2), (e + e / Ny + 1).
  split; [apply Mesh.inci_lookup; exact He|].
  fold c.
  replace (e + c) with (c * (Ny + 1) + r) by lia.
  replace (c * (Ny + 1) + r + Ny + 1) with ((c + 1) * (Ny + 1) + r) by lia.
  replace (c * (Ny + 1) + r + Ny + 2) with ((c + 1) * (Ny + 1) + (r + 1)) by lia.
  replace (c * (Ny + 1) + r + 1) with (c * (Ny + 1) + (r + 1)) by lia.
  repeat split; apply Mesh.grid_lookup; lia.
Qed.

Lemma inci_grid_witness :
  let c := 5 / 2 in
  let r := 5 mod 2 in
  exists n0 n1 n2 n3,
    inci 2 !! 5 = Some [n0; n1; n2; n3] /\
    (xcoor 2 !! n0 = Some c /\ ycoor 2 !! n0 = Some r) /\
    (xcoor 2 !! n1 = Some (c + 1) /\ ycoor 2 !! n1 = Some r) /\
    (xcoor 2 !! n2 = Some (c + 1) /\ ycoor 2 !! n2 = Some (r + 1)) /\
    (xcoor 2 !! n3 = Some c /\ ycoor 2 !! n3 = Some (r + 1)).
Proof. apply (inci_grid 2 5); [lia|vm_compute; lia]. Defined.

Module Assembly.

Lemma inci_length (Ny : nat) : length (inci Ny) = N_of Ny.
Proof. unfold inci. rewrite length_fmap, length_seq. reflexivity. Qed.

Lemma eledofs_lookup (Ny i e : nat) (nodes : list nat) :
  i < 8 -> inci Ny !! e = Some nodes ->
  exists d, eledofs Ny !! i = Some d /\ length d = N_of Ny /\
            d !! e = Some (2 * (nodes !!! (i / 2)) + i mod 2).
Proof.
  intros Hi He. unfold eledofs.
  do 8 (destruct i as [|i];
        [eexists; split; [reflexivity|]; split;
         [rewrite ?length_fmap; unfold Np.column; rewrite length_fmap; apply inci_length
         |rewrite ?list_lookup_fmap; unfold Np.column; rewrite list_lookup_fmap, He;
          cbn; f_equal; lia]|]).
  lia.
Qed.

Lemma eledofs_rows (Ny : nat) : Forall (fun d => length d = N_of Ny) (eledofs Ny).
Proof.
  unfold eledofs. repeat constructor;
    rewrite ?length_fmap; unfold Np.column; rewrite length_fmap; apply inci_length.
Qed.

Lemma eledofs_length (Ny : nat) : length (eledofs Ny) = 8.
Proof. reflexivity. Qed.

Lemma repeat_rows {A} (n c : nat) (a : list (list A)) :
  Forall (fun r => length r = n) a -> Forall (fun r => length r = n) (Np.repeat c a).
Proof.
  intros Hall. unfold Np.repeat. apply Forall_concat, Forall_fmap.
  apply (Forall_impl _ _ _ Hall). intros r Hr. apply Forall_replicate. exact Hr.
Qed.

Lemma coo_row_lookup (Ny e i j : nat) (nodes : list nat) :
  inci Ny !! e = Some nodes -> i < 8 -> j < 8 ->
  coo_row Ny !! (64 * e + 8 * i + j) = Some (2 * (nodes !!! (i / 2)) + i mod 2).
Proof.
  intros He Hi Hj.
  pose proof (lookup_lt_Some _ _ _ He) as HeN. rewrite inci_length in HeN.
  destruct (eledofs_lookup Ny i e nodes Hi He) as (d & Hd & Hlen & Hde).
  set (M := Np.repeat 8 (eledofs Ny)).
  assert (HM : Forall (fun r => length r = N_of Ny) M)
    by (apply repeat_rows, eledofs_rows).
  assert (HMlen : length M = 64) by (unfold M; rewrite NpFacts.repeat_length; reflexivity).
  assert (HMne : M <> []) by (intros H0; rewrite H0 in HMlen; discriminate).
  unfold coo_row, Np.ravel_F. fold M.
  replace (64 * e + 8 * i + j) with (e * 64 + (i * 8 + j)) by lia.
  rewrite (NpFacts.lookup_at 64); [| |lia].
  2:{ rewrite <- HMlen. apply NpFacts.transpose_rows. }
  rewrite (NpFacts.transpose_lookup (N_of Ny)) by assumption.
  cbn [mbind option_bind]. unfold Np.column. rewrite list_lookup_fmap.
  unfold M. rewrite NpFacts.repeat_lookup by exact Hj. rewrite Hd.
  cbn [fmap option_fmap option_map]. f_equal.
  apply list_lookup_total_correct. exact Hde.
Qed.

Lemma coo_col_lookup (Ny e i j : nat) (nodes : list nat) :
  inci Ny !! e = Some nodes -> i < 8 -> j < 8 ->
  coo_col Ny !! (64 * e + 8 * i + j) = Some (2 * (nodes !!! (j / 2)) + j mod 2).
Proof.
  intros He Hi Hj.
  pose proof (lookup_lt_Some _ _ _ He) as HeN. rewrite inci_length in HeN.
  destruct (eledofs_lookup Ny j e nodes Hj He) as (d & Hd & Hlen & Hde).
  assert (Hne : eledofs Ny <> []) by discriminate.
  unfold coo_col, Np.ravel_C.
  replace (64 * e + 8 * i + j) with ((e * 8 + i) * 8 + j) by lia.
  rewrite (NpFacts.lookup_at 8); [| |exact Hj].
  2:{ apply repeat_rows. rewrite <- (eledofs_length Ny). apply NpFacts.transpose_rows. }
  rewrite NpFacts.repeat_lookup by exact Hi.
  rewrite (NpFacts.transpose_lookup (N_of Ny)); [|exact Hne|apply eledofs_rows|exact HeN].
  cbn [mbind option_bind]. unfold Np.column. rewrite list_lookup_fmap, Hd.
  cbn [fmap option_fmap option_map]. f_equal.
  apply list_lookup_total_correct. exact Hde.
Qed.

Lemma coo_lengths (Ny : nat) :
  length (coo_row Ny) = 64 * N_of Ny /\ length (coo_col Ny) = 64 * N_of Ny.
Proof.
  split.
  - unfold coo_row, Np.ravel_F.
    set (M := Np.repeat 8 (eledofs Ny)).
    assert (HMlen : length M = 64) by (unfold M; rewrite NpFacts.repeat_length; reflexivity).
    rewrite (NpFacts.length_concat 64).
    + rewrite (NpFacts.transpose_length (N_of Ny)); [lia| |].
      * intros H0. rewrite H0 in HMlen. discriminate.
      * apply repeat_rows, eledofs_rows.
    + rewrite <- HMlen. apply NpFacts.transpose_rows.
  - unfold coo_col, Np.ravel_C.
    rewrite (NpFacts.length_concat 8).
    + rewrite NpFacts.repeat_length.
      rewrite (NpFacts.transpose_length (N_of Ny));
        [lia|discriminate|apply eledofs_rows].
    + apply repeat_rows. rewrite <- (eledofs_length Ny). apply NpFacts.transpose_rows.
Qed.

Lemma coo_data_lookup (epsk : float) (Kevec : list float) (x : list bool)
    (e t : nat) (b : bool) :
  length Kevec = 64 -> x !! e = Some b -> t < 64 ->
  coo_data epsk Kevec x !! (64 * e + t)
  = Some ((if b then 1 else epsk) * (Kevec !!! t))%float.
Proof.
  intros HK He Ht. unfold coo_data.
  pose proof (lookup_lt_Some _ _ _ He) as Hlt.
  rewrite lookup_zip_with.
  replace (64 * e + t) with (e * 64 + t) at 1 by lia.
  rewrite NpFacts.repeat_lookup by exact Ht.
  rewrite list_lookup_fmap, He. cbn [fmap option_fmap option_map mbind option_bind].
  replace (64 * e + t) with (e * length Kevec + t) by lia.
  rewrite NpFacts.tile_lookup by lia.
  rewrite (list_lookup_lookup_total_lt Kevec t) by lia. reflexivity.
Qed.

Lemma coo_data_length (epsk : float) (Kevec : list float) (x : list bool) :
  length Kevec = 64 -> length (coo_data epsk Kevec x) = 64 * length x.
Proof.
  intros HK. unfold coo_data.
  rewrite length_zip_with, NpFacts.repeat_length, NpFacts.tile_length, length_fmap.
  lia.
Qed.

End Assembly.

(** X7: the [64*e + 8*i + j]-th COO triple is entry [(i, j)] of the matrix
    of element [e]: its row is local degree of freedom [i] of the element
    (degree [i % 2] of its node [i // 2]), its column is local degree of
    freedom [j], and its value is [Kevec[8*i + j]] scaled by [1.0] when
    the element is solid and by [epsk] when it is void.  Rows and columns
    are below [G], and the three arrays have [64*N] entries each. *)
Theorem coo_layout (Ny : nat) (epsk : float) (Kevec : list float) (x : list bool)
    (e i j : nat) :
  length Kevec = 64 -> length x = N_of Ny -> e < N_of Ny -> i < 8 -> j < 8 ->
  exists (nodes : list nat) (b : bool),
    inci Ny !! e = Some nodes /\ x !! e = Some b /\
    coo_row Ny !! (64 * e + 8 * i + j) = Some (2 * (nodes !!! (i / 2)) + i mod 2) /\
    coo_col Ny !! (64 * e + 8 * i + j) = Some (2 * (nodes !!! (j / 2)) + j mod 2) /\
    coo_data epsk Kevec x !! (64 * e + 8 * i + j)
    = Some ((if b then 1%float else epsk) * (Kevec !!! (8 * i + j)%nat))%float /\
    2 * (nodes !!! (i / 2)) + i mod 2 < G_of Ny /\
    2 * (nodes !!! (j / 2)) + j mod 2 < G_of Ny /\
    length (coo_row Ny) = 64 * N_of Ny /\ length (coo_col Ny) = 64 * N_of Ny /\
    length (coo_data epsk Kevec x) = 64 * N_of Ny.
Proof.
  intros HK Hx He Hi Hj.
  pose proof (Mesh.inci_lookup Ny e He) as Hinci.
  destruct (lookup_lt_is_Some_2 x e ltac:(lia)) as [b Hb].
  eexists _, b. split; [exact Hinci|]. split; [exact Hb|].
  split; [exact (Assembly.coo_row_lookup Ny e i j _ Hinci Hi Hj)|].
  split; [exact (Assembly.coo_col_lookup Ny e i j _ Hinci Hi Hj)|].
  split.
  { replace (64 * e + 8 * i + j) with (64 * e + (8 * i + j)) by lia.
    apply Assembly.coo_data_lookup; [exact HK|exact Hb|lia]. }
  assert (HNy : Ny <> 0) by (intros ->; cbn in He; lia).
  assert (Hr : e mod Ny < Ny) by (apply Nat.mod_upper_bound; exact HNy).
  assert (Hc : e / Ny < Nx_of Ny).
  { apply Nat.Div0.div_lt_upper_bound. unfold N_of in He. lia. }
  assert (Hdm : e = Ny * (e / Ny) + e mod Ny) by (apply Nat.div_mod_eq).
  assert (Hbound : forall t, t < 8 ->
            2 * ([e + e / Ny; e + e / Ny + Ny + 1; e + e / Ny + Ny + 2; e + e / Ny + 1]
                 !!! (t / 2)) + t mod 2 < G_of Ny).
  { intros t Ht.
    assert (Hnodes : Forall (fun n => n < (Nx_of Ny + 1) * (Ny + 1))
              [e + e / Ny; e + e / Ny + Ny + 1; e + e / Ny + Ny + 2; e + e / Ny + 1]).
    { repeat constructor; nia. }
    assert (Hq : t / 2 < 4) by (apply Nat.Div0.div_lt_upper_bound; lia).
    pose proof (Forall_lookup_total_1 _ _ (t / 2) Hnodes Hq) as Hn. cbv beta in Hn.
    pose proof (Nat.mod_upper_bound t 2 ltac:(lia)). unfold G_of. nia. }
  split; [apply Hbound; exact Hi|]. split; [apply Hbound; exact Hj|].
  destruct (Assembly.coo_lengths Ny) as [Hrow Hcol].
  split; [exact Hrow|]. split; [exact Hcol|].
  rewrite Assembly.coo_data_length by exact HK. lia.
Qed.

Lemma coo_layout_witness :
  exists (nodes : list nat) (b : bool),
    inci 2 !! 5 = Some nodes /\ replicate 8 true !! 5 = Some b /\
    coo_row 2 !! (64 * 5 + 8 * 3 + 6) = Some (2 * (nodes !!! (3 / 2)) + 3 mod 2) /\
    coo_col 2 !! (64 * 5 + 8 * 3 + 6) = Some (2 * (nodes !!! (6 / 2)) + 6 mod 2) /\
    coo_data 1e-6 (float_of_nat <$> seq 0 64) (replicate 8 true) !! (64 * 5 + 8 * 3 + 6)
    = Some ((if b then 1%float else 1e-6%float) * ((float_of_nat <$> seq 0 64) !!! (8 * 3 + 6)%nat))%float /\
    2 * (nodes !!! (3 / 2)) + 3 mod 2 < G_of 2 /\
    2 * (nodes !!! (6 / 2)) + 6 mod 2 < G_of 2 /\
    length (coo_row 2) = 64 * N_of 2 /\ length (coo_col 2) = 64 * N_of 2 /\
    length (coo_data 1e-6 (float_of_nat <$> seq 0 64) (replicate 8 true)) = 64 * N_of 2.
Proof.
  apply (coo_layout 2 1e-6 (float_of_nat <$> seq 0 64) (replicate 8 true) 5 3 6);
    [reflexivity|reflexivity|vm_compute; lia|lia|lia].
Defined.

(** * Multiplying by one *)

Module FloatMul.
Local Open Scope Z_scope.

Lemma shr_1_even (k : positive) :
  shr_1 {| shr_m := Zpos k~0; shr_r := false; shr_s := false |}
  = {| shr_m := Zpos k; shr_r := false; shr_s := false |}.
Proof. reflexivity. Qed.

Lemma iter_shr_exact (p : positive) : forall k : positive,
  SpecFloat.iter_pos shr_1 p
    {| shr_m := Zpos k * 2 ^ Zpos p; shr_r := false; shr_s := false |}
  = {| shr_m := Zpos k; shr_r := false; shr_s := false |}.
Proof.
  induction p as [p IH|p IH|]; intros k; cbn [SpecFloat.iter_pos].
  - rewrite FloatFacts.pow2_xI.
    assert (Hq : exists q, 2 ^ Z.pos p = Zpos q).
    { assert (0 < 2 ^ Z.pos p) by (apply Z.pow_pos_nonneg; lia).
      destruct (2 ^ Z.pos p) as [|q|q]; try lia. exists q. reflexivity. }
    destruct Hq as [q Eq].
    replace (Z.pos k * (2 * (2 ^ Z.pos p * 2 ^ Z.pos p))) with (Zpos ((k * q * q)~0))
      by (rewrite Eq; lia).
    rewrite shr_1_even.
    replace (Zpos (k * q * q)) with (Zpos (k * q) * 2 ^ Zpos p) by (rewrite Eq; lia).
    rewrite IH.
    replace (Zpos (k * q)) with (Zpos k * 2 ^ Zpos p) by (rewrite Eq; lia).
    apply IH.
  - rewrite FloatFacts.pow2_xO.
    assert (Hq : exists q, 2 ^ Z.pos p = Zpos q).
    { assert (0 < 2 ^ Z.pos p) by (apply Z.pow_pos_nonneg; lia).
      destruct (2 ^ Z.pos p) as [|q|q]; try lia. exists q. reflexivity. }
    destruct Hq as [q Eq].
    replace (Z.pos k * (2 ^ Z.pos p * 2 ^ Z.pos p)) with (Zpos (k * q) * 2 ^ Zpos p)
      by (rewrite Eq; lia).
    rewrite IH.
    replace (Zpos (k * q)) with (Zpos k * 2 ^ Zpos p) by (rewrite Eq; lia).
    apply IH.
  - rewrite Z.pow_1_r. replace (Z.pos k * 2) with (Zpos k~0) by lia. apply shr_1_even.
Qed.

Lemma binary_round_aux_one (s : bool) (m : positive) (e : Z) :
  bounded prec emax m e = true ->
  binary_round_aux prec emax s (Zpos (4503599627370496 * m)) (-52 + e) loc_Exact
  = S754_finite s m e.
Proof.
  unfold bounded, canonical_mantissa, fexp, SpecFloat.emin, prec, emax.
  intros Hb. apply andb_prop in Hb. destruct Hb as [Hcan Hemax].
  apply Z.eqb_eq in Hcan. apply Z.leb_le in Hemax.
  pose proof (FloatFacts.digits2_pos_bounds m) as Hd.
  remember (Zpos (digits2_pos m)) as d eqn:Ed.
  assert (Hd1 : 1 <= d) by lia.
  assert (Hpd : 0 < 2 ^ (d - 1)) by (apply Z.pow_pos_nonneg; lia).
  assert (HP : Zpos (4503599627370496 * m) = Zpos m * 2 ^ 52) by (cbn; lia).
  assert (HdP : Zdigits2 (Zpos (4503599627370496 * m)) = d + 52).
  { rewrite HP. apply Z.le_antisymm.
    - apply FloatFacts.Zdigits2_upper; [lia|lia|].
      rewrite Z.pow_add_r by lia. nia.
    - replace (d + 52) with ((d - 1 + 52) + 1) by lia.
      apply FloatFacts.Zdigits2_lower; [lia|]. rewrite Z.pow_add_r by lia. nia. }
  unfold binary_round_aux, shr_fexp, fexp, SpecFloat.emin, prec, emax.
  rewrite HdP.
  replace (Z.max (d + 52 + (-52 + e) - 53) (3 - 1024 - 53) - (-52 + e)) with 52 by lia.
  rewrite HP. cbn [shr_record_of_loc shr].
  rewrite (iter_shr_exact 52 m).
  cbn [shr_m loc_of_shr_record round_nearest_even shr_record_of_loc].
  change (Zdigits2 (Z.pos m)) with (Zpos (digits2_pos m)). rewrite <- Ed.
  replace (-52 + e + 52) with e by lia.
  replace (Z.max (d + e - 53) (3 - 1024 - 53) - e) with 0 by lia.
  cbn [shr shr_m].
  replace (e <=? 1024 - 53) with true by (symmetry; apply Z.leb_le; lia).
  reflexivity.
Qed.

Lemma SFmul_one (y : spec_float) :
  valid_binary y = true ->
  SF64mul (S754_finite false 4503599627370496 (-52)) y = y.
Proof.
  intros Hv. destruct y as [s|s| |s m e]; try reflexivity.
  unfold SF64mul, SFmul. cbn [xorb]. apply binary_round_aux_one. exact Hv.
Qed.

(** [1.0 * v] is [v], for every binary64 value. *)
Lemma mul_one (v : float) : (1 * v)%float = v.
Proof.
  apply Prim2SF_inj. rewrite FloatAxioms.mul_spec.
  change (Prim2SF 1) with (S754_finite false 4503599627370496 (-52)).
  apply SFmul_one, Prim2SF_valid.
Qed.

End FloatMul.

(** * The stiffness data follows the topology *)

(** [data[64*e:64*(e+1)] = blk] for a block of 64 values; numpy refuses
    the assignment when the slice is cut short by the end of the array. *)
Definition set_block (e : nat) (blk data : list float) : result (list float) :=
  if decide (64 * (e + 1) <= length data) then
    Ok (take (64 * e) data ++ blk ++ drop (64 * (e + 1)) data)
  else Err ValueError.

(** The writes to [Kg_coo.data] go with the factor updates (lines 465,
    503-504): [epsk*Kevec] where an element is taken out, [Kevec] where one
    is put in. *)
Fixpoint write_data (epsk : float) (Kevec : list float) (log : factor_log)
    (data : list float) : result (list float) :=
  match log with
  | [] => Ok data
  | u :: log' =>
      do d <- set_block u.1
                (if u.2 then (fun k => (epsk * k)%float) <$> Kevec else Kevec) data ;
      write_data epsk Kevec log' d
  end.

Module StiffnessData.

Section Blocks.

Variable epsk : float.
Variable Kevec : list float.
Hypothesis HK : length Kevec = 64.

Definition block (b : bool) : list float :=
  (fun k => ((if b then 1 else epsk) * k)%float) <$> Kevec.

Lemma block_length (b : bool) : length (block b) = 64.
Proof. unfold block. rewrite length_fmap. exact HK. Qed.

Lemma zip_replicate (p : float) (l : list float) (n : nat) :
  length l = n -> zip_with PrimFloat.mul (replicate n p) l = (fun k => (p * k)%float) <$> l.
Proof.
  revert n. induction l as [|a l IH]; intros [|n] Hn; try discriminate Hn; [reflexivity|].
  cbn. f_equal. apply IH. cbn in Hn. lia.
Qed.

Lemma coo_data_blocks (x : list bool) :
  coo_data epsk Kevec x = concat (block <$> x).
Proof.
  unfold coo_data, Np.repeat, Np.tile.
  induction x as [|b x IH]; [reflexivity|].
  cbn [fmap list_fmap length].
  change (replicate (S (length x)) Kevec) with (Kevec :: replicate (length x) Kevec).
  cbn [concat].
  rewrite zip_with_app by (rewrite length_replicate; lia).
  rewrite IH. f_equal. unfold block. apply zip_replicate. exact HK.
Qed.

Lemma concat_insert (blocks : list (list float)) : forall (e : nat) (blk : list float),
  Forall (fun r => length r = 64) blocks -> e < length blocks ->
  take (64 * e) (concat blocks) ++ blk ++ drop (64 * (e + 1)) (concat blocks)
  = concat (<[e := blk]> blocks).
Proof.
  induction blocks as [|r blocks IH]; intros e blk Hall He; [cbn in He; lia|].
  apply Forall_cons in Hall. destruct Hall as [Hr Hall].
  destruct e as [|e].
  - cbn [concat]. change (64 * 0) with 0. rewrite take_0.
    change (64 * (0 + 1)) with 64. rewrite drop_app_length' by (symmetry; exact Hr). reflexivity.
  - cbn [concat]. change (<[S e := blk]> (r :: blocks)) with (r :: <[e := blk]> blocks).
    cbn [concat].
    replace (64 * S e) with (length r + 64 * e) by lia.
    replace (64 * (S e + 1)) with (length r + 64 * (e + 1)) by lia.
    rewrite take_app_add, drop_app_add, <- app_assoc. f_equal.
    apply IH; [exact Hall|cbn in He; lia].
Qed.

Lemma blocks_uniform (x : list bool) : Forall (fun r => length r = 64) (block <$> x).
Proof. apply Forall_fmap, Forall_forall. intros b _. apply block_length. Qed.

Lemma coo_data_length' (x : list bool) : length (coo_data epsk Kevec x) = 64 * length x.
Proof.
  rewrite coo_data_blocks, (NpFacts.length_concat 64), length_fmap by apply blocks_uniform.
  lia.
Qed.

(** One write keeps the data equal to a fresh assembly. *)
Lemma set_block_coo (x : list bool) (e : nat) (b : bool) :
  e < length x ->
  set_block e (if b then Kevec else (fun k => (epsk * k)%float) <$> Kevec)
    (coo_data epsk Kevec x)
  = Ok (coo_data epsk Kevec (<[e := b]> x)).
Proof.
  intros He. unfold set_block.
  destruct (decide (64 * (e + 1) <= length (coo_data epsk Kevec x))) as [_|Hn].
  2:{ rewrite coo_data_length' in Hn. lia. }
  f_equal. rewrite !coo_data_blocks, list_fmap_insert.
  rewrite <- concat_insert; [|apply blocks_uniform|rewrite length_fmap; exact He].
  f_equal. f_equal. destruct b; unfold block; [|reflexivity].
  symmetry. rewrite <- (list_fmap_id Kevec) at 2. apply list_fmap_ext.
  intros i k _. apply FloatMul.mul_one.
Qed.

Lemma write_data_replay (log : factor_log) : forall x : list bool,
  genuine log x ->
  write_data epsk Kevec log (coo_data epsk Kevec x)
  = Ok (coo_data epsk Kevec (replay log x)).
Proof.
  induction log as [|[e sub] log IH]; intros x Hgen; [reflexivity|].
  cbn [genuine fst snd] in Hgen. destruct Hgen as [He Hgen].
  cbn [write_data fst snd].
  pose proof (set_block_coo x e (negb sub) (lookup_lt_Some _ _ _ He)) as Hset.
  destruct sub; cbn [negb] in Hset; rewrite Hset; cbn [bind]; apply IH; exact Hgen.
Qed.

End Blocks.

End StiffnessData.

Section DataRun.

Variable argsort : list float -> list nat.
Hypothesis argsort_perm : forall v, argsort v ≡ₚ seq 0 (length v).
Variable N : nat.
Variable ld_ele : list nat.
Hypothesis HN : 2 <= N.
Variable epsk : float.
Variable Kevec : list float.
Hypothesis HK : length Kevec = 64.

(** X8: the COO data edited in place during the run is, at every state the
    loop reaches, the data a fresh assembly of the current topology would
    give: applying the writes issued so far to the data assembled for the
    all-solid mesh succeeds (every written slice is inside the array) and
    yields [pen*tile(Kevec)] for the current [x]. *)
Theorem stiffness_data_tracks_topology (os : list oracle)
    (leftover : option (list bool)) (s : state) :
  run argsort N ld_ele os (init_state N leftover) = Ok s ->
  write_data epsk Kevec (factor s) (coo_data epsk Kevec (replicate N true))
  = Ok (coo_data epsk Kevec (x s)).
Proof.
  intros Hrun.
  destruct (Bookkeeping.factor_tracks_topology argsort argsort_perm N ld_ele HN
              os leftover s Hrun) as [Hrep Hgen].
  rewrite <- Hrep. apply StiffnessData.write_data_replay; [exact HK|exact Hgen].
Qed.

End DataRun.

Lemma stiffness_data_tracks_topology_witness :
  run insertion_argsort 8 [6; 7] (replicate 24 demo_oracle) (init_state 8 None)
    = Ok demo_halt /\
  write_data 1e-6 (float_of_nat <$> seq 0 64) (factor demo_halt)
    (coo_data 1e-6 (float_of_nat <$> seq 0 64) (replicate 8 true))
  = Ok (coo_data 1e-6 (float_of_nat <$> seq 0 64) (x demo_halt)).
Proof.
  split; [exact demo_run24|].
  exact (stiffness_data_tracks_topology insertion_argsort Argsort.insertion_argsort_perm
           8 [6; 7] ltac:(lia) 1e-6%float (float_of_nat <$> seq 0 64) eq_refl
           (replicate 24 demo_oracle) None demo_halt demo_run24).
Defined.

(** * The rank-k update of one element (lines 466-493) *)

(** The names of the four square roots of the stiffness variation: of the
    whole element matrix, and of its restrictions to the degrees of freedom
    left when node 0, node 3 or both are constrained (lines 89-106).  The
    matrices themselves are [factor_matrix], further down. *)
Inductive hmat := H | H_01 | H_67 | H_0167.

Definition element_nodes (Ny e : nat) : list nat :=
  let n0 := e + e / Ny in
  let n1 := n0 + Ny + 1 in
  let n2 := n1 + 1 in
  let n3 := n0 + 1 in
  [n0; n1; n2; n3].

(** [(nodes < bc_lim[0]) | (nodes > bc_lim[1])]. *)
Definition free_nodes (bc_lim : nat * nat) (nodes : list nat) : list bool :=
  (fun n => (n <? bc_lim.1) || (bc_lim.2 <? n)) <$> nodes.

(** [gv]: the free nodes renumbered past the constrained ones, two degrees
    of freedom each. *)
Definition gv_of (bc_lim : nat * nat) (nodes : list nat) : list nat :=
  let nodes := select nodes (free_nodes bc_lim nodes) in
  let nodes :=
    (fun n => if bc_lim.2 <? n then n - (bc_lim.2 - bc_lim.1 + 1) else n) <$> nodes in
  let gv := Np.repeat 2 ((fun n => 2 * n) <$> nodes) in
  imap (fun i g => if Nat.odd i then g + 1 else g) gv.

(** The choice of the factor and of [rank]. *)
Definition choose_H (freeNodes : list bool) : hmat * nat :=
  if forallb id freeNodes then (H, 5)
  else if negb (freeNodes !!! 0) && (freeNodes !!! (length freeNodes - 1))
  then (H_01, 5)
  else if (freeNodes !!! 0) && negb (freeNodes !!! (length freeNodes - 1))
  then (H_67, 5)
  else (H_0167, 4).

(** Rows and columns of the COO matrix handed to [update_inplace]. *)
Definition hrow (gv : list nat) (rank : nat) : list nat := Np.repeat rank gv.
Definition hcol (gv : list nat) (rank : nat) : list nat :=
  Np.tile (seq 0 rank) (length gv).

Module ElementUpdate.

Lemma gv_length (bc_lim : nat * nat) (nodes : list nat) :
  length (gv_of bc_lim nodes) = 2 * sum_bool (free_nodes bc_lim nodes).
Proof.
  unfold gv_of. rewrite length_imap, NpFacts.repeat_length, !length_fmap.
  assert (Hsel : forall (l : list nat) (m : list bool),
            length l = length m -> length (select l m) = sum_bool m).
  { induction l as [|a l IH]; intros [|b m] Hlen; try discriminate Hlen; [reflexivity|].
    cbn in Hlen. destruct b; cbn; rewrite IH by lia; reflexivity. }
  rewrite Hsel; [lia|]. unfold free_nodes. rewrite length_fmap. reflexivity.
Qed.

(** In the first column of elements only the two left nodes can be
    constrained; elsewhere none. *)
Lemma free_nodes_cases (Ny lo hi e : nat) :
  hi <= Ny ->
  exists f0 f3, free_nodes (lo, hi) (element_nodes Ny e) = [f0; true; true; f3].
Proof.
  intros Hhi. unfold free_nodes, element_nodes. cbn [fmap list_fmap fst snd].
  exists ((e + e / Ny <? lo) || (hi <? e + e / Ny)),
         ((e + e / Ny + 1 <? lo) || (hi <? e + e / Ny + 1)).
  f_equal. f_equal; [|f_equal].
  - replace (hi <? e + e / Ny + Ny + 1) with true by (symmetry; apply Nat.ltb_lt; lia).
    apply orb_true_r.
  - replace (hi <? e + e / Ny + Ny + 1 + 1) with true by (symmetry; apply Nat.ltb_lt; lia).
    apply orb_true_r.
Qed.

End ElementUpdate.

Module Reduced.

Lemma bc_lim_inv (p : params) (su : setup) :
  boundary_conditions p = Ok su -> first_last (s_bc_ids su) = Ok (s_bc_lim su).
Proof.
  unfold boundary_conditions, esize. intros H. cbv zeta in *.
  set (Ny := p_Ny p) in *.
  destruct (decide (Ny = 0)) as [|HNy]; [discriminate H|]. cbn [bind] in H.
  destruct (decide (sum_bool _ < 2)) as [|Hbc]; [discriminate H|].
  destruct (first_last (select (seq 0 (Ny + 1)) _)) as [bc_lim|] eqn:Hfl;
    [|discriminate H].
  cbn [bind] in H.
  destruct (first_last (select (seq ((Nx_of Ny - 1) * Ny) Ny) _)) as [ld_lim|];
    [|discriminate H].
  cbn [bind] in H. injection H as <-.
  cbn [s_bc_ids s_bc_lim]. exact Hfl.
Qed.

Lemma bc_ids_facts (p : params) (su : setup) :
  boundary_conditions p = Ok su ->
  NoDup (s_bc_ids su) /\ (forall i, i ∈ s_bc_ids su -> i <= p_Ny p) /\
  2 <= length (s_bc_ids su) <= p_Ny p + 1.
Proof.
  intros H.
  destruct (Boundary.boundary_conditions_inv p su H)
    as (es & HNy & _ & _ & Hmask & Hsum & _).
  destruct (Loads.boundary_conditions_dofs p su H) as (Hids & _).
  cbv zeta in *. rewrite Hids.
  assert (Hlen : length (s_bc_mask su) = p_Ny p + 1).
  { rewrite Hmask. unfold band_mask, bc_ycoor.
    rewrite length_fmap, length_take, length_fmap. unfold coor.
    rewrite length_fmap, length_seq. nia. }
  split; [apply ArrayFacts.select_NoDup, NoDup_seq|]. split.
  - intros i Hi. apply ArrayFacts.select_elem in Hi. destruct Hi as (k & Hk & _).
    apply lookup_seq in Hk. lia.
  - rewrite ArrayFacts.select_length by (rewrite length_seq; lia).
    pose proof (ArrayFacts.sum_bool_le (s_bc_mask su)). lia.
Qed.

Lemma bc_dofs_NoDup (ids : list nat) :
  NoDup ids ->
  NoDup (((fun i => 2 * i) <$> ids) ++ ((fun i => 2 * i + 1) <$> ids)).
Proof.
  intros Hnd. apply NoDup_app. split; [|split].
  - apply NoDup_fmap_2; [intros a b; lia|exact Hnd].
  - intros d Hd Hd'. apply list_elem_of_fmap in Hd, Hd'.
    destruct Hd as (a & -> & _), Hd' as (b & Hab & _). lia.
  - apply NoDup_fmap_2; [intros a b; lia|exact Hnd].
Qed.

End Reduced.

(** X10: the reduced system has [G - 2n] unknowns, where [n] is the number
    of constrained nodes, between 2 and [Ny + 1]; the mask of free degrees
    of freedom has [G] entries and the reduced load vector one entry per
    unknown. *)
Theorem reduced_system_size (p : params) (su : setup) :
  boundary_conditions p = Ok su ->
  let Ny := p_Ny p in
  let n := length (s_bc_ids su) in
  2 <= n <= Ny + 1 /\
  length (s_freeDofs su) = G_of Ny /\
  sum_bool (s_freeDofs su) + 2 * n = G_of Ny /\
  length (s_fr su) = sum_bool (s_freeDofs su).
Proof.
  intros H Ny n.
  destruct (Reduced.bc_ids_facts p su H) as (Hnd & Hle & Hn).
  destruct (Loads.boundary_conditions_dofs p su H) as (_ & Hfree & Hfr).
  destruct (Loads.boundary_load_weights p su H) as (_ & _ & Hfg & _).
  cbv zeta in *. fold Ny in Hfree, Hfg, Hle, Hn.
  assert (Hlen : length (s_freeDofs su) = G_of Ny).
  { rewrite Hfree, ArrayFacts.assign_length, length_replicate. reflexivity. }
  split; [exact Hn|]. split; [exact Hlen|]. split.
  - pose proof (ArrayFacts.sum_bool_assign_false
                  (((fun i => 2 * i) <$> s_bc_ids su)
                   ++ ((fun i => 2 * i + 1) <$> s_bc_ids su))
                  (replicate (G_of Ny) true)
                  (Reduced.bc_dofs_NoDup _ Hnd)) as Hsum.
    rewrite <- Hfree in Hsum.
    rewrite length_app, !length_fmap, ArrayFacts.sum_bool_replicate_true in Hsum.
    fold n in Hsum. rewrite <- Hsum; [lia|].
    intros d Hd. apply lookup_replicate_2.
    apply elem_of_app in Hd. unfold G_of, Nx_of.
    destruct Hd as [Hd|Hd]; apply list_elem_of_fmap in Hd;
      destruct Hd as (i & -> & Hi); specialize (Hle i Hi); nia.
  - rewrite Hfr. apply ArrayFacts.select_length. rewrite Hlen, Hfg. lia.
Qed.

Lemma reduced_system_size_witness :
  let n := length (s_bc_ids demo_setup) in
  2 <= n <= 2 + 1 /\
  length (s_freeDofs demo_setup) = G_of 2 /\
  sum_bool (s_freeDofs demo_setup) + 2 * n = G_of 2 /\
  length (s_fr demo_setup) = sum_bool (s_freeDofs demo_setup).
Proof. exact (reduced_system_size demo_params demo_setup demo_boundary). Defined.

Module Positions.

Lemma select_app {A} (a1 a2 : list A) (m1 m2 : list bool) :
  length a1 = length m1 ->
  select (a1 ++ a2) (m1 ++ m2) = select a1 m1 ++ select a2 m2.
Proof.
  revert m1. induction a1 as [|a a1 IH]; intros [|b m1] Hlen; try discriminate Hlen.
  - reflexivity.
  - cbn in Hlen. cbn. destruct b; rewrite IH by lia; reflexivity.
Qed.

Lemma select_true {A} (l : list A) (n : nat) :
  length l = n -> select l (replicate n true) = l.
Proof.
  intros <-. induction l as [|a l IH]; [reflexivity|]. cbn. rewrite IH. reflexivity.
Qed.

Lemma select_false {A} (l : list A) (n : nat) :
  length l = n -> select l (replicate n false) = [].
Proof. intros <-. induction l as [|a l IH]; [reflexivity|]. cbn. exact IH. Qed.

(** The mask of free degrees of freedom when the constrained nodes are
    [lo], ..., [hi]. *)
Lemma freeDofs_contiguous (G lo hi : nat) :
  lo <= hi -> 2 * hi + 2 <= G ->
  assign (((fun i => 2 * i) <$> seq lo (hi - lo + 1))
          ++ ((fun i => 2 * i + 1) <$> seq lo (hi - lo + 1)))
    false (replicate G true)
  = replicate (2 * lo) true ++ replicate (2 * (hi - lo + 1)) false
    ++ replicate (G - 2 * hi - 2) true.
Proof.
  intros Hlo Hhi. apply list_eq. intros d.
  set (ids := ((fun i => 2 * i) <$> seq lo (hi - lo + 1))
              ++ ((fun i => 2 * i + 1) <$> seq lo (hi - lo + 1))).
  assert (Hin : d ∈ ids <-> 2 * lo <= d < 2 * hi + 2).
  { unfold ids. rewrite elem_of_app, !list_elem_of_fmap. split.
    - intros [(i & -> & Hi)|(i & -> & Hi)]; apply elem_of_seq in Hi; lia.
    - intros Hd. destruct (Nat.even d) eqn:Hev.
      + left. exists (d / 2). apply Nat.even_spec in Hev. destruct Hev as [k ->].
        replace (2 * k / 2) with k by (rewrite Nat.mul_comm, Nat.div_mul; lia).
        split; [reflexivity|apply elem_of_seq; lia].
      + right. exists (d / 2).
        assert (Hodd : Nat.odd d = true) by (rewrite <- Nat.negb_even, Hev; reflexivity).
        apply Nat.odd_spec in Hodd. destruct Hodd as [k ->].
        replace ((2 * k + 1) / 2) with k
          by (apply (Nat.div_unique _ _ k 1); lia).
        split; [reflexivity|apply elem_of_seq; lia]. }
  destruct (decide (2 * lo <= d < 2 * hi + 2)) as [Hmid|Hout].
  - rewrite ArrayFacts.assign_lookup_eq;
      [|apply Hin; exact Hmid|rewrite length_replicate; lia].
    rewrite lookup_app_r by (rewrite length_replicate; lia).
    rewrite length_replicate, lookup_app_l by (rewrite length_replicate; lia).
    symmetry. apply lookup_replicate_2. lia.
  - rewrite ArrayFacts.assign_lookup_ne by (rewrite Hin; exact Hout).
    destruct (decide (d < 2 * lo)) as [Hlt|Hge].
    + rewrite lookup_app_l by (rewrite length_replicate; lia).
      rewrite !lookup_replicate_2 by lia. reflexivity.
    + rewrite lookup_app_r by (rewrite length_replicate; lia).
      rewrite lookup_app_r by (rewrite !length_replicate; lia).
      rewrite !length_replicate.
      destruct (decide (d < G)) as [HdG|HdG].
      * rewrite !lookup_replicate_2 by lia. reflexivity.
      * rewrite !lookup_ge_None_2 by (rewrite length_replicate; lia). reflexivity.
Qed.

Lemma argwhere_contiguous (G lo hi : nat) :
  lo <= hi -> 2 * hi + 2 <= G ->
  argwhere (replicate (2 * lo) true ++ replicate (2 * (hi - lo + 1)) false
            ++ replicate (G - 2 * hi - 2) true)
  = seq 0 (2 * lo) ++ seq (2 * hi + 2) (G - 2 * hi - 2).
Proof.
  intros Hlo Hhi. unfold argwhere.
  rewrite !length_app, !length_replicate.
  replace (2 * lo + (2 * (hi - lo + 1) + (G - 2 * hi - 2)))
    with (2 * lo + (2 * (hi - lo + 1) + (G - 2 * hi - 2))) by reflexivity.
  rewrite !seq_app.
  rewrite select_app by (rewrite length_seq, length_replicate; reflexivity).
  rewrite select_app by (rewrite length_seq, length_replicate; reflexivity).
  rewrite !select_true, select_false by apply length_seq.
  cbn [app]. f_equal. f_equal. lia.
Qed.

Lemma gv_flat (lo hi : nat) (nodes : list nat) :
  gv_of (lo, hi) nodes
  = flat_map (fun n => let r := if hi <? n then n - (hi - lo + 1) else n in
                       [2 * r; 2 * r + 1])
      (select nodes (free_nodes (lo, hi) nodes)).
Proof.
  unfold gv_of. cbn [fst snd].
  generalize (select nodes (free_nodes (lo, hi) nodes)). intros l.
  induction l as [|n l IH]; [reflexivity|].
  cbn [fmap list_fmap flat_map]. unfold Np.repeat in *.
  cbn [fmap list_fmap concat replicate app].
  rewrite !imap_cons. cbn [Nat.odd Nat.even negb app]. f_equal. f_equal.
  rewrite <- IH. apply imap_ext. intros i g _. reflexivity.
Qed.

End Positions.

Section ReducedPositions.

Variable p : params.
Variable su : setup.
Hypothesis Hbc : boundary_conditions p = Ok su.

(** The constrained nodes are the nodes [lo], ..., [hi]. *)
Variables lo hi : nat.
Hypothesis Hlo : lo <= hi.
Hypothesis Hcontiguous : s_bc_ids su = seq lo (hi - lo + 1).

Let Ny := p_Ny p.

Lemma contiguous_lim : s_bc_lim su = (lo, hi) /\ hi <= Ny.
Proof.
  split.
  - pose proof (Reduced.bc_lim_inv p su Hbc) as Hfl. rewrite Hcontiguous in Hfl.
    unfold first_last, index_from_end, index in Hfl. rewrite length_seq in Hfl.
    rewrite lookup_seq_lt in Hfl by lia. cbn [bind] in Hfl.
    destruct (decide (0 < hi - lo + 1)) as [_|Hn]; [|lia].
    rewrite lookup_seq_lt in Hfl by lia. cbn [bind] in Hfl.
    injection Hfl as <-. f_equal; lia.
  - destruct (Reduced.bc_ids_facts p su Hbc) as (_ & Hle & _).
    apply Hle. rewrite Hcontiguous. apply elem_of_seq. lia.
Qed.

Lemma contiguous_freeDofs :
  s_freeDofs su
  = replicate (2 * lo) true ++ replicate (2 * (hi - lo + 1)) false
    ++ replicate (G_of Ny - 2 * hi - 2) true.
Proof.
  destruct (Loads.boundary_conditions_dofs p su Hbc) as (_ & Hfree & _).
  cbv zeta in Hfree. rewrite Hfree, Hcontiguous.
  destruct contiguous_lim as [_ Hhi].
  apply Positions.freeDofs_contiguous; [exact Hlo|]. fold Ny. unfold G_of, Nx_of. nia.
Qed.

Lemma contiguous_lookup (d : nat) :
  d < G_of Ny ->
  s_freeDofs su !! d = Some ((d <? 2 * lo) || (2 * hi + 1 <? d)).
Proof.
  intros Hd. rewrite contiguous_freeDofs.
  destruct contiguous_lim as [_ Hhi].
  assert (HG : 2 * hi + 2 <= G_of Ny) by (unfold G_of, Nx_of; nia).
  destruct (Nat.ltb_spec d (2 * lo)) as [H1|H1].
  - rewrite lookup_app_l by (rewrite length_replicate; lia).
    apply lookup_replicate_2. lia.
  - rewrite lookup_app_r by (rewrite length_replicate; lia). rewrite length_replicate.
    destruct (Nat.ltb_spec (2 * hi + 1) d) as [H2|H2].
    + rewrite lookup_app_r by (rewrite length_replicate; lia). rewrite length_replicate.
      apply lookup_replicate_2. lia.
    + rewrite lookup_app_l by (rewrite length_replicate; lia).
      apply lookup_replicate_2. lia.
Qed.

Lemma reduced_lookup (n : nat) :
  (n < lo \/ hi < n) -> 2 * n + 1 < G_of Ny ->
  let r := if hi <? n then n - (hi - lo + 1) else n in
  argwhere (s_freeDofs su) !! (2 * r) = Some (2 * n) /\
  argwhere (s_freeDofs su) !! (2 * r + 1) = Some (2 * n + 1).
Proof.
  intros Hfree Hn. cbv zeta.
  destruct contiguous_lim as [_ Hhi].
  assert (HG : 2 * hi + 2 <= G_of Ny) by (unfold G_of, Nx_of; nia).
  rewrite contiguous_freeDofs, Positions.argwhere_contiguous by assumption.
  destruct (Nat.ltb_spec hi n) as [H1|H1].
  - rewrite !lookup_app_r by (rewrite length_seq; lia). rewrite length_seq.
    rewrite !lookup_seq_lt by lia. split; f_equal; lia.
  - rewrite !lookup_app_l by (rewrite length_seq; lia).
    rewrite !lookup_seq_lt by lia. split; reflexivity.
Qed.

(** X11: when the constrained nodes are contiguous, [gv] holds the
    positions, in the reduced system, of the two degrees of freedom of each
    free node of the element: the renumbering by [bc_lim] agrees with the
    compression by the [freeDofs] mask, a node counts as free exactly when
    its degrees of freedom are unmasked, and every entry of [gv] is below
    [sys_size]. *)
Theorem gv_reduced_positions (e : nat) :
  e < N_of Ny ->
  let nodes := element_nodes Ny e in
  let fn := free_nodes (s_bc_lim su) nodes in
  let gv := gv_of (s_bc_lim su) nodes in
  (forall i n, nodes !! i = Some n ->
     exists b, fn !! i = Some b /\
               s_freeDofs su !! (2 * n) = Some b /\
               s_freeDofs su !! (2 * n + 1) = Some b) /\
  (fun g => argwhere (s_freeDofs su) !! g) <$> gv
  = Some <$> flat_map (fun n => [2 * n; 2 * n + 1]) (select nodes fn) /\
  Forall (fun g => g < sum_bool (s_freeDofs su)) gv.
Proof.
  intros He nodes fn gv.
  destruct contiguous_lim as [Hlim Hhi].
  assert (HNy : Ny <> 0) by (intros H0; rewrite H0 in He; cbn in He; lia).
  assert (Hr : e mod Ny < Ny) by (apply Nat.mod_upper_bound; exact HNy).
  assert (Hc : e / Ny < Nx_of Ny).
  { apply Nat.Div0.div_lt_upper_bound. unfold N_of in He. lia. }
  assert (Hdm : e = Ny * (e / Ny) + e mod Ny) by (apply Nat.div_mod_eq).
  assert (Hnodes : Forall (fun n => 2 * n + 1 < G_of Ny) nodes).
  { unfold nodes, element_nodes, G_of. repeat constructor; nia. }
  assert (Hpos : (fun g => argwhere (s_freeDofs su) !! g) <$> gv
                 = Some <$> flat_map (fun n => [2 * n; 2 * n + 1]) (select nodes fn)).
  { unfold gv, fn. rewrite Hlim, Positions.gv_flat.
    assert (Hsel : Forall (fun n => (n < lo \/ hi < n) /\ 2 * n + 1 < G_of Ny)
                     (select nodes (free_nodes (lo, hi) nodes))).
    { apply Forall_forall. intros n Hn. apply ArrayFacts.select_elem in Hn.
      destruct Hn as (i & Hi & Hmask). split.
      - unfold free_nodes in Hmask. rewrite list_lookup_fmap, Hi in Hmask.
        cbn in Hmask. injection Hmask as Hmask.
        apply orb_true_iff in Hmask. destruct Hmask as [H1|H1];
          apply Nat.ltb_lt in H1; lia.
      - exact (proj1 (Forall_lookup _ _) Hnodes i n Hi). }
    cbv zeta.
    induction Hsel as [|n l [Hfree Hn] _ IH]; [reflexivity|].
    cbn [flat_map]. rewrite !fmap_app, IH. f_equal.
    destruct (reduced_lookup n Hfree Hn) as [H0 H1]. cbv zeta in *.
    cbn [fmap list_fmap]. rewrite H0, H1. reflexivity. }
  split; [|split; [exact Hpos|]].
  - intros i n Hi. unfold fn, free_nodes. rewrite list_lookup_fmap, Hi, Hlim.
    cbn [fmap option_fmap option_map fst snd].
    pose proof (proj1 (Forall_lookup _ _) Hnodes i n Hi) as Hn. cbv beta in Hn.
    eexists. split; [reflexivity|].
    rewrite !contiguous_lookup by lia. split; f_equal.
    + destruct (Nat.ltb_spec n lo), (Nat.ltb_spec hi n),
        (Nat.ltb_spec (2 * n) (2 * lo)), (Nat.ltb_spec (2 * hi + 1) (2 * n));
        try reflexivity; lia.
    + destruct (Nat.ltb_spec n lo), (Nat.ltb_spec hi n),
        (Nat.ltb_spec (2 * n + 1) (2 * lo)), (Nat.ltb_spec (2 * hi + 1) (2 * n + 1));
        try reflexivity; lia.
  - apply Forall_forall. intros g Hg. apply list_elem_of_lookup in Hg.
    destruct Hg as [t Ht].
    apply (f_equal (fun l => l !! t)) in Hpos.
    rewrite !list_lookup_fmap, Ht in Hpos. cbn in Hpos.
    destruct (flat_map _ _ !! t) as [d|]; [|discriminate Hpos].
    cbn in Hpos. injection Hpos as Hpos.
    rewrite <- ArrayFacts.argwhere_length. exact (lookup_lt_Some _ _ _ Hpos).
Qed.

End ReducedPositions.

(** A four-row mesh held at its three middle nodes. *)
Definition partial_params : params := Params 4 0 0.25 0 0.125.

Definition partial_setup : setup :=
  Eval vm_compute in
    match boundary_conditions partial_params with
    | Ok su => su
    | Err _ => demo_setup
    end.

Lemma partial_boundary : boundary_conditions partial_params = Ok partial_setup.
Proof. vm_compute. reflexivity. Defined.

Lemma gv_reduced_positions_witness :
  s_bc_ids partial_setup = seq 1 (3 - 1 + 1) /\
  gv_of (s_bc_lim partial_setup) (element_nodes 4 3) = [10; 11; 12; 13; 2; 3] /\
  let nodes := element_nodes 4 3 in
  let fn := free_nodes (s_bc_lim partial_setup) nodes in
  let gv := gv_of (s_bc_lim partial_setup) nodes in
  (forall i n, nodes !! i = Some n ->
     exists b, fn !! i = Some b /\
               s_freeDofs partial_setup !! (2 * n) = Some b /\
               s_freeDofs partial_setup !! (2 * n + 1) = Some b) /\
  (fun g => argwhere (s_freeDofs partial_setup) !! g) <$> gv
  = Some <$> flat_map (fun n => [2 * n; 2 * n + 1]) (select nodes fn) /\
  Forall (fun g => g < sum_bool (s_freeDofs partial_setup)) gv.
Proof.
  split; [reflexivity|]. split; [reflexivity|].
  apply (gv_reduced_positions partial_params partial_setup partial_boundary 1 3);
    [lia|reflexivity|vm_compute; lia].
Defined.

(** * The records of a batch (lines 159-205, 376-386, 438-439, 577-580, 645-703) *)

(** Instances per output file (line 67). *)
Definition noptf : nat := 16.

(** The lists one output file is saved from.  [list_dis], [list_sen_0],
    [list_sen_1], [list_sen_2] and [list_sen_w] receive kernel arrays at the
    very places where [list_top] receives a topology, and [list_tim] wall
    clock times; they are left out. *)
Record logs := Logs {
  list_fid : list nat;
  list_inp : list (float * float * float * float);
  list_top_opt : list (list bool);
  list_obj_opt : list float;
  list_ptr2opt : list nat;
  list_ptr2inp : list nat;
  list_top : list (list bool);
  list_obj : list float;
  list_vol : list float
}.

Definition empty_logs : logs := Logs [] [] [] [] [] [] [] [] [].

(** [vol/N]: true division of two Python integers. *)
Definition fraction (vol : Z) (N : nat) : float :=
  (float_of_nat (Z.to_nat vol) / float_of_nat N)%float.

(** Lines 203-204. *)
Definition log_input (fid : nat) (p : params) (lg : logs) : logs :=
  {| list_fid := list_fid lg ++ [fid];
     list_inp := list_inp lg ++ [(bc_pos p, bc_rad p, ld_pos p, ld_rad p)];
     list_top_opt := list_top_opt lg; list_obj_opt := list_obj_opt lg;
     list_ptr2opt := list_ptr2opt lg; list_ptr2inp := list_ptr2inp lg;
     list_top := list_top lg; list_obj := list_obj lg; list_vol := list_vol lg |}.

(** Lines 378-380 and 578-580. *)
Definition log_result (v obj : float) (lg : logs) : logs :=
  {| list_fid := list_fid lg; list_inp := list_inp lg;
     list_top_opt := list_top_opt lg; list_obj_opt := list_obj_opt lg;
     list_ptr2opt := list_ptr2opt lg; list_ptr2inp := list_ptr2inp lg;
     list_top := list_top lg; list_obj := list_obj lg ++ [obj];
     list_vol := list_vol lg ++ [v] |}.

(** Lines 385-386 and 663-664. *)
Definition log_pointer (lg : logs) : logs :=
  {| list_fid := list_fid lg; list_inp := list_inp lg;
     list_top_opt := list_top_opt lg; list_obj_opt := list_obj_opt lg;
     list_ptr2opt := list_ptr2opt lg ++ [length (list_ptr2inp lg)];
     list_ptr2inp := list_ptr2inp lg;
     list_top := list_top lg; list_obj := list_obj lg; list_vol := list_vol lg |}.

(** Lines 438-439 and 647-648. *)
Definition log_topology (ptr : nat) (t : list bool) (lg : logs) : logs :=
  {| list_fid := list_fid lg; list_inp := list_inp lg;
     list_top_opt := list_top_opt lg; list_obj_opt := list_obj_opt lg;
     list_ptr2opt := list_ptr2opt lg; list_ptr2inp := list_ptr2inp lg ++ [ptr];
     list_top := list_top lg ++ [t]; list_obj := list_obj lg;
     list_vol := list_vol lg |}.

(** Lines 645-646. *)
Definition log_best (t : list bool) (obj : float) (lg : logs) : logs :=
  {| list_fid := list_fid lg; list_inp := list_inp lg;
     list_top_opt := list_top_opt lg ++ [t]; list_obj_opt := list_obj_opt lg ++ [obj];
     list_ptr2opt := list_ptr2opt lg; list_ptr2inp := list_ptr2inp lg;
     list_top := list_top lg; list_obj := list_obj lg; list_vol := list_vol lg |}.

(** How a batch ends: the outer loop runs out of inputs, an exception or
    [sys.exit()] stops the script, or a [while keep_going] loop is still
    running when the passes allowed to it are used up. *)
Inductive ending :=
| Done
| Raised (e : error)
| Unfinished.

Section Batch.

Variable argsort : list float -> list nat.
Variable k : kernels.

(** The input directory: [inp fid] is the content of [inp_<fid>.pckl], if
    the file exists. *)
Variable inp : nat -> option params.
Variable fid_lim : nat.

(** Passes allowed to each [while keep_going] loop. *)
Variable fuel : nat.

Fixpoint logged_loop (su : setup) (ptr : nat) (fuel : nat) (s : state) (lg : logs)
    : result (state * logs) :=
  match fuel with
  | O => Ok (s, lg)
  | S fuel' =>
      if keep_going s then
        let N := N_of (s_Ny su) in
        let lg := log_topology ptr (x s) lg in
        let o := observe argsort k su s in
        do s' <- iteration argsort N (s_ld_ele su) o s ;
        logged_loop su ptr fuel' s' (log_result (fraction (vol s') N) (o_obj o) lg)
      else Ok (s, lg)
  end.

(** One instance (lines 186-660); [None] when its loop is unfinished. *)
Definition logged_instance (fid : nat) (p : params) (ptr : nat) (lg : logs)
    (leftover : option (list bool)) : result (option (logs * option (list bool))) :=
  let lg := log_input fid p lg in
  do su <- boundary_conditions p ;
  let N := N_of (s_Ny su) in
  let s0 := init_state N leftover in
  let lg := log_result (fraction (vol s0) N) (k_compliance k su (x s0) (factor s0)) lg in
  let lg := log_pointer lg in
  do r <- logged_loop su ptr fuel s0 lg ;
  let '(s, lg) := r in
  if keep_going s then Ok None
  else match x_opt s with
       | None => Err NameError
       | Some t =>
           Ok (Some (log_topology ptr (x s) (log_best t (obj_opt s) lg), x_opt s))
       end.

(** [for counter in range(noptf)] (lines 182-660): the inputs of one file. *)
Fixpoint file_loop (counters : nat) (fid ptr : nat) (lg : logs)
    (leftover : option (list bool))
    : result (option (nat * logs * option (list bool))) :=
  match counters with
  | O => Ok (Some (fid, lg, leftover))
  | S counters' =>
      if fid_lim <=? fid then Ok (Some (fid, lg, leftover))
      else match inp fid with
           | None => Ok (Some (fid, lg, leftover))
           | Some p =>
               do r <- logged_instance fid p ptr lg leftover ;
               match r with
               | None => Ok None
               | Some (lg', leftover') =>
                   file_loop counters' (fid + 1) (ptr + 1) lg' leftover'
               end
           end
  end.

(** The outer [while] (lines 161-703), for at most [files] output files:
    the files saved so far and how the script ended. *)
Fixpoint batch (files : nat) (fid : nat) (leftover : option (list bool))
    (saved : list logs) : list logs * ending :=
  if (fid <? fid_lim) && bool_decide (is_Some (inp fid)) then
    match files with
    | O => (saved, Unfinished)
    | S files' =>
        match file_loop noptf fid 0 empty_logs leftover with
        | Err e => (saved, Raised e)
        | Ok None => (saved, Unfinished)
        | Ok (Some (fid', lg, leftover')) =>
            batch files' fid' leftover' (saved ++ [log_pointer lg])
        end
    end
  else (saved, Done).

End Batch.

(** ** What one loop and one instance add to the lists *)

(** The fraction of solid elements of a stored topology. *)
Definition ratio (t : list bool) : float :=
  fraction (Z.of_nat (sum_bool t)) (length t).

(** Pointer arrays of a file whose instances left [cs] records each:
    record [kk] belongs to the instance [owners cs !! kk], and the records
    of instance [i] start at [starts cs !! i]. *)
Definition owners (cs : list nat) : list nat :=
  concat (imap (fun i c => replicate c i) cs).
Definition starts (cs : list nat) : list nat :=
  (fun i => sum_list (take i cs)) <$> seq 0 (length cs).

Module Records.

Definition grow (lg : logs) (ptr : nat) (ts : list (list bool)) (vs os : list float)
    : logs :=
  {| list_fid := list_fid lg; list_inp := list_inp lg;
     list_top_opt := list_top_opt lg; list_obj_opt := list_obj_opt lg;
     list_ptr2opt := list_ptr2opt lg;
     list_ptr2inp := list_ptr2inp lg ++ replicate (length ts) ptr;
     list_top := list_top lg ++ ts; list_obj := list_obj lg ++ os;
     list_vol := list_vol lg ++ vs |}.

Lemma grow_nil (lg : logs) (ptr : nat) : grow lg ptr [] [] [] = lg.
Proof. destruct lg. unfold grow. cbn. rewrite !app_nil_r. reflexivity. Qed.

Lemma grow_cons (lg : logs) (ptr : nat) (t : list bool) (v o : float)
    (ts : list (list bool)) (vs os : list float) :
  grow (log_result v o (log_topology ptr t lg)) ptr ts vs os
  = grow lg ptr (t :: ts) (v :: vs) (o :: os).
Proof. destruct lg. unfold grow. cbn. rewrite <- !app_assoc. reflexivity. Qed.

Lemma ratio_state (N : nat) (s : state) :
  volume_inv N s -> fraction (vol s) N = ratio (x s).
Proof. intros (Hv & _ & Hlen). unfold ratio. rewrite Hv, Hlen. reflexivity. Qed.

Section Loop.

Variable argsort : list float -> list nat.
Variable k : kernels.
Variable su : setup.
Variable ptr : nat.

Let N := N_of (s_Ny su).

Lemma logged_loop_spec (fuel : nat) : forall s lg s' lg',
  logged_loop argsort k su ptr fuel s lg = Ok (s', lg') ->
  exists ts vs os,
    length vs = length ts /\ length os = length ts /\
    lg' = grow lg ptr ts vs os /\
    (keep_going s = true -> keep_going s' = false -> 1 <= length ts) /\
    ((forall v, argsort v ≡ₚ seq 0 (length v)) -> 2 <= N -> volume_inv N s ->
     volume_inv N s' /\
     ratio (x s) :: vs = (ratio <$> ts) ++ [ratio (x s')]).
Proof.
  induction fuel as [|fuel IH]; intros s lg s' lg' Hrun; cbn [logged_loop] in Hrun.
  - injection Hrun as <- <-. exists [], [], [].
    rewrite grow_nil. split; [reflexivity|]. split; [reflexivity|].
    split; [reflexivity|]. split; [intros Hk Hk'; congruence|].
    intros _ _ Hinv. split; [exact Hinv|reflexivity].
  - destruct (keep_going s) eqn:Hk.
    + fold N in Hrun.
      destruct (iteration argsort N (s_ld_ele su) (observe argsort k su s) s)
        as [s1|e] eqn:Hit; cbn [bind] in Hrun; [|discriminate Hrun].
      destruct (IH _ _ _ _ Hrun) as (ts & vs & os & Hvs & Hos & Hlg & _ & Hal).
      exists (x s :: ts), (fraction (vol s1) N :: vs),
             (o_obj (observe argsort k su s) :: os).
      split; [cbn; lia|]. split; [cbn; lia|].
      split; [rewrite Hlg; apply grow_cons|]. split; [intros; cbn; lia|].
      intros Hperm HN Hinv.
      pose proof (volume_inv_step argsort Hperm N (s_ld_ele su) HN _ s s1 Hinv Hit)
        as Hinv1.
      destruct (Hal Hperm HN Hinv1) as [Hinv' Heq].
      split; [exact Hinv'|].
      rewrite (ratio_state N s1 Hinv1). cbn [fmap list_fmap app]. f_equal. exact Heq.
    + injection Hrun as <- <-. exists [], [], [].
      rewrite grow_nil. split; [reflexivity|]. split; [reflexivity|].
      split; [reflexivity|]. split; [intros Hk'; congruence|].
      intros _ _ Hinv. split; [exact Hinv|reflexivity].
Qed.

(** The states are those of the loop without the lists. *)
Lemma logged_loop_state (fuel : nat) : forall s lg s' lg',
  logged_loop argsort k su ptr fuel s lg = Ok (s', lg') ->
  beso_loop argsort k su fuel s = Ok s'.
Proof.
  induction fuel as [|fuel IH]; intros s lg s' lg' Hrun;
    cbn [logged_loop beso_loop] in *.
  - injection Hrun as <- _. reflexivity.
  - destruct (keep_going s); [|injection Hrun as <- _; reflexivity].
    destruct (iteration argsort (N_of (s_Ny su)) (s_ld_ele su)
                (observe argsort k su s) s) as [s1|e]; cbn [bind] in *;
      [|discriminate Hrun].
    exact (IH _ _ _ _ Hrun).
Qed.

End Loop.

End Records.

Module Pointers.

Lemma sum_list_app (l1 l2 : list nat) :
  sum_list (l1 ++ l2) = sum_list l1 + sum_list l2.
Proof. induction l1 as [|a l1 IH]; [reflexivity|]. cbn. rewrite IH. lia. Qed.

Lemma owners_snoc (cs : list nat) (c : nat) :
  owners (cs ++ [c]) = owners cs ++ replicate c (length cs).
Proof.
  unfold owners. rewrite imap_app, concat_app. cbn [imap concat].
  rewrite app_nil_r, Nat.add_0_r. reflexivity.
Qed.

Lemma starts_snoc (cs : list nat) (c : nat) :
  starts (cs ++ [c]) = starts cs ++ [sum_list cs].
Proof.
  unfold starts. rewrite length_app. cbn [length].
  rewrite Nat.add_1_r, seq_S, fmap_app. cbn [fmap list_fmap Nat.add].
  f_equal.
  - apply list_fmap_ext. intros i j Hj. apply lookup_seq in Hj. destruct Hj as [-> Hlt].
    rewrite take_app_le by lia. reflexivity.
  - rewrite take_app_length. reflexivity.
Qed.

Lemma sum_take_le (cs : list nat) (i : nat) : sum_list (take i cs) <= sum_list cs.
Proof.
  rewrite <- (take_drop i cs) at 2. rewrite sum_list_app. lia.
Qed.

Lemma sum_take_S (cs : list nat) (i c : nat) :
  cs !! i = Some c -> sum_list (take (S i) cs) = sum_list (take i cs) + c.
Proof.
  intros Hi. rewrite (take_S_r _ _ _ Hi), sum_list_app. cbn. lia.
Qed.

Lemma owners_length (cs : list nat) : length (owners cs) = sum_list cs.
Proof.
  induction cs as [|c cs IH] using rev_ind; [reflexivity|].
  rewrite owners_snoc, length_app, length_replicate, IH, sum_list_app. cbn. lia.
Qed.

Lemma starts_length (cs : list nat) : length (starts cs) = length cs.
Proof. unfold starts. rewrite length_fmap, length_seq. reflexivity. Qed.

Lemma starts_lookup (cs : list nat) (i : nat) :
  i < length cs -> starts cs !! i = Some (sum_list (take i cs)).
Proof.
  intros Hi. unfold starts. rewrite list_lookup_fmap, lookup_seq_lt by exact Hi.
  reflexivity.
Qed.

(** Record [kk] belongs to instance [i] exactly when it lies between the
    start of instance [i] and the start of the next. *)
Lemma owners_lookup (cs : list nat) : forall kk i,
  owners cs !! kk = Some i <->
  i < length cs /\ sum_list (take i cs) <= kk < sum_list (take (S i) cs).
Proof.
  induction cs as [|c cs IH] using rev_ind; intros kk i.
  - cbn. split; [discriminate|]. intros [H _]. lia.
  - rewrite owners_snoc, length_app. cbn [length].
    destruct (decide (kk < sum_list cs)) as [Hlt|Hge].
    + rewrite lookup_app_l by (rewrite owners_length; exact Hlt).
      rewrite IH. split.
      * intros (Hi & Hlo & Hhi). split; [lia|].
        rewrite !take_app_le by lia. lia.
      * intros (Hi & Hlo & Hhi).
        destruct (decide (i < length cs)) as [Hi'|Hi'].
        -- split; [exact Hi'|]. rewrite !take_app_le in Hlo, Hhi by lia. lia.
        -- exfalso. replace i with (length cs) in Hlo by lia.
           rewrite take_app_length in Hlo. lia.
    + rewrite lookup_app_r by (rewrite owners_length; lia). rewrite owners_length.
      split.
      * intros Hrep. apply lookup_replicate in Hrep. destruct Hrep as [-> Hc].
        split; [lia|]. rewrite take_app_length.
        rewrite (take_ge (cs ++ [c])) by (rewrite length_app; cbn; lia).
        rewrite sum_list_app. cbn. lia.
      * intros (Hi & Hlo & Hhi).
        destruct (decide (i < length cs)) as [Hi'|Hi'].
        -- exfalso. rewrite take_app_le in Hhi by lia.
           pose proof (sum_take_le cs (S i)). lia.
        -- replace i with (length cs) in * by lia.
           rewrite (take_ge (cs ++ [c])) in Hhi by (rewrite length_app; cbn; lia).
           rewrite sum_list_app in Hhi. cbn in Hhi.
           apply lookup_replicate. split; [reflexivity|lia].
Qed.

End Pointers.

(** ** One instance, one file, the batch *)

(** The lists of a file after [m] instances, the first read from input
    [fid0]. *)
Definition file_inv (fid0 m : nat) (lg : logs) : Prop :=
  exists cs,
    length cs = m /\ Forall (fun c => 2 <= c) cs /\
    list_fid lg = seq fid0 m /\ length (list_inp lg) = m /\
    length (list_top_opt lg) = m /\ length (list_obj_opt lg) = m /\
    list_ptr2opt lg = starts cs /\ list_ptr2inp lg = owners cs /\
    length (list_top lg) = sum_list cs /\ length (list_obj lg) = sum_list cs /\
    length (list_vol lg) = sum_list cs.

(** Every stored volume fraction is that of the topology stored with it. *)
Definition aligned (lg : logs) : Prop := list_vol lg = ratio <$> list_top lg.

Module Instances.

Definition add_instance (lg : logs) (fid : nat) (p : params) (ptr : nat)
    (ts : list (list bool)) (vs os : list float) (tb : list bool) (ob : float) : logs :=
  {| list_fid := list_fid lg ++ [fid];
     list_inp := list_inp lg ++ [(bc_pos p, bc_rad p, ld_pos p, ld_rad p)];
     list_top_opt := list_top_opt lg ++ [tb];
     list_obj_opt := list_obj_opt lg ++ [ob];
     list_ptr2opt := list_ptr2opt lg ++ [length (list_ptr2inp lg)];
     list_ptr2inp := list_ptr2inp lg ++ replicate (length ts) ptr;
     list_top := list_top lg ++ ts; list_obj := list_obj lg ++ os;
     list_vol := list_vol lg ++ vs |}.

Lemma add_instance_inv (fid0 m : nat) (lg : logs) (p : params)
    (ts : list (list bool)) (vs os : list float) (tb : list bool) (ob : float) :
  file_inv fid0 m lg -> 2 <= length ts -> length vs = length ts ->
  length os = length ts ->
  file_inv fid0 (S m) (add_instance lg (fid0 + m) p m ts vs os tb ob).
Proof.
  intros (cs & Hm & Hcs & Hfid & Hinp & Htopt & Hoopt & Hopt & Hown & Htop & Hobj & Hvol)
         Hts Hvs Hos.
  exists (cs ++ [length ts]). unfold add_instance.
  cbn [list_fid list_inp list_top_opt list_obj_opt list_ptr2opt list_ptr2inp
       list_top list_obj list_vol].
  rewrite !length_app, Pointers.sum_list_app, Pointers.starts_snoc, Pointers.owners_snoc.
  cbn [length]. replace (sum_list [length ts]) with (length ts) by (cbn; lia).
  split; [lia|]. split; [apply Forall_app; split; [exact Hcs|repeat constructor; exact Hts]|].
  split; [rewrite seq_S, Hfid; reflexivity|]. split; [lia|]. split; [lia|]. split; [lia|].
  split; [rewrite Hopt, Hown, Pointers.owners_length; reflexivity|].
  split; [rewrite Hown, Hm; reflexivity|]. lia.
Qed.

Lemma add_instance_aligned (lg : logs) (fid : nat) (p : params) (ptr : nat)
    (ts : list (list bool)) (vs os : list float) (tb : list bool) (ob : float) :
  aligned lg -> vs = ratio <$> ts -> aligned (add_instance lg fid p ptr ts vs os tb ob).
Proof.
  unfold aligned, add_instance. cbn [list_vol list_top]. intros -> ->.
  rewrite fmap_app. reflexivity.
Qed.

Lemma logs_eq (a b : logs) :
  list_fid a = list_fid b -> list_inp a = list_inp b ->
  list_top_opt a = list_top_opt b -> list_obj_opt a = list_obj_opt b ->
  list_ptr2opt a = list_ptr2opt b -> list_ptr2inp a = list_ptr2inp b ->
  list_top a = list_top b -> list_obj a = list_obj b -> list_vol a = list_vol b ->
  a = b.
Proof. destruct a, b. cbn. intros. subst. reflexivity. Qed.

Lemma instance_logs (lg : logs) (fid : nat) (p : params) (ptr : nat)
    (ts : list (list bool)) (vs os : list float) (t tb : list bool) (v0 o0 ob : float) :
  log_topology ptr t
    (log_best tb ob
       (Records.grow (log_pointer (log_result v0 o0 (log_input fid p lg))) ptr ts vs os))
  = add_instance lg fid p ptr (ts ++ [t]) (v0 :: vs) (o0 :: os) tb ob.
Proof.
  apply logs_eq; try reflexivity.
  - cbn [list_ptr2inp log_topology log_best Records.grow log_pointer log_result
         log_input add_instance].
    rewrite length_app, replicate_add, <- app_assoc. reflexivity.
  - cbn [list_top log_topology log_best Records.grow log_pointer log_result
         log_input add_instance].
    rewrite <- app_assoc. reflexivity.
  - cbn [list_obj log_topology log_best Records.grow log_pointer log_result
         log_input add_instance].
    rewrite <- app_assoc. reflexivity.
  - cbn [list_vol log_topology log_best Records.grow log_pointer log_result
         log_input add_instance].
    rewrite <- app_assoc. reflexivity.
Qed.

Section Instance.

Variable argsort : list float -> list nat.
Variable k : kernels.
Variable fuel : nat.

Lemma logged_instance_spec (fid : nat) (p : params) (ptr : nat) (lg lg' : logs)
    (leftover leftover' : option (list bool)) :
  logged_instance argsort k fuel fid p ptr lg leftover = Ok (Some (lg', leftover')) ->
  exists ts vs os tb ob,
    2 <= length ts /\ length vs = length ts /\ length os = length ts /\
    lg' = add_instance lg fid p ptr ts vs os tb ob /\
    ((forall v, argsort v ≡ₚ seq 0 (length v)) -> vs = ratio <$> ts).
Proof.
  unfold logged_instance. intros H.
  destruct (boundary_conditions p) as [su|e] eqn:Hbc; cbn [bind] in H; [|discriminate H].
  set (N := N_of (s_Ny su)) in *.
  remember (init_state N leftover) as s0 eqn:Es0.
  set (lg0 := log_pointer (log_result _ _ (log_input fid p lg))) in H.
  destruct (logged_loop argsort k su ptr fuel s0 lg0) as [[s lg1]|e] eqn:Hloop;
    cbn [bind] in H; [|discriminate H].
  destruct (keep_going s) eqn:Hk; [discriminate H|].
  destruct (x_opt s) as [t|] eqn:Hopt; [|discriminate H].
  injection H as <- <-.
  destruct (Records.logged_loop_spec argsort k su ptr fuel s0 lg0 s lg1 Hloop)
    as (ts & vs & os & Hvs & Hos & -> & Hone & Hal).
  assert (Hk0 : keep_going s0 = true) by (rewrite Es0; reflexivity).
  specialize (Hone Hk0 Hk).
  exists (ts ++ [x s]), (fraction (vol s0) N :: vs),
         (k_compliance k su (x s0) (factor s0) :: os), t, (obj_opt s).
  rewrite length_app. cbn [length].
  split; [lia|]. split; [lia|]. split; [lia|]. split.
  - apply instance_logs.
  - intros Hperm.
    destruct (Boundary.ld_ele_facts p su Hbc) as (HN & _).
    pose proof (volume_inv_init N HN leftover) as Hinv0. rewrite <- Es0 in Hinv0.
    destruct (Hal Hperm HN Hinv0) as [_ Heq].
    rewrite (Records.ratio_state N s0 Hinv0), Heq, fmap_app. reflexivity.
Qed.

End Instance.

End Instances.

(** The files of a batch that starts at input [fid]: each holds between one
    and [noptf] instances read from consecutive existing inputs, and only
    the last may hold fewer than [noptf]. *)
Fixpoint files_from (argsort : list float -> list nat) (inp : nat -> option params)
    (fid_lim : nat) (fid : nat) (fs : list logs) : Prop :=
  match fs with
  | [] => True
  | f :: fs' =>
      let m := length (list_fid f) in
      1 <= m <= noptf /\
      (exists lg, f = log_pointer lg /\ file_inv fid m lg /\
                  ((forall v, argsort v ≡ₚ seq 0 (length v)) -> aligned lg)) /\
      (forall j, j < m -> fid + j < fid_lim /\ is_Some (inp (fid + j))) /\
      (fs' <> [] -> m = noptf) /\
      files_from argsort inp fid_lim (fid + m) fs'
  end.

Module Files.

Section Batch.

Variable argsort : list float -> list nat.
Variable k : kernels.
Variable inp : nat -> option params.
Variable fid_lim : nat.
Variable fuel : nat.

Lemma file_inv_length (fid0 m : nat) (lg : logs) :
  file_inv fid0 m lg -> length (list_fid lg) = m.
Proof. intros (cs & _ & _ & -> & _). apply length_seq. Qed.

Lemma file_loop_spec (fid0 : nat) (counters : nat) :
  forall m lg leftover fid' lg' leftover',
    file_inv fid0 m lg ->
    ((forall v, argsort v ≡ₚ seq 0 (length v)) -> aligned lg) ->
    file_loop argsort k inp fid_lim fuel counters (fid0 + m) m lg leftover
      = Ok (Some (fid', lg', leftover')) ->
    exists m',
      fid' = fid0 + m' /\ m <= m' <= m + counters /\
      file_inv fid0 m' lg' /\
      ((forall v, argsort v ≡ₚ seq 0 (length v)) -> aligned lg') /\
      (forall j, m <= j < m' -> fid0 + j < fid_lim /\ is_Some (inp (fid0 + j))) /\
      (m' < m + counters -> fid_lim <= fid' \/ inp fid' = None).
Proof.
  induction counters as [|counters IH]; intros m lg leftover fid' lg' leftover' Hinv Hal H;
    cbn [file_loop] in H.
  - injection H as <- <- _. exists m.
    split; [reflexivity|]. split; [lia|]. split; [exact Hinv|]. split; [exact Hal|].
    split; [intros j Hj; lia|intros Hlt; lia].
  - destruct (Nat.leb_spec fid_lim (fid0 + m)) as [Hlim|Hlim].
    { injection H as <- <- _. exists m.
      split; [reflexivity|]. split; [lia|]. split; [exact Hinv|]. split; [exact Hal|].
      split; [intros j Hj; lia|intros _; left; exact Hlim]. }
    destruct (inp (fid0 + m)) as [p|] eqn:Hp.
    2:{ injection H as <- <- _. exists m.
        split; [reflexivity|]. split; [lia|]. split; [exact Hinv|]. split; [exact Hal|].
        split; [intros j Hj; lia|intros _; right; exact Hp]. }
    destruct (logged_instance argsort k fuel (fid0 + m) p m lg leftover)
      as [[[lg1 lo1]|]|e] eqn:Hinst; cbn [bind] in H; try discriminate H.
    destruct (Instances.logged_instance_spec argsort k fuel _ _ _ _ _ _ _ Hinst)
      as (ts & vs & os & tb & ob & Hts & Hvs & Hos & -> & Hvs').
    replace (fid0 + m + 1) with (fid0 + S m) in H by lia.
    replace (m + 1) with (S m) in H by lia.
    destruct (IH (S m) _ _ _ _ _
                (Instances.add_instance_inv fid0 m lg p ts vs os tb ob Hinv Hts Hvs Hos)
                (fun Hperm => Instances.add_instance_aligned _ _ _ _ _ _ _ _ _
                                (Hal Hperm) (Hvs' Hperm))
                H)
      as (m' & Hfid' & Hm' & Hinv' & Hal' & Hex & Hstop).
    exists m'. split; [exact Hfid'|]. split; [lia|]. split; [exact Hinv'|].
    split; [exact Hal'|]. split.
    + intros j Hj. destruct (decide (j = m)) as [->|Hne].
      * split; [exact Hlim|]. rewrite Hp. eexists. reflexivity.
      * apply Hex. lia.
    + intros Hlt. apply Hstop. lia.
Qed.

Lemma file_inv_empty (fid0 : nat) : file_inv fid0 0 empty_logs.
Proof. exists []. cbn. repeat split; constructor. Qed.

(** What a batch saves, whatever its ending. *)
Lemma batch_spec (files : nat) : forall fid leftover saved saved' e,
  batch argsort k inp fid_lim fuel files fid leftover saved = (saved', e) ->
  exists new,
    saved' = saved ++ new /\
    files_from argsort inp fid_lim fid new /\
    let n := sum_list ((fun f => length (list_fid f)) <$> new) in
    match e with
    | Done => fid_lim <= fid + n \/ inp (fid + n) = None
    | _ => Forall (fun f => length (list_fid f) = noptf) new
    end.
Proof.
  induction files as [|files IH]; intros fid leftover saved saved' e H; cbn [batch] in H.
  - destruct ((fid <? fid_lim) && bool_decide (is_Some (inp fid))) eqn:Htest;
      injection H as <- <-; exists []; rewrite app_nil_r;
      (split; [reflexivity|]); (split; [exact I|]); cbn.
    + constructor.
    + rewrite Nat.add_0_r. apply andb_false_iff in Htest. destruct Htest as [Ht|Ht].
      * left. apply Nat.ltb_ge in Ht. exact Ht.
      * right. apply bool_decide_eq_false in Ht.
        destruct (inp fid); [exfalso; apply Ht; eexists; reflexivity|reflexivity].
  - destruct ((fid <? fid_lim) && bool_decide (is_Some (inp fid))) eqn:Htest.
    2:{ injection H as <- <-. exists []. rewrite app_nil_r.
        split; [reflexivity|]. split; [exact I|]. cbn.
        rewrite Nat.add_0_r. apply andb_false_iff in Htest. destruct Htest as [Ht|Ht].
        - left. apply Nat.ltb_ge in Ht. exact Ht.
        - right. apply bool_decide_eq_false in Ht.
          destruct (inp fid); [exfalso; apply Ht; eexists; reflexivity|reflexivity]. }
    apply andb_true_iff in Htest. destruct Htest as [Hlt Hsome].
    apply Nat.ltb_lt in Hlt. apply bool_decide_eq_true in Hsome.
    destruct (file_loop argsort k inp fid_lim fuel noptf fid 0 empty_logs leftover)
      as [[[[fid' lg] lo']|]|err] eqn:Hfile.
    2:{ injection H as <- <-. exists []. rewrite app_nil_r.
        split; [reflexivity|]. split; [exact I|]. constructor. }
    2:{ injection H as <- <-. exists []. rewrite app_nil_r.
        split; [reflexivity|]. split; [exact I|]. constructor. }
    replace fid with (fid + 0) in Hfile at 1 by lia.
    destruct (file_loop_spec fid noptf 0 empty_logs leftover fid' lg lo'
                (file_inv_empty fid) (fun _ => eq_refl) Hfile)
      as (m & -> & Hm & Hinv & Hal & Hex & Hstop).
    assert (Hm1 : 1 <= m).
    { destruct m as [|m]; [|lia]. exfalso.
      destruct (Hstop ltac:(unfold noptf; lia)) as [Hs|Hs].
      - lia.
      - rewrite Nat.add_0_r in Hs. rewrite Hs in Hsome. destruct Hsome as [? Hd].
        discriminate Hd. }
    destruct (IH _ _ _ _ _ H) as (new & -> & Hnew & Hend).
    assert (Hlen : length (list_fid (log_pointer lg)) = m).
    { cbn [log_pointer list_fid]. exact (file_inv_length fid m lg Hinv). }
    exists (log_pointer lg :: new). split; [rewrite <- app_assoc; reflexivity|].
    assert (Hfull : new <> [] \/ e <> Done -> m = noptf).
    { intros Hcase.
      destruct (decide (m = noptf)) as [|Hne]; [assumption|exfalso].
      destruct (Hstop ltac:(lia)) as [Hs|Hs].
      - (* the next test fails: nothing more is saved and the ending is Done *)
        destruct files as [|files']; cbn [batch] in H;
          replace (fid + m <? fid_lim) with false in H
            by (symmetry; apply Nat.ltb_ge; exact Hs);
          cbn [andb] in H; injection H as Hsv He;
          assert (Hnil : new = [])
            by (apply (app_inv_head (saved ++ [log_pointer lg])); rewrite app_nil_r;
                symmetry; exact Hsv);
          destruct Hcase as [Hc|Hc]; congruence.
      - destruct files as [|files']; cbn [batch] in H;
          replace (bool_decide (is_Some (inp (fid + m)))) with false in H
            by (symmetry; apply bool_decide_eq_false; rewrite Hs;
                intros [? Hd]; discriminate Hd);
          rewrite andb_false_r in H; injection H as Hsv He;
          assert (Hnil : new = [])
            by (apply (app_inv_head (saved ++ [log_pointer lg])); rewrite app_nil_r;
                symmetry; exact Hsv);
          destruct Hcase as [Hc|Hc]; congruence. }
    split.
    + cbn [files_from]. rewrite Hlen.
      split; [lia|]. split; [exists lg; auto|].
      split; [intros j Hj; apply Hex; lia|].
      split; [intros Hne; apply Hfull; left; exact Hne|exact Hnew].
    + cbn [fmap list_fmap sum_list foldr]. rewrite Hlen.
      change (foldr Nat.add 0 ((fun f => length (list_fid f)) <$> new))
        with (sum_list ((fun f => length (list_fid f)) <$> new)).
      cbn zeta in Hend. rewrite <- Nat.add_assoc in Hend.
      destruct e.
      * exact Hend.
      * constructor; [rewrite Hlen; apply Hfull; right; discriminate|exact Hend].
      * constructor; [rewrite Hlen; apply Hfull; right; discriminate|exact Hend].
Qed.

End Batch.

End Files.

Module Saved.

Section Facts.

Variable argsort : list float -> list nat.
Variable inp : nat -> option params.
Variable fid_lim : nat.

Definition instances (fs : list logs) : nat :=
  sum_list ((fun f => length (list_fid f)) <$> fs).

Lemma instances_cons (g : logs) (fs : list logs) :
  instances (g :: fs) = length (list_fid g) + instances fs.
Proof. reflexivity. Qed.

Lemma files_from_elem (fs : list logs) : forall fid f,
  files_from argsort inp fid_lim fid fs -> f ∈ fs ->
  let m := length (list_fid f) in
  1 <= m <= noptf /\
  exists fid0 lg, f = log_pointer lg /\ file_inv fid0 m lg /\
                  ((forall v, argsort v ≡ₚ seq 0 (length v)) -> aligned lg).
Proof.
  induction fs as [|g fs IH]; intros fid f Hfs Hin; [inversion Hin|].
  cbn [files_from] in Hfs. destruct Hfs as (Hm & (lg & Hg & Hinv & Hal) & _ & _ & Hrest).
  apply elem_of_cons in Hin. destruct Hin as [->|Hin].
  - split; [exact Hm|]. exists fid, lg. auto.
  - exact (IH _ _ Hrest Hin).
Qed.

Lemma files_from_fids (fs : list logs) : forall fid,
  files_from argsort inp fid_lim fid fs ->
  concat (list_fid <$> fs) = seq fid (instances fs) /\
  (forall j, j < instances fs -> fid + j < fid_lim /\ is_Some (inp (fid + j))).
Proof.
  induction fs as [|g fs IH]; intros fid Hfs; [split; [reflexivity|intros j Hj; inversion Hj]|].
  cbn [files_from] in Hfs. destruct Hfs as (Hm & (lg & Hg & Hinv & _) & Hex & _ & Hrest).
  destruct (IH _ Hrest) as [Hfids Hall].
  assert (Hfid : list_fid g = seq fid (length (list_fid g))).
  { destruct Hinv as (cs & _ & _ & Hfid & _). rewrite Hg at 1. exact Hfid. }
  rewrite instances_cons. cbn [fmap list_fmap concat].
  split.
  - rewrite seq_app, <- Hfid. f_equal. exact Hfids.
  - intros j Hj. destruct (decide (j < length (list_fid g))) as [Hlt|Hge].
    + apply Hex. exact Hlt.
    + replace (fid + j) with (fid + length (list_fid g) + (j - length (list_fid g)))
        by lia.
      apply Hall. lia.
Qed.

Lemma files_from_sizes (fs : list logs) : forall fid i f,
  files_from argsort inp fid_lim fid fs -> fs !! i = Some f ->
  1 <= length (list_fid f) <= noptf /\
  (i + 1 < length fs -> length (list_fid f) = noptf).
Proof.
  induction fs as [|g fs IH]; intros fid i f Hfs Hi; [discriminate Hi|].
  cbn [files_from] in Hfs. destruct Hfs as (Hm & _ & _ & Hfull & Hrest).
  destruct i as [|i].
  - injection Hi as <-. split; [exact Hm|]. intros Hlt. apply Hfull.
    destruct fs; [cbn in Hlt; lia|discriminate].
  - destruct (IH _ _ _ Hrest Hi) as [H1 H2]. split; [exact H1|].
    intros Hlt. apply H2. cbn in Hlt. lia.
Qed.

Lemma full_instances (fs : list logs) :
  Forall (fun f => length (list_fid f) = noptf) fs -> instances fs = noptf * length fs.
Proof.
  induction 1 as [|f fs Hf _ IH]; [reflexivity|].
  rewrite instances_cons, IH, Hf. cbn [length]. lia.
Qed.

End Facts.

End Saved.

Section SavedFiles.

Variable argsort : list float -> list nat.
Variable k : kernels.
Variable inp : nat -> option params.
Variable fid_ini fid_lim : nat.
Variable fuel files : nat.
Variable leftover : option (list bool).

(** X12: in every saved file the two pointer arrays are inverse to each
    other: [ptr2opt] has one entry per instance plus a final one, and the
    records [ptr2opt[i] .. ptr2opt[i+1]-1] are exactly those whose
    [ptr2inp] is [i]; each instance owns at least two records, and
    [list_top], [list_obj], [list_vol] and [ptr2inp] have one entry per
    record. *)
Theorem pointers_delimit_records (saved : list logs) (e : ending) (f : logs) :
  batch argsort k inp fid_lim fuel files fid_ini leftover [] = (saved, e) ->
  f ∈ saved ->
  let m := length (list_fid f) in
  let records := length (list_ptr2inp f) in
  1 <= m <= noptf /\
  length (list_ptr2opt f) = m + 1 /\
  length (list_top_opt f) = m /\ length (list_obj_opt f) = m /\
  length (list_top f) = records /\ length (list_obj f) = records /\
  length (list_vol f) = records /\
  forall i, i < m ->
    exists a b,
      list_ptr2opt f !! i = Some a /\ list_ptr2opt f !! (i + 1) = Some b /\
      a + 2 <= b /\ b <= records /\
      forall kk, list_ptr2inp f !! kk = Some i <-> a <= kk < b.
Proof.
  intros Hbatch Hin m records.
  destruct (Files.batch_spec argsort k inp fid_lim fuel files _ _ _ _ _ Hbatch)
    as (new & Hsaved & Hfiles & _).
  cbn [app] in Hsaved. subst new.
  destruct (Saved.files_from_elem argsort inp fid_lim saved fid_ini f Hfiles Hin)
    as (Hm & fid0 & lg & Hf & Hinv & _).
  fold m in Hm, Hinv.
  destruct Hinv as (cs & Hcs & Hge & _ & _ & Htopt & Hoopt & Hopt & Hown & Htop & Hobj & Hvol).
  assert (Hrec : records = sum_list cs).
  { unfold records. rewrite Hf. cbn [log_pointer list_ptr2inp].
    rewrite Hown. apply Pointers.owners_length. }
  assert (Hptr : list_ptr2opt f = starts cs ++ [sum_list cs]).
  { rewrite Hf. cbn [log_pointer list_ptr2opt].
    rewrite Hopt, Hown, Pointers.owners_length. reflexivity. }
  split; [exact Hm|].
  split; [rewrite Hptr, length_app, Pointers.starts_length, Hcs; reflexivity|].
  rewrite Hf at 1 2 3 4 5. cbn [log_pointer list_top_opt list_obj_opt list_top list_obj list_vol].
  split; [exact Htopt|]. split; [exact Hoopt|].
  split; [lia|]. split; [lia|]. split; [lia|].
  intros i Hi.
  destruct (lookup_lt_is_Some_2 cs i ltac:(lia)) as [c Hc].
  pose proof (proj1 (Forall_lookup _ _) Hge i c Hc) as Hc2. cbv beta in Hc2.
  exists (sum_list (take i cs)), (sum_list (take (S i) cs)).
  split; [rewrite Hptr, lookup_app_l by (rewrite Pointers.starts_length; lia);
          apply Pointers.starts_lookup; lia|].
  split.
  { rewrite Hptr. destruct (decide (i + 1 < length cs)) as [Hlt|Hlast].
    - rewrite lookup_app_l by (rewrite Pointers.starts_length; lia).
      rewrite Pointers.starts_lookup by lia. f_equal. f_equal. f_equal. lia.
    - rewrite lookup_app_r by (rewrite Pointers.starts_length; lia).
      rewrite Pointers.starts_length.
      replace (i + 1 - length cs) with 0 by lia. cbn [lookup list_lookup].
      rewrite take_ge by lia. reflexivity. }
  split; [rewrite (Pointers.sum_take_S cs i c Hc); lia|].
  split; [rewrite Hrec; apply Pointers.sum_take_le|].
  intros kk. rewrite Hf. cbn [log_pointer list_ptr2inp]. rewrite Hown.
  rewrite Pointers.owners_lookup. split; [intros (_ & H); exact H|intros H; split; [lia|exact H]].
Qed.

(** X13: in every saved file each stored volume fraction is the number of
    solid elements of the topology stored at the same position, divided by
    its number of elements. *)
Theorem volume_records_match_topologies (saved : list logs) (e : ending) (f : logs) :
  (forall v, argsort v ≡ₚ seq 0 (length v)) ->
  batch argsort k inp fid_lim fuel files fid_ini leftover [] = (saved, e) ->
  f ∈ saved ->
  list_vol f = ratio <$> list_top f.
Proof.
  intros Hperm Hbatch Hin.
  destruct (Files.batch_spec argsort k inp fid_lim fuel files _ _ _ _ _ Hbatch)
    as (new & Hsaved & Hfiles & _).
  cbn [app] in Hsaved. subst new.
  destruct (Saved.files_from_elem argsort inp fid_lim saved fid_ini f Hfiles Hin)
    as (_ & fid0 & lg & -> & _ & Hal).
  exact (Hal Hperm).
Qed.

(** X14: when the script ends normally, the saved files hold, in order,
    the inputs [fid_ini], [fid_ini + 1], ... up to the first input that is
    missing or not below [fid_lim]: [noptf] instances per file, except
    possibly fewer (but at least one) in the last file. *)
Theorem batch_partitions_inputs (saved : list logs) :
  batch argsort k inp fid_lim fuel files fid_ini leftover [] = (saved, Done) ->
  let n := length (concat (list_fid <$> saved)) in
  concat (list_fid <$> saved) = seq fid_ini n /\
  (forall j, j < n -> fid_ini + j < fid_lim /\ is_Some (inp (fid_ini + j))) /\
  (fid_lim <= fid_ini + n \/ inp (fid_ini + n) = None) /\
  (forall i f, saved !! i = Some f ->
     1 <= length (list_fid f) <= noptf /\
     (i + 1 < length saved -> length (list_fid f) = noptf)).
Proof.
  intros Hbatch n.
  destruct (Files.batch_spec argsort k inp fid_lim fuel files _ _ _ _ _ Hbatch)
    as (new & Hsaved & Hfiles & Hend).
  cbn [app] in Hsaved. subst new. cbn zeta in Hend.
  destruct (Saved.files_from_fids argsort inp fid_lim saved fid_ini Hfiles)
    as [Hfids Hex].
  assert (Hn : n = Saved.instances saved).
  { unfold n. rewrite Hfids. apply length_seq. }
  fold (Saved.instances saved) in Hend. rewrite <- Hn in Hend, Hex, Hfids.
  split; [exact Hfids|]. split; [exact Hex|]. split; [exact Hend|].
  intros i f Hi. exact (Saved.files_from_sizes argsort inp fid_lim saved fid_ini i f Hfiles Hi).
Qed.

(** X15: when an instance raises or exits (insufficient constraint
    included), the script stops before the lists of the current file are
    saved: what is on disk is whole files of [noptf] instances only, and
    the instances of the current file that had already finished are lost. *)
Theorem abort_keeps_whole_files_only (saved : list logs) (err : error) :
  batch argsort k inp fid_lim fuel files fid_ini leftover [] = (saved, Raised err) ->
  Forall (fun f => length (list_fid f) = noptf) saved /\
  concat (list_fid <$> saved) = seq fid_ini (noptf * length saved).
Proof.
  intros Hbatch.
  destruct (Files.batch_spec argsort k inp fid_lim fuel files _ _ _ _ _ Hbatch)
    as (new & Hsaved & Hfiles & Hend).
  cbn [app] in Hsaved. subst new. cbn zeta in Hend.
  split; [exact Hend|].
  destruct (Saved.files_from_fids argsort inp fid_lim saved fid_ini Hfiles) as [-> _].
  rewrite (Saved.full_instances saved Hend). reflexivity.
Qed.

End SavedFiles.

(** A batch of two inputs, and one of eighteen whose last input is
    insufficiently constrained. *)
Definition demo_inputs (fid : nat) : option params :=
  if fid <? 2 then Some demo_params else None.

Definition faulty_inputs (fid : nat) : option params :=
  if fid <? 17 then Some demo_params
  else if fid =? 17 then Some narrow_params else None.

Definition demo_saved : list logs :=
  Eval vm_compute in
    fst (batch insertion_argsort demo_kernels demo_inputs 10 30 3 0 None []).

Definition demo_file : logs :=
  Eval vm_compute in match demo_saved with f :: _ => f | [] => empty_logs end.

Definition faulty_saved : list logs :=
  Eval vm_compute in
    fst (batch insertion_argsort demo_kernels faulty_inputs 100 30 3 0 None []).

Lemma demo_batch :
  batch insertion_argsort demo_kernels demo_inputs 10 30 3 0 None []
  = (demo_saved, Done).
Proof. vm_compute. reflexivity. Defined.

Lemma demo_file_saved : demo_file ∈ demo_saved.
Proof. left. Defined.

Lemma faulty_batch :
  batch insertion_argsort demo_kernels faulty_inputs 100 30 3 0 None []
  = (faulty_saved, Raised InsufficientConstraint).
Proof. vm_compute. reflexivity. Defined.

Lemma pointers_delimit_records_witness :
  list_ptr2opt demo_file = [0; 25; 50] /\
  let m := length (list_fid demo_file) in
  let records := length (list_ptr2inp demo_file) in
  1 <= m <= noptf /\
  length (list_ptr2opt demo_file) = m + 1 /\
  length (list_top_opt demo_file) = m /\ length (list_obj_opt demo_file) = m /\
  length (list_top demo_file) = records /\ length (list_obj demo_file) = records /\
  length (list_vol demo_file) = records /\
  forall i, i < m ->
    exists a b,
      list_ptr2opt demo_file !! i = Some a /\ list_ptr2opt demo_file !! (i + 1) = Some b /\
      a + 2 <= b /\ b <= records /\
      forall kk, list_ptr2inp demo_file !! kk = Some i <-> a <= kk < b.
Proof.
  split; [reflexivity|].
  exact (pointers_delimit_records insertion_argsort demo_kernels demo_inputs 0 10 30 3
           None demo_saved Done demo_file demo_batch demo_file_saved).
Defined.

Lemma volume_records_match_topologies_witness :
  length (list_vol demo_file) = 50 /\
  list_vol demo_file = ratio <$> list_top demo_file.
Proof.
  split; [reflexivity|].
  exact (volume_records_match_topologies insertion_argsort demo_kernels demo_inputs
           0 10 30 3 None demo_saved Done demo_file Argsort.insertion_argsort_perm
           demo_batch demo_file_saved).
Defined.

Lemma batch_partitions_inputs_witness :
  let n := length (concat (list_fid <$> demo_saved)) in
  n = 2 /\
  concat (list_fid <$> demo_saved) = seq 0 n /\
  (forall j, j < n -> 0 + j < 10 /\ is_Some (demo_inputs (0 + j))) /\
  (10 <= 0 + n \/ demo_inputs (0 + n) = None) /\
  (forall i f, demo_saved !! i = Some f ->
     1 <= length (list_fid f) <= noptf /\
     (i + 1 < length demo_saved -> length (list_fid f) = noptf)).
Proof.
  split; [reflexivity|].
  exact (batch_partitions_inputs insertion_argsort demo_kernels demo_inputs 0 10 30 3
           None demo_saved demo_batch).
Defined.

Lemma abort_keeps_whole_files_only_witness :
  length faulty_saved = 1 /\
  Forall (fun f => length (list_fid f) = noptf) faulty_saved /\
  concat (list_fid <$> faulty_saved) = seq 0 (noptf * length faulty_saved).
Proof.
  split; [reflexivity|].
  exact (abort_keeps_whole_files_only insertion_argsort demo_kernels faulty_inputs
           0 100 30 3 None faulty_saved InsufficientConstraint faulty_batch).
Defined.

(** * Stored topologies (engine lines 671-672 and 679-680, sample reader
      lines 168-169) *)

(** One byte of [np.packbits]: eight bits, the first the most significant,
    a short last group padded with zeros. *)
Definition byte_of_bits (bits : list bool) : nat :=
  foldl (fun a (b : bool) => 2 * a + (if b then 1 else 0)) 0 (resize 8 false bits).

Fixpoint packbits_groups (n : nat) (x : list bool) : list nat :=
  match n with
  | O => []
  | S n' =>
      match x with
      | [] => []
      | _ :: _ => byte_of_bits (take 8 x) :: packbits_groups n' (drop 8 x)
      end
  end.

(** [np.packbits(x)] on one row of booleans. *)
Definition packbits (x : list bool) : list nat := packbits_groups (length x) x.

(** [np.unpackbits(a, axis=None)]: eight bits per byte, most significant
    first. *)
Definition bits_of_byte (v : nat) : list bool :=
  (fun i => Nat.testbit v (7 - i)) <$> seq 0 8.

Definition unpackbits (a : list nat) : list bool := flat_map bits_of_byte a.

Module Bits.

Lemma bits_of_byte_of_bits (l : list bool) :
  length l = 8 -> bits_of_byte (byte_of_bits l) = l /\ byte_of_bits l < 256.
Proof.
  intros Hlen.
  do 8 (destruct l as [|? l]; [discriminate Hlen|]).
  destruct l; [|discriminate Hlen].
  repeat match goal with b : bool |- _ => destruct b end;
    (split; [reflexivity|vm_compute; lia]).
Qed.

Lemma byte_of_bits_resize (l : list bool) :
  byte_of_bits (resize 8 false l) = byte_of_bits l.
Proof. unfold byte_of_bits. rewrite resize_idemp. reflexivity. Qed.

Lemma byte_spec (l : list bool) :
  bits_of_byte (byte_of_bits l) = resize 8 false l /\ byte_of_bits l < 256.
Proof.
  rewrite <- byte_of_bits_resize. apply bits_of_byte_of_bits. apply length_resize.
Qed.

Lemma packbits_groups_nil (n : nat) : packbits_groups n [] = [].
Proof. destruct n; reflexivity. Qed.

Definition padding (len : nat) : nat := (8 - len mod 8) mod 8.

Lemma unpack_groups (n : nat) : forall x : list bool,
  length x <= n ->
  unpackbits (packbits_groups n x) = x ++ replicate (padding (length x)) false /\
  Forall (fun v => v < 256) (packbits_groups n x).
Proof.
  induction n as [|n IH]; intros x Hlen.
  - destruct x; [|cbn in Hlen; lia]. split; [reflexivity|constructor].
  - destruct x as [|b x]; [split; [reflexivity|constructor]|].
    cbn [packbits_groups]. set (y := b :: x) in *.
    destruct (byte_spec (take 8 y)) as [Hbits Hlt].
    unfold unpackbits. cbn [flat_map]. fold (unpackbits (packbits_groups n (drop 8 y))).
    rewrite Hbits.
    destruct (decide (8 <= length y)) as [Hge|Hshort].
    + destruct (IH (drop 8 y)) as [Hrest Hall].
      { rewrite length_drop. unfold y in *. cbn [length] in *. lia. }
      split; [|constructor; assumption].
      rewrite Hrest, length_drop.
      rewrite resize_le by (rewrite length_take; lia).
      rewrite take_take. replace (8 `min` 8) with 8 by reflexivity.
      rewrite app_assoc, take_drop. f_equal. f_equal. unfold padding.
      replace (length y) with ((length y - 8) + 1 * 8) at 2 by lia.
      rewrite Nat.Div0.mod_add. reflexivity.
    + rewrite (drop_ge y) by lia. rewrite packbits_groups_nil.
      split; [|constructor; [exact Hlt|constructor]].
      rewrite (take_ge y) by lia. cbn [unpackbits flat_map].
      rewrite app_nil_r, resize_ge by lia. unfold padding.
      assert (Hpos : 0 < length y) by (unfold y; cbn; lia).
      rewrite (Nat.mod_small (length y)) by lia.
      rewrite (Nat.mod_small (8 - length y)) by lia. reflexivity.
Qed.

End Bits.

(** X16: decoding a stored topology gives the topology followed by the
    padding of its last byte; every packed value is a byte.  For a mesh of
    [N = 2*Ny^2] elements the sample reader gets back exactly the stored
    topology when [Ny] is even (as for [Ny = 32]), and six extra zero
    entries when [Ny] is odd. *)
Theorem unpackbits_packbits (Ny : nat) (x : list bool) :
  length x = N_of Ny ->
  Forall (fun v => v < 256) (packbits x) /\
  unpackbits (packbits x)
  = x ++ replicate (if Nat.even Ny then 0 else 6) false.
Proof.
  intros Hlen.
  destruct (Bits.unpack_groups (length x) x ltac:(lia)) as [Hun Hall].
  split; [exact Hall|]. unfold packbits. rewrite Hun. f_equal. f_equal.
  unfold Bits.padding. rewrite Hlen. unfold N_of, Nx_of.
  destruct (Nat.even Ny) eqn:Hev.
  - apply Nat.even_spec in Hev. destruct Hev as [q ->].
    replace (2 * (2 * q) * (2 * q)) with (0 + (q * q) * 8) by lia.
    rewrite Nat.Div0.mod_add. reflexivity.
  - assert (Hodd : Nat.odd Ny = true) by (rewrite <- Nat.negb_even, Hev; reflexivity).
    apply Nat.odd_spec in Hodd. destruct Hodd as [q ->].
    replace (2 * (2 * q + 1) * (2 * q + 1)) with (2 + (q * q + q) * 8) by lia.
    rewrite Nat.Div0.mod_add. reflexivity.
Qed.

Lemma unpackbits_packbits_witness :
  Forall (fun v => v < 256) (packbits (x demo_halt)) /\
  unpackbits (packbits (x demo_halt))
  = x demo_halt ++ replicate (if Nat.even 2 then 0 else 6) false.
Proof. apply (unpackbits_packbits 2 (x demo_halt)). reflexivity. Defined.

(** * The stored best topologies *)

(** A best topology of this instance: one entry per element, half of them
    solid, with a finite compliance. *)
Definition best_inv' (N : nat) (leftover : option (list bool)) (s : state) : Prop :=
  (obj_opt s = infinity /\ x_opt s = leftover /\ keep_going s = true) \/
  (is_finite (obj_opt s) = true /\
   exists t, x_opt s = Some t /\ length t = N /\ Z.of_nat (sum_bool t) = Vt_of N).

Module Best.

Section Loop.

Variable argsort : list float -> list nat.
Hypothesis argsort_perm : forall v, argsort v ≡ₚ seq 0 (length v).
Variable k : kernels.
Hypothesis Hfinite : finite_compliance k.
Variable su : setup.

Let N := N_of (s_Ny su).
Hypothesis HN : 2 <= N.

Lemma best_step (leftover : option (list bool)) (s s' : state) :
  volume_inv N s -> best_inv' N leftover s ->
  iteration argsort N (s_ld_ele su) (observe argsort k su s) s = Ok s' ->
  volume_inv N s' /\ best_inv' N leftover s'.
Proof.
  intros Hvinv Hinv Hit.
  pose proof (volume_inv_step argsort argsort_perm N (s_ld_ele su) HN _ s s' Hvinv Hit)
    as Hvinv'.
  split; [exact Hvinv'|].
  pose proof (observe_finite argsort k Hfinite su s s' Hit) as Hfin.
  destruct Hvinv' as (Hvol & _ & Hlen).
  destruct (iteration_controller argsort N (s_ld_ele su) _ s s' Hit)
    as [(_ & _ & Hb & Hx & Hkg)|[(Hv & _ & _ & Hb & Hx & _)|(_ & Himp & _ & Hb & Hx & _)]].
  - destruct Hinv as [(H1 & H2 & H3)|(H1 & t & H2 & H3)].
    + left. rewrite Hb, Hx, Hkg. auto.
    + right. rewrite Hb, Hx. eauto.
  - right. rewrite Hb, Hx. split; [exact Hfin|]. exists (x s').
    split; [reflexivity|]. split; [exact Hlen|]. rewrite <- Hvol. exact Hv.
  - destruct Hinv as [(H1 & _)|(H1 & t & H2 & H3)].
    + rewrite H1, (improves_infinity _ Hfin) in Himp. discriminate Himp.
    + right. rewrite Hb, Hx. eauto.
Qed.

Lemma logged_loop_best (ptr : nat) (leftover : option (list bool)) (fuel : nat) :
  forall s lg s' lg',
    volume_inv N s -> best_inv' N leftover s ->
    logged_loop argsort k su ptr fuel s lg = Ok (s', lg') ->
    best_inv' N leftover s'.
Proof.
  induction fuel as [|fuel IH]; intros s lg s' lg' Hvinv Hinv Hrun;
    cbn [logged_loop] in Hrun.
  - injection Hrun as <- _. exact Hinv.
  - destruct (keep_going s); [|injection Hrun as <- _; exact Hinv].
    fold N in Hrun.
    destruct (iteration argsort N (s_ld_ele su) (observe argsort k su s) s)
      as [s1|e] eqn:Hit; cbn [bind] in Hrun; [|discriminate Hrun].
    destruct (best_step leftover s s1 Hvinv Hinv Hit) as [Hvinv1 Hinv1].
    exact (IH _ _ _ _ Hvinv1 Hinv1 Hrun).
Qed.

End Loop.

(** What a file promises of its best pairs: instance [i] was read from the
    input [list_fid[i]], its best topology has one entry per element of the
    mesh of that input, half of them solid, and its best compliance is a
    finite number. *)
Definition good_best (inp : nat -> option params) (lg : logs) : Prop :=
  length (list_top_opt lg) = length (list_fid lg) /\
  length (list_obj_opt lg) = length (list_fid lg) /\
  forall i fid,
    list_fid lg !! i = Some fid ->
    exists p t o,
      inp fid = Some p /\
      list_top_opt lg !! i = Some t /\ list_obj_opt lg !! i = Some o /\
      length t = N_of (p_Ny p) /\ sum_bool t = p_Ny p * p_Ny p /\
      is_finite o = true.

Section Files.

Variable argsort : list float -> list nat.
Hypothesis argsort_perm : forall v, argsort v ≡ₚ seq 0 (length v).
Variable k : kernels.
Hypothesis Hfinite : finite_compliance k.
Variable inp : nat -> option params.
Variable fid_lim : nat.
Variable fuel : nat.

Lemma logged_instance_best (fid : nat) (p : params) (ptr : nat) (lg lg' : logs)
    (leftover leftover' : option (list bool)) :
  good_best inp lg -> inp fid = Some p ->
  logged_instance argsort k fuel fid p ptr lg leftover = Ok (Some (lg', leftover')) ->
  good_best inp lg'.
Proof.
  intros (Hlt & Hlo & Hold) Hinp H.
  destruct (Instances.logged_instance_spec argsort k fuel _ _ _ _ _ _ _ H)
    as (ts & vs & os & tb & ob & _ & _ & _ & Hlg & _).
  unfold logged_instance in H.
  destruct (boundary_conditions p) as [su|e] eqn:Hbc; cbn [bind] in H; [|discriminate H].
  destruct (Boundary.ld_ele_facts p su Hbc) as (HN & _).
  destruct (Boundary.boundary_conditions_inv p su Hbc) as (es & _ & _ & HNy & _).
  remember (init_state (N_of (s_Ny su)) leftover) as s0 eqn:Es0.
  match type of H with
  | context [logged_loop _ _ _ _ _ _ ?l] => set (lg0 := l) in H
  end.
  destruct (logged_loop argsort k su ptr fuel s0 lg0) as [[s lg1]|e] eqn:Hloop;
    cbn [bind] in H; [|discriminate H].
  assert (Hbest : best_inv' (N_of (s_Ny su)) leftover s).
  { apply (logged_loop_best argsort argsort_perm k Hfinite su HN ptr leftover fuel
             s0 lg0 s lg1); [| |exact Hloop].
    - rewrite Es0. apply volume_inv_init. exact HN.
    - left. rewrite Es0. cbn. auto. }
  destruct (keep_going s) eqn:Hk; [discriminate H|].
  destruct Hbest as [(_ & _ & Hk')|(Hfin & t & Hopt & Hlen & Hsum)]; [congruence|].
  rewrite Hopt in H. injection H as Hlg' _.
  assert (Htb : tb = t /\ ob = obj_opt s).
  { rewrite Hlg in Hlg'.
    apply (f_equal list_top_opt) in Hlg' as H1.
    apply (f_equal list_obj_opt) in Hlg' as H2.
    cbn [list_top_opt list_obj_opt log_topology log_best Instances.add_instance] in H1, H2.
    assert (Hgrow : forall l q a b c, list_top_opt (Records.grow l q a b c) = list_top_opt l
                                      /\ list_obj_opt (Records.grow l q a b c) = list_obj_opt l)
      by (intros; split; reflexivity).
    destruct (Records.logged_loop_spec argsort k su ptr fuel s0 lg0 s lg1 Hloop)
      as (ts' & vs' & os' & _ & _ & Hg & _).
    rewrite Hg in H1, H2. destruct (Hgrow lg0 ptr ts' vs' os') as [G1 G2].
    rewrite G1 in H1. rewrite G2 in H2.
    unfold lg0 in H1, H2.
    cbn [list_top_opt list_obj_opt log_pointer log_result log_input] in H1, H2.
    apply app_inv_head in H1, H2. injection H1 as <-. injection H2 as <-. auto. }
  destruct Htb as [-> ->]. rewrite Hlg. unfold good_best.
  cbn [list_fid list_top_opt list_obj_opt Instances.add_instance].
  rewrite !length_app. cbn [length].
  split; [lia|]. split; [lia|].
  intros i fid' Hi.
  destruct (decide (i < length (list_fid lg))) as [Hlt'|Hge].
  - rewrite lookup_app_l in Hi by exact Hlt'.
    destruct (Hold i fid' Hi) as (p' & t' & o' & Hp' & Ht' & Ho' & Hrest).
    exists p', t', o'. split; [exact Hp'|].
    split; [apply lookup_app_l_Some; exact Ht'|].
    split; [apply lookup_app_l_Some; exact Ho'|exact Hrest].
  - assert (i = length (list_fid lg)) as ->.
    { apply lookup_lt_Some in Hi. rewrite length_app in Hi. cbn [length] in Hi. lia. }
    rewrite lookup_app_r, Nat.sub_diag in Hi by lia. injection Hi as <-.
    exists p, t, (obj_opt s). split; [exact Hinp|].
    split; [rewrite lookup_app_r, Hlt, Nat.sub_diag by lia; reflexivity|].
    split; [rewrite lookup_app_r, Hlo, Nat.sub_diag by lia; reflexivity|].
    rewrite <- HNy. split; [exact Hlen|]. split; [|exact Hfin].
    rewrite Caps.Vt_of_mesh in Hsum. lia.
Qed.

Lemma good_best_empty : good_best inp empty_logs.
Proof. split; [reflexivity|]. split; [reflexivity|]. intros i fid H. discriminate H. Qed.

Lemma file_loop_best (counters : nat) : forall fid ptr lg leftover fid' lg' leftover',
  good_best inp lg ->
  file_loop argsort k inp fid_lim fuel counters fid ptr lg leftover
    = Ok (Some (fid', lg', leftover')) ->
  good_best inp lg'.
Proof.
  induction counters as [|counters IH]; intros fid ptr lg leftover fid' lg' leftover' Hg H;
    cbn [file_loop] in H.
  - injection H as _ <- _. exact Hg.
  - destruct (fid_lim <=? fid); [injection H as _ <- _; exact Hg|].
    destruct (inp fid) as [p|] eqn:Hinp; [|injection H as _ <- _; exact Hg].
    destruct (logged_instance argsort k fuel fid p ptr lg leftover)
      as [[[lg1 lo1]|]|e] eqn:Hinst; cbn [bind] in H; try discriminate H.
    exact (IH _ _ _ _ _ _ _ (logged_instance_best _ _ _ _ _ _ _ Hg Hinp Hinst) H).
Qed.

Lemma batch_best (files : nat) : forall fid leftover saved saved' e,
  Forall (good_best inp) saved ->
  batch argsort k inp fid_lim fuel files fid leftover saved = (saved', e) ->
  Forall (good_best inp) saved'.
Proof.
  induction files as [|files IH]; intros fid leftover saved saved' e Hs H; cbn [batch] in H.
  - destruct ((fid <? fid_lim) && bool_decide (is_Some (inp fid)));
      injection H as <- _; exact Hs.
  - destruct ((fid <? fid_lim) && bool_decide (is_Some (inp fid)));
      [|injection H as <- _; exact Hs].
    destruct (file_loop argsort k inp fid_lim fuel noptf fid 0 empty_logs leftover)
      as [[[[fid' lg] lo']|]|err] eqn:Hfile; try (injection H as <- _; exact Hs).
    apply (IH _ _ _ _ _) in H; [exact H|].
    apply Forall_app. split; [exact Hs|]. constructor; [|constructor].
    exact (file_loop_best _ _ _ _ _ _ _ _ good_best_empty Hfile).
Qed.

End Files.

End Best.

(** X17: with kernels of finite compliance, the best topology saved for an
    instance has one entry per element of the mesh of that instance
    ([2*Ny^2] for the [Ny] of the input file [list_fid[i]] it was read from)
    and exactly [Ny^2] solid elements, half of the mesh; the best compliance
    appended with it is a finite number. *)
Theorem saved_best_topologies (argsort : list float -> list nat) (k : kernels)
    (inp : nat -> option params) (fid_ini fid_lim fuel files : nat)
    (leftover : option (list bool)) (saved : list logs) (e : ending) (f : logs)
    (i fid : nat) :
  (forall v, argsort v ≡ₚ seq 0 (length v)) ->
  finite_compliance k ->
  batch argsort k inp fid_lim fuel files fid_ini leftover [] = (saved, e) ->
  f ∈ saved ->
  list_fid f !! i = Some fid ->
  exists p t o,
    inp fid = Some p /\
    list_top_opt f !! i = Some t /\ list_obj_opt f !! i = Some o /\
    length t = N_of (p_Ny p) /\ sum_bool t = p_Ny p * p_Ny p /\
    is_finite o = true.
Proof.
  intros Hperm Hfin Hbatch Hin Hfid.
  pose proof (Best.batch_best argsort Hperm k Hfin inp fid_lim fuel files fid_ini leftover
                [] saved e (Forall_nil_2 _) Hbatch) as Hall.
  destruct (proj1 (Forall_forall _ _) Hall f Hin) as (_ & _ & Hgood).
  exact (Hgood i fid Hfid).
Qed.

Lemma saved_best_topologies_witness :
  list_fid demo_file !! 1 = Some 1 /\
  exists p t o,
    demo_inputs 1 = Some p /\
    list_top_opt demo_file !! 1 = Some t /\ list_obj_opt demo_file !! 1 = Some o /\
    length t = N_of (p_Ny p) /\ sum_bool t = p_Ny p * p_Ny p /\
    is_finite o = true.
Proof.
  split; [reflexivity|].
  apply (saved_best_topologies insertion_argsort demo_kernels demo_inputs 0 10 30 3
           None demo_saved Done demo_file 1 1 Argsort.insertion_argsort_perm).
  - intros su x f. reflexivity.
  - exact demo_batch.
  - exact demo_file_saved.
  - reflexivity.
Defined.

(** * The elements under the load *)

Module LoadElements.

Lemma mask_ele_lookup (m : list bool) (r : nat) (b1 b0 : bool) :
  m !! (r + 1) = Some b1 -> m !! r = Some b0 ->
  zip_with orb (drop 1 m) (removelast m) !! r = Some (b1 || b0).
Proof.
  intros H1 H0. rewrite lookup_zip_with, lookup_drop.
  replace (1 + r) with (r + 1) by lia. rewrite H1. cbn [mbind option_bind].
  rewrite removelast_firstn_len.
  pose proof (lookup_lt_Some _ _ _ H1) as Hlt.
  rewrite lookup_take_lt by lia. rewrite H0. reflexivity.
Qed.

Lemma ld_mask_length (p : params) (su : setup) :
  boundary_conditions p = Ok su -> length (s_ld_mask su) = p_Ny p + 1.
Proof.
  intros H.
  destruct (Boundary.boundary_conditions_inv p su H)
    as (es & HNy & _ & _ & _ & _ & Hmask & _).
  cbv zeta in Hmask. rewrite Hmask. unfold band_mask, ld_ycoor.
  rewrite length_fmap, length_drop, length_fmap. unfold coor.
  rewrite length_fmap, length_seq. nia.
Qed.

End LoadElements.

(** X18: the elements kept solid under the load ([ld_ele]) are exactly the
    elements of the mesh that have a loaded node among their four nodes;
    they all lie in the last column. *)
Theorem load_elements_touch_loaded_nodes (p : params) (su : setup) (e : nat) :
  boundary_conditions p = Ok su ->
  e < N_of (p_Ny p) ->
  (e ∈ s_ld_ele su <->
   exists nodes n, inci (p_Ny p) !! e = Some nodes /\ n ∈ nodes /\ n ∈ s_ld_ids su) /\
  (e ∈ s_ld_ele su -> (Nx_of (p_Ny p) - 1) * p_Ny p <= e).
Proof.
  intros Hbc He.
  destruct (Boundary.boundary_conditions_inv p su Hbc)
    as (es & HNy & _ & _ & _ & _ & _ & Hele & _ & _ & Hids & _).
  pose proof (LoadElements.ld_mask_length p su Hbc) as Hlen.
  cbv zeta in *. set (Ny := p_Ny p) in *. set (m := s_ld_mask su) in *.
  assert (Hr : e mod Ny < Ny) by (apply Nat.mod_upper_bound; exact HNy).
  assert (Hc : e / Ny < Nx_of Ny).
  { apply Nat.Div0.div_lt_upper_bound. unfold N_of in He. lia. }
  assert (Hdm : e = Ny * (e / Ny) + e mod Ny) by (apply Nat.div_mod_eq).
  assert (Hmaskele : forall r, r < Ny ->
            exists b1 b0, m !! (r + 1) = Some b1 /\ m !! r = Some b0 /\
              zip_with orb (drop 1 m) (removelast m) !! r = Some (b1 || b0)).
  { intros r Hlt.
    destruct (lookup_lt_is_Some_2 m (r + 1) ltac:(lia)) as [b1 H1].
    destruct (lookup_lt_is_Some_2 m r ltac:(lia)) as [b0 H0].
    exists b1, b0. split; [exact H1|]. split; [exact H0|].
    apply LoadElements.mask_ele_lookup; assumption. }
  assert (Hin_ele : e ∈ s_ld_ele su <->
            exists r, r < Ny /\ e = (Nx_of Ny - 1) * Ny + r /\
                      (m !! (r + 1) = Some true \/ m !! r = Some true)).
  { rewrite Hele, ArrayFacts.select_elem. split.
    - intros (r & Hseq & Hmask). apply lookup_seq in Hseq. destruct Hseq as [-> Hlt].
      exists r. split; [exact Hlt|]. split; [reflexivity|].
      destruct (Hmaskele r Hlt) as (b1 & b0 & H1 & H0 & Hz).
      rewrite Hz in Hmask. injection Hmask as Hor.
      apply orb_true_iff in Hor. destruct Hor as [->| ->]; auto.
    - intros (r & Hlt & -> & Hor). exists r. split; [apply lookup_seq_lt; exact Hlt|].
      destruct (Hmaskele r Hlt) as (b1 & b0 & H1 & H0 & Hz).
      rewrite Hz. f_equal. apply orb_true_iff.
      destruct Hor as [H|H]; [left|right]; congruence. }
  assert (Hin_ids : forall n, n ∈ s_ld_ids su <->
            exists j, n = Nx_of Ny * (Ny + 1) + j /\ m !! j = Some true).
  { intros n. rewrite Hids, ArrayFacts.select_elem. split.
    - intros (j & Hseq & Hmask). apply lookup_seq in Hseq. destruct Hseq as [-> _]. eauto.
    - intros (j & -> & Hmask). exists j.
      split; [apply lookup_seq_lt; pose proof (lookup_lt_Some _ _ _ Hmask); lia|exact Hmask]. }
  split; [|intros Hin; apply Hin_ele in Hin; destruct Hin as (r & _ & -> & _); lia].
  rewrite Hin_ele. split.
  - intros (r & Hlt & -> & Hor).
    rewrite Mesh.inci_lookup by exact He.
    assert (Hq : ((Nx_of Ny - 1) * Ny + r) / Ny = Nx_of Ny - 1).
    { symmetry. apply (Nat.div_unique _ _ _ r); [exact Hlt|lia]. }
    rewrite Hq.
    destruct Hor as [H1|H0].
    + eexists _, ((Nx_of Ny - 1) * Ny + r + (Nx_of Ny - 1) + Ny + 2).
      split; [reflexivity|]. split; [right; right; left|].
      apply Hin_ids. exists (r + 1). split; [unfold Nx_of in *; nia|exact H1].
    + eexists _, ((Nx_of Ny - 1) * Ny + r + (Nx_of Ny - 1) + Ny + 1).
      split; [reflexivity|]. split; [right; left|].
      apply Hin_ids. exists r. split; [unfold Nx_of in *; nia|exact H0].
  - intros (nodes & n & Hnodes & Hn & Hld).
    rewrite Mesh.inci_lookup in Hnodes by exact He. injection Hnodes as <-.
    apply Hin_ids in Hld. destruct Hld as (j & Hj & Hmask).
    pose proof (lookup_lt_Some _ _ _ Hmask) as Hjlt.
    exists (e mod Ny). split; [exact Hr|].
    set (c := e / Ny) in *. set (r := e mod Ny) in *.
    assert (Hcases : n = e + c \/ n = e + c + Ny + 1 \/ n = e + c + Ny + 2 \/ n = e + c + 1).
    { rewrite !elem_of_cons, elem_of_nil in Hn. tauto. }
    assert (Hcol : c = Nx_of Ny - 1) by (unfold Nx_of in *; nia).
    split; [nia|].
    destruct Hcases as [Hn0|[Hn1|[Hn2|Hn3]]].
    + exfalso. unfold Nx_of in *. nia.
    + right. replace r with j by (unfold Nx_of in *; nia). exact Hmask.
    + left. replace (r + 1) with j by (unfold Nx_of in *; nia). exact Hmask.
    + exfalso. unfold Nx_of in *. nia.
Qed.

Lemma load_elements_touch_loaded_nodes_witness :
  s_ld_ele partial_setup = [29; 30] /\ s_ld_ids partial_setup = [42] /\
  (29 ∈ s_ld_ele partial_setup <->
   exists nodes n, inci 4 !! 29 = Some nodes /\ n ∈ nodes /\ n ∈ s_ld_ids partial_setup) /\
  (29 ∈ s_ld_ele partial_setup -> (Nx_of 4 - 1) * 4 <= 29).
Proof.
  split; [reflexivity|]. split; [reflexivity|].
  apply (load_elements_touch_loaded_nodes partial_params partial_setup 29 partial_boundary).
  vm_compute. lia.
Defined.

(** * A vanishing sensitivity field *)

Module Vanishing.

Lemma add_nan (a : float) : (a + nan)%float = nan.
Proof.
  apply Prim2SF_inj. rewrite FloatAxioms.add_spec.
  change (Prim2SF nan) with S754_nan.
  destruct (Prim2SF a) as [s|s| |s m e]; reflexivity.
Qed.

Lemma zip_with_replicate {A B C} (f : A -> B -> C) (b : B) (l : list A) :
  zip_with f l (replicate (length l) b) = (fun a => f a b) <$> l.
Proof. induction l as [|a l IH]; [reflexivity|]. cbn. rewrite IH. reflexivity. Qed.

Lemma fmap_const {A B} (c : B) (f : A -> B) (l : list A) :
  (forall a, f a = c) -> f <$> l = replicate (length l) c.
Proof.
  intros Hf. induction l as [|a l IH]; [reflexivity|]. cbn. rewrite Hf, IH. reflexivity.
Qed.

Lemma max_float_replicate (v : float) (n : nat) :
  (v <? v)%float = false -> max_float (replicate (S n) v) = Ok v.
Proof.
  intros Hv. cbn [replicate max_float]. f_equal.
  induction n as [|n IH]; [reflexivity|]. cbn [replicate fold_left]. rewrite Hv. exact IH.
Qed.

End Vanishing.

(** X19: when the filtered sensitivities are all zero, the division by
    their largest magnitude is [0/0]: the momentum step raises nothing and
    returns NaN for every element outside the load band, whatever the
    previous [alpha_m] was. *)
Theorem zero_sensitivities_give_nan (ld : list nat) (am : list float) (N : nat) :
  N <> 0 -> length am = N ->
  momentum_step ld am (replicate N 0%float)
  = Ok (assign ld neg_infinity (replicate N nan)).
Proof.
  intros HN Hlen. unfold momentum_step.
  destruct (decide (length (replicate N 0%float) = length am)) as [_|Hn];
    [|rewrite length_replicate in Hn; congruence].
  destruct N as [|n]; [contradiction|].
  rewrite fmap_replicate.
  rewrite (Vanishing.max_float_replicate (abs 0) n) by reflexivity. cbn [bind].
  assert (Hlen0 : length (assign ld 0%float am) = S n)
    by (rewrite ArrayFacts.assign_length; exact Hlen).
  assert (Hz : zip_with (fun m f => (momentum * m + (1 - momentum) * (f / abs 0))%float)
                 (assign ld 0%float am) (replicate (S n) 0%float)
               = replicate (S n) nan).
  { rewrite <- Hlen0 at 1. rewrite Vanishing.zip_with_replicate.
    rewrite (Vanishing.fmap_const nan), Hlen0; [reflexivity|].
    intros a. change ((1 - momentum) * (0 / abs 0))%float with nan.
    apply Vanishing.add_nan. }
  rewrite Hz, fmap_replicate.
  rewrite (Vanishing.max_float_replicate (abs nan) n) by reflexivity. cbn [bind].
  rewrite fmap_replicate. reflexivity.
Qed.

Lemma zero_sensitivities_give_nan_witness :
  momentum_step [6; 7] demo_alpha_m (replicate 8 0%float)
  = Ok (assign [6; 7] neg_infinity (replicate 8 nan)).
Proof. apply (zero_sensitivities_give_nan [6; 7] demo_alpha_m 8); [lia|reflexivity]. Defined.

(** * The best pair is among the records *)

Module BestRecord.

(** The retained best pair of the running instance is already in the
    lists, or will be with the topology stored next. *)
Definition recorded (ptr : nat) (s : state) (lg : logs) : Prop :=
  (obj_opt s = infinity /\ keep_going s = true) \/
  exists j t,
    x_opt s = Some t /\
    (list_top lg ++ [x s]) !! j = Some t /\
    list_obj lg !! j = Some (obj_opt s) /\
    (list_ptr2inp lg ++ [ptr]) !! j = Some ptr.

Definition in_step (lg : logs) : Prop :=
  length (list_obj lg) = length (list_top lg) + 1 /\
  length (list_ptr2inp lg) = length (list_top lg).

Section Loop.

Variable argsort : list float -> list nat.
Variable k : kernels.
Hypothesis Hfinite : finite_compliance k.
Variable su : setup.
Variable ptr : nat.

Lemma recorded_step (s s' : state) (lg : logs) :
  in_step lg -> recorded ptr s lg ->
  iteration argsort (N_of (s_Ny su)) (s_ld_ele su) (observe argsort k su s) s = Ok s' ->
  let lg1 := log_result (fraction (vol s') (N_of (s_Ny su)))
               (o_obj (observe argsort k su s)) (log_topology ptr (x s) lg) in
  in_step lg1 /\ recorded ptr s' lg1.
Proof.
  intros [Hobj Hptr] Hrec Hit lg1.
  pose proof (observe_finite argsort k Hfinite su s s' Hit) as Hfin.
  assert (Hstep : in_step lg1).
  { unfold in_step, lg1. cbn [log_result log_topology list_obj list_top list_ptr2inp].
    rewrite !length_app. cbn [length]. lia. }
  split; [exact Hstep|].
  unfold recorded, lg1. cbn [log_result log_topology list_obj list_top list_ptr2inp].
  destruct (iteration_controller argsort _ (s_ld_ele su) _ s s' Hit)
    as [(_ & _ & Hb & Hx & Hkg)|[(_ & _ & _ & Hb & Hx & _)|(_ & Himp & _ & Hb & Hx & _)]].
  - destruct Hrec as [(H1 & H2)|(j & t & H1 & H2 & H3 & H4)].
    + left. rewrite Hb, Hkg. auto.
    + right. exists j, t. rewrite Hx, Hb. split; [exact H1|].
      split; [apply lookup_app_l_Some; exact H2|].
      split; [apply lookup_app_l_Some; exact H3|apply lookup_app_l_Some; exact H4].
  - right. exists (length (list_top lg) + 1), (x s'). rewrite Hx, Hb.
    split; [reflexivity|].
    split; [rewrite lookup_app_r by (rewrite length_app; cbn; lia);
            rewrite length_app; cbn [length];
            replace (length (list_top lg) + 1 - (length (list_top lg) + 1)) with 0 by lia;
            reflexivity|].
    split; [rewrite lookup_app_r by lia; rewrite Hobj;
            replace (length (list_top lg) + 1 - (length (list_top lg) + 1)) with 0 by lia;
            reflexivity|].
    rewrite lookup_app_r by (rewrite length_app; cbn; lia).
    rewrite length_app, Hptr. cbn [length].
    replace (length (list_top lg) + 1 - (length (list_top lg) + 1)) with 0 by lia.
    reflexivity.
  - destruct Hrec as [(H1 & _)|(j & t & H1 & H2 & H3 & H4)].
    + rewrite H1, (improves_infinity _ Hfin) in Himp. discriminate Himp.
    + right. exists j, t. rewrite Hx, Hb. split; [exact H1|].
      split; [apply lookup_app_l_Some; exact H2|].
      split; [apply lookup_app_l_Some; exact H3|apply lookup_app_l_Some; exact H4].
Qed.

Lemma logged_loop_recorded (fuel : nat) : forall s lg s' lg',
  in_step lg -> recorded ptr s lg ->
  logged_loop argsort k su ptr fuel s lg = Ok (s', lg') ->
  in_step lg' /\ recorded ptr s' lg'.
Proof.
  induction fuel as [|fuel IH]; intros s lg s' lg' Hstep Hrec Hrun;
    cbn [logged_loop] in Hrun.
  - injection Hrun as <- <-. auto.
  - destruct (keep_going s); [|injection Hrun as <- <-; auto].
    destruct (iteration argsort (N_of (s_Ny su)) (s_ld_ele su)
                (observe argsort k su s) s) as [s1|e] eqn:Hit; cbn [bind] in Hrun;
      [|discriminate Hrun].
    destruct (recorded_step s s1 lg Hstep Hrec Hit) as [Hstep1 Hrec1].
    exact (IH _ _ _ _ Hstep1 Hrec1 Hrun).
Qed.

End Loop.

(** The lists of a file after [m] instances: every best pair is one of the
    records of its instance. *)
Definition file_records (m : nat) (lg : logs) : Prop :=
  length (list_top_opt lg) = m /\ length (list_obj_opt lg) = m /\
  length (list_obj lg) = length (list_top lg) /\
  length (list_ptr2inp lg) = length (list_top lg) /\
  forall i tb ob,
    list_top_opt lg !! i = Some tb -> list_obj_opt lg !! i = Some ob ->
    exists kk, list_ptr2inp lg !! kk = Some i /\
               list_top lg !! kk = Some tb /\ list_obj lg !! kk = Some ob.

Section Files.

Variable argsort : list float -> list nat.
Variable k : kernels.
Hypothesis Hfinite : finite_compliance k.
Variable inp : nat -> option params.
Variable fid_lim : nat.
Variable fuel : nat.

Lemma logged_instance_records (fid : nat) (p : params) (m : nat) (lg lg' : logs)
    (leftover leftover' : option (list bool)) :
  file_records m lg ->
  logged_instance argsort k fuel fid p m lg leftover = Ok (Some (lg', leftover')) ->
  file_records (S m) lg'.
Proof.
  intros (Htopt & Hoopt & Hobj & Hptr & Hold) H.
  unfold logged_instance in H.
  destruct (boundary_conditions p) as [su|e] eqn:Hbc; cbn [bind] in H; [|discriminate H].
  remember (init_state (N_of (s_Ny su)) leftover) as s0 eqn:Es0.
  match type of H with
  | context [logged_loop _ _ _ _ _ _ ?l] => remember l as lg0 eqn:Elg0
  end.
  assert (Hfields : list_top_opt lg0 = list_top_opt lg /\
                    list_obj_opt lg0 = list_obj_opt lg /\
                    list_top lg0 = list_top lg /\ list_ptr2inp lg0 = list_ptr2inp lg /\
                    exists o0, list_obj lg0 = list_obj lg ++ [o0]).
  { rewrite Elg0. repeat split. eexists. reflexivity. }
  destruct Hfields as (F1 & F2 & F3 & F4 & o0 & F5).
  destruct (logged_loop argsort k su m fuel s0 lg0) as [[s lg1]|e] eqn:Hloop;
    cbn [bind] in H; [|discriminate H].
  destruct (logged_loop_recorded argsort k Hfinite su m fuel s0 lg0 s lg1) as [Hstep Hrec];
    [| |exact Hloop|].
  { unfold in_step. rewrite F3, F4, F5, length_app. cbn [length]. lia. }
  { left. rewrite Es0. split; reflexivity. }
  destruct (Records.logged_loop_spec argsort k su m fuel s0 lg0 s lg1 Hloop)
    as (ts & vs & os & _ & _ & Hgrow & _).
  assert (G : list_top_opt lg1 = list_top_opt lg /\ list_obj_opt lg1 = list_obj_opt lg /\
              list_top lg1 = list_top lg ++ ts /\
              list_obj lg1 = list_obj lg ++ o0 :: os /\
              list_ptr2inp lg1 = list_ptr2inp lg ++ replicate (length ts) m).
  { rewrite Hgrow. unfold Records.grow.
    cbn [list_top_opt list_obj_opt list_top list_obj list_ptr2inp].
    rewrite F1, F2, F3, F4, F5, <- app_assoc. auto. }
  destruct G as (G1 & G2 & G3 & G4 & G5).
  destruct (keep_going s) eqn:Hk; [discriminate H|].
  destruct (x_opt s) as [t|] eqn:Hopt; [|discriminate H].
  injection H as <- _.
  destruct Hrec as [(_ & Hk')|(j & t' & Ht' & Hj1 & Hj2 & Hj3)]; [congruence|].
  rewrite Hopt in Ht'. injection Ht' as <-.
  destruct Hstep as [Hs1 Hs2].
  unfold file_records.
  cbn [log_topology log_best list_top_opt list_obj_opt list_top list_obj list_ptr2inp].
  rewrite G1, G2, !length_app. cbn [length].
  split; [lia|]. split; [lia|]. split; [lia|]. split; [lia|].
  intros i tb ob Hi1 Hi2.
  destruct (decide (i < m)) as [Hlt|Hge].
  - rewrite lookup_app_l in Hi1 by lia. rewrite lookup_app_l in Hi2 by lia.
    destruct (Hold i tb ob Hi1 Hi2) as (kk & K1 & K2 & K3).
    exists kk. rewrite G5, G3, G4, <- !app_assoc.
    split; [apply lookup_app_l_Some; exact K1|].
    split; apply lookup_app_l_Some; assumption.
  - assert (i = m) as -> by (apply lookup_lt_Some in Hi1; rewrite length_app in Hi1;
                             cbn in Hi1; lia).
    rewrite lookup_app_r in Hi1 by lia. rewrite lookup_app_r in Hi2 by lia.
    rewrite Htopt, Nat.sub_diag in Hi1. rewrite Hoopt, Nat.sub_diag in Hi2.
    injection Hi1 as <-. injection Hi2 as <-.
    exists j. auto.
Qed.

Lemma file_loop_records (counters : nat) : forall fid m lg leftover fid' lg' leftover',
  file_records m lg ->
  file_loop argsort k inp fid_lim fuel counters fid m lg leftover
    = Ok (Some (fid', lg', leftover')) ->
  exists m', file_records m' lg'.
Proof.
  induction counters as [|counters IH]; intros fid m lg leftover fid' lg' leftover' Hr H;
    cbn [file_loop] in H.
  - injection H as _ <- _. eauto.
  - destruct (fid_lim <=? fid); [injection H as _ <- _; eauto|].
    destruct (inp fid) as [p|]; [|injection H as _ <- _; eauto].
    destruct (logged_instance argsort k fuel fid p m lg leftover)
      as [[[lg1 lo1]|]|e] eqn:Hinst; cbn [bind] in H; try discriminate H.
    replace (m + 1) with (S m) in H by lia.
    exact (IH _ _ _ _ _ _ _ (logged_instance_records _ _ _ _ _ _ _ Hr Hinst) H).
Qed.

Lemma batch_records (files : nat) : forall fid leftover saved saved' e,
  Forall (fun f => exists m, file_records m f) saved ->
  batch argsort k inp fid_lim fuel files fid leftover saved = (saved', e) ->
  Forall (fun f => exists m, file_records m f) saved'.
Proof.
  induction files as [|files IH]; intros fid leftover saved saved' e Hs H; cbn [batch] in H.
  - destruct ((fid <? fid_lim) && bool_decide (is_Some (inp fid)));
      injection H as <- _; exact Hs.
  - destruct ((fid <? fid_lim) && bool_decide (is_Some (inp fid)));
      [|injection H as <- _; exact Hs].
    destruct (file_loop argsort k inp fid_lim fuel noptf fid 0 empty_logs leftover)
      as [[[[fid' lg] lo']|]|err] eqn:Hfile; try (injection H as <- _; exact Hs).
    apply (IH _ _ _ _ _) in H; [exact H|].
    apply Forall_app. split; [exact Hs|]. constructor; [|constructor].
    assert (H0 : file_records 0 empty_logs).
    { repeat split. intros i tb ob Hi. discriminate Hi. }
    destruct (file_loop_records _ _ _ _ _ _ _ _ H0 Hfile) as [m Hm].
    exists m. exact Hm.
Qed.

End Files.

End BestRecord.

(** X20: with kernels of finite compliance, every best pair saved in a
    file is one of the records of its own instance: for instance [i] there
    is a record [kk] with [ptr2inp[kk] = i] whose stored topology is
    [top_opt[i]] and whose stored compliance is [obj_opt[i]]. *)
Theorem saved_best_is_a_record (argsort : list float -> list nat) (k : kernels)
    (inp : nat -> option params) (fid_ini fid_lim fuel files : nat)
    (leftover : option (list bool)) (saved : list logs) (e : ending) (f : logs)
    (i : nat) (tb : list bool) (ob : float) :
  finite_compliance k ->
  batch argsort k inp fid_lim fuel files fid_ini leftover [] = (saved, e) ->
  f ∈ saved ->
  list_top_opt f !! i = Some tb -> list_obj_opt f !! i = Some ob ->
  exists kk, list_ptr2inp f !! kk = Some i /\
             list_top f !! kk = Some tb /\ list_obj f !! kk = Some ob.
Proof.
  intros Hfin Hbatch Hin Htb Hob.
  pose proof (BestRecord.batch_records argsort k Hfin inp fid_lim fuel files fid_ini
                leftover [] saved e (Forall_nil_2 _) Hbatch) as Hall.
  destruct (proj1 (Forall_forall _ _) Hall f Hin) as (m & _ & _ & _ & _ & Hrec).
  exact (Hrec i tb ob Htb Hob).
Qed.

Lemma saved_best_is_a_record_witness :
  list_top_opt demo_file !! 1 = Some [true; true; false; false; false; false; true; true] /\
  list_obj_opt demo_file !! 1 = Some 3%float /\
  exists kk, list_ptr2inp demo_file !! kk = Some 1 /\
             list_top demo_file !! kk
             = Some [true; true; false; false; false; false; true; true] /\
             list_obj demo_file !! kk = Some 3%float.
Proof.
  split; [reflexivity|]. split; [reflexivity|].
  apply (saved_best_is_a_record insertion_argsort demo_kernels demo_inputs 0 10 30 3
           None demo_saved Done demo_file 1).
  - intros su x f. reflexivity.
  - exact demo_batch.
  - exact demo_file_saved.
  - reflexivity.
  - reflexivity.
Defined.

(** * The element matrix (lines 78-87) *)

(** [Ke] is laid out from the eight coefficients [kk]; [Kevec = Ke.ravel()]
    and [dKe = (1.0-epsk)*Ke]. *)
Definition Ke (kk : list float) : list (list float) :=
  (fun row : list nat => (fun n => kk !!! n) <$> row) <$>
  [ [0; 1; 2; 3; 4; 5; 6; 7];
    [1; 0; 7; 6; 5; 4; 3; 2];
    [2; 7; 0; 5; 6; 3; 4; 1];
    [3; 6; 5; 0; 7; 2; 1; 4];
    [4; 5; 6; 7; 0; 1; 2; 3];
    [5; 4; 3; 2; 1; 0; 7; 6];
    [6; 3; 4; 1; 2; 7; 0; 5];
    [7; 2; 1; 4; 3; 6; 5; 0] ].

Definition Kevec (kk : list float) : list float := Np.ravel_C (Ke kk).

Definition dKe (epsk : float) (kk : list float) : list (list float) :=
  (fun row : list float => (fun v => ((1 - epsk) * v)%float) <$> row) <$> Ke kk.

Module ElementMatrix.

Lemma Kevec_length (kk : list float) : length (Kevec kk) = 64.
Proof. reflexivity. Qed.

Lemma Kevec_lookup (kk : list float) (i j : nat) :
  i < 8 -> j < 8 -> Kevec kk !!! (8 * i + j) = (Ke kk !!! i) !!! j.
Proof.
  intros Hi Hj.
  do 8 (destruct i as [|i]; [do 8 (destruct j as [|j]; [reflexivity|]); lia|]); lia.
Qed.

Lemma Ke_symmetric (kk : list float) (i j : nat) :
  i < 8 -> j < 8 -> (Ke kk !!! i) !!! j = (Ke kk !!! j) !!! i.
Proof.
  intros Hi Hj.
  do 8 (destruct i as [|i]; [do 8 (destruct j as [|j]; [reflexivity|]); lia|]); lia.
Qed.

Lemma dKe_lookup (epsk : float) (kk : list float) (i j : nat) :
  i < 8 -> j < 8 -> (dKe epsk kk !!! i) !!! j = ((1 - epsk) * ((Ke kk !!! i) !!! j))%float.
Proof.
  intros Hi Hj.
  do 8 (destruct i as [|i]; [do 8 (destruct j as [|j]; [reflexivity|]); lia|]); lia.
Qed.

End ElementMatrix.

(** X21: the assembled triples are closed under transposition.  Whatever
    the eight coefficients [kk], the triple of entry [(i, j)] of element [e]
    has the row of the triple of entry [(j, i)] as its column, its column as
    its row, and the same value; the variation [dKe] is symmetric too. *)
Theorem assembled_triples_symmetric (Ny : nat) (epsk : float) (kk : list float)
    (x : list bool) (e i j : nat) :
  length x = N_of Ny -> e < N_of Ny -> i < 8 -> j < 8 ->
  coo_row Ny !! (64 * e + 8 * i + j) = coo_col Ny !! (64 * e + 8 * j + i) /\
  coo_col Ny !! (64 * e + 8 * i + j) = coo_row Ny !! (64 * e + 8 * j + i) /\
  coo_data epsk (Kevec kk) x !! (64 * e + 8 * i + j)
  = coo_data epsk (Kevec kk) x !! (64 * e + 8 * j + i) /\
  is_Some (coo_data epsk (Kevec kk) x !! (64 * e + 8 * i + j)) /\
  (dKe epsk kk !!! i) !!! j = (dKe epsk kk !!! j) !!! i.
Proof.
  intros Hx He Hi Hj.
  pose proof (Mesh.inci_lookup Ny e He) as Hinci.
  destruct (lookup_lt_is_Some_2 x e ltac:(lia)) as [b Hb].
  rewrite (Assembly.coo_row_lookup Ny e i j _ Hinci Hi Hj).
  rewrite (Assembly.coo_col_lookup Ny e j i _ Hinci Hj Hi).
  rewrite (Assembly.coo_col_lookup Ny e i j _ Hinci Hi Hj).
  rewrite (Assembly.coo_row_lookup Ny e j i _ Hinci Hj Hi).
  split; [reflexivity|]. split; [reflexivity|].
  replace (64 * e + 8 * i + j) with (64 * e + (8 * i + j)) by lia.
  replace (64 * e + 8 * j + i) with (64 * e + (8 * j + i)) by lia.
  rewrite !(Assembly.coo_data_lookup epsk (Kevec kk) x e _ b
              (ElementMatrix.Kevec_length kk) Hb) by lia.
  rewrite !ElementMatrix.Kevec_lookup by assumption.
  rewrite (ElementMatrix.Ke_symmetric kk i j Hi Hj).
  split; [reflexivity|]. split; [eexists; reflexivity|].
  rewrite !ElementMatrix.dKe_lookup by assumption.
  rewrite (ElementMatrix.Ke_symmetric kk i j Hi Hj). reflexivity.
Qed.

Lemma assembled_triples_symmetric_witness :
  coo_row 2 !! (64 * 5 + 8 * 1 + 6) = coo_col 2 !! (64 * 5 + 8 * 6 + 1) /\
  coo_col 2 !! (64 * 5 + 8 * 1 + 6) = coo_row 2 !! (64 * 5 + 8 * 6 + 1) /\
  coo_data 0.5 (Kevec [1; 2; 3; 4; 5; 6; 7; 8]%float) (replicate 8 true)
    !! (64 * 5 + 8 * 1 + 6)
  = coo_data 0.5 (Kevec [1; 2; 3; 4; 5; 6; 7; 8]%float) (replicate 8 true)
    !! (64 * 5 + 8 * 6 + 1) /\
  is_Some (coo_data 0.5 (Kevec [1; 2; 3; 4; 5; 6; 7; 8]%float) (replicate 8 true)
             !! (64 * 5 + 8 * 1 + 6)) /\
  (dKe 0.5 [1; 2; 3; 4; 5; 6; 7; 8]%float !!! 1) !!! 6
  = (dKe 0.5 [1; 2; 3; 4; 5; 6; 7; 8]%float !!! 6) !!! 1.
Proof.
  apply (assembled_triples_symmetric 2 0.5 [1; 2; 3; 4; 5; 6; 7; 8]%float
           (replicate 8 true) 5 1 6); [reflexivity|vm_compute; lia|lia|lia].
Defined.

(** * The factors of the stiffness variation (lines 89-106) *)

(** [M[:, idx]], [M[idx, :]] and [V*np.sqrt(D)], which scales column [j] of
    [V] by [sqrt(D[j])]; numpy requires as many columns in [V] as entries in
    [D], which is the case wherever the script multiplies. *)
Definition take_columns (idx : list nat) (M : list (list float)) : list (list float) :=
  (fun row : list float => (fun j => row !!! j) <$> idx) <$> M.
Definition take_rows (idx : list nat) (M : list (list float)) : list (list float) :=
  (fun i => M !!! i) <$> idx.
Definition scale_columns (V : list (list float)) (D : list float) : list (list float) :=
  (fun row : list float => zip_with (fun v d => (v * sqrt d)%float) row D) <$> V.

Section Factors.

(** [np.linalg.eigh] is compiled code: a function from a symmetric matrix
    to its eigenvalues [D] and the matrix [V] whose columns are the
    eigenvectors. *)
Variable eigh : list (list float) -> list float * list (list float).

Variable epsk : float.
Variable kk : list float.

(** [mask = abs(D) > small; D = D[mask]; V = V[:,mask]; V*np.sqrt(D)]. *)
Definition eigen_mask (M : list (list float)) : list bool :=
  (fun d => (small <? abs d)%float) <$> (eigh M).1.

Definition masked_factor (M : list (list float)) : list (list float) :=
  let '(D, V) := eigh M in
  let mask := eigen_mask M in
  scale_columns ((fun row : list float => select row mask) <$> V) (select D mask).

(** [H_0167] keeps every eigenvalue. *)
Definition plain_factor (M : list (list float)) : list (list float) :=
  let '(D, V) := eigh M in scale_columns V D.

(** [dKe[:,idx][idx,:]]. *)
Definition sub_block (idx : list nat) : list (list float) :=
  take_rows idx (take_columns idx (dKe epsk kk)).

Definition factor_matrix (h : hmat) : list (list float) :=
  match h with
  | H => masked_factor (dKe epsk kk)
  | H_01 => masked_factor (sub_block [2; 3; 4; 5; 6; 7])
  | H_67 => masked_factor (sub_block [0; 1; 2; 3; 4; 5])
  | H_0167 => plain_factor (sub_block [2; 3; 4; 5])
  end.

(** Columns of each factor: the eigenvalues that pass the mask, all four
    for [H_0167]. *)
Definition factor_columns (h : hmat) : nat :=
  match h with
  | H => sum_bool (eigen_mask (dKe epsk kk))
  | H_01 => sum_bool (eigen_mask (sub_block [2; 3; 4; 5; 6; 7]))
  | H_67 => sum_bool (eigen_mask (sub_block [0; 1; 2; 3; 4; 5]))
  | H_0167 => length (eigh (sub_block [2; 3; 4; 5])).1
  end.

Definition hdata (h : hmat) : list float := Np.ravel_C (factor_matrix h).

End Factors.

(** What is assumed of [eigh]: for an [n] by [n] matrix it returns [n]
    eigenvalues and an [n] by [n] matrix. *)
Definition square (n : nat) (M : list (list float)) : Prop :=
  length M = n /\ Forall (fun r => length r = n) M.

Definition well_shaped (eigh : list (list float) -> list float * list (list float))
    : Prop :=
  forall n M, square n M -> length (eigh M).1 = n /\ square n (eigh M).2.

Module FactorShape.

Section Shapes.

Variable eigh : list (list float) -> list float * list (list float).
Hypothesis Hshape : well_shaped eigh.

Lemma scale_columns_shape (V : list (list float)) (D : list float) (c : nat) :
  length D = c -> Forall (fun r => length r = c) V ->
  length (scale_columns V D) = length V /\
  Forall (fun r => length r = c) (scale_columns V D).
Proof.
  intros HD HV. unfold scale_columns. split; [apply length_fmap|].
  apply Forall_fmap. eapply Forall_impl; [exact HV|].
  intros r Hr. unfold compose. cbv beta in *. rewrite length_zip_with. lia.
Qed.

Lemma masked_factor_shape (n : nat) (M : list (list float)) :
  square n M ->
  length (masked_factor eigh M) = n /\
  Forall (fun r => length r = sum_bool (eigen_mask eigh M)) (masked_factor eigh M).
Proof.
  intros HM. destruct (Hshape n M HM) as (HD & HVn & HV).
  unfold masked_factor. unfold eigen_mask at 1.
  assert (Hmask : length (eigen_mask eigh M) = n)
    by (unfold eigen_mask; rewrite length_fmap; exact HD).
  destruct (eigh M) as [D V] eqn:HE. cbn [fst snd] in *.
  set (mask := (fun d => (small <? abs d)%float) <$> D) in *.
  assert (Hm : eigen_mask eigh M = mask) by (unfold eigen_mask; rewrite HE; reflexivity).
  rewrite Hm in *.
  destruct (scale_columns_shape ((fun row : list float => select row mask) <$> V)
              (select D mask) (sum_bool mask)) as [Hlen Hrows].
  - apply ArrayFacts.select_length. lia.
  - apply Forall_fmap. eapply Forall_impl; [exact HV|].
    intros r Hr. unfold compose. cbv beta in *. apply ArrayFacts.select_length. lia.
  - split; [rewrite Hlen, length_fmap; exact HVn|exact Hrows].
Qed.

Lemma plain_factor_shape (n : nat) (M : list (list float)) :
  square n M ->
  length (plain_factor eigh M) = n /\
  Forall (fun r => length r = length (eigh M).1) (plain_factor eigh M) /\
  length (eigh M).1 = n.
Proof.
  intros HM. destruct (Hshape n M HM) as (HD & HVn & HV).
  unfold plain_factor. destruct (eigh M) as [D V]. cbn [fst snd] in *.
  destruct (scale_columns_shape V D n HD HV) as [Hlen Hrows].
  rewrite HD. split; [rewrite Hlen; exact HVn|]. split; [exact Hrows|reflexivity].
Qed.

Lemma sub_block_square (epsk : float) (kk : list float) (idx : list nat) :
  Forall (fun i => i < 8) idx -> square (length idx) (sub_block epsk kk idx).
Proof.
  intros Hidx.
  unfold square, sub_block, take_rows, take_columns. split; [apply length_fmap|].
  apply Forall_fmap. eapply Forall_impl; [exact Hidx|].
  intros i Hi. unfold compose. cbv beta in *.
  assert (Hrow : is_Some (dKe epsk kk !! i)) by (apply lookup_lt_is_Some; exact Hi).
  destruct Hrow as [row Hrow].
  erewrite list_lookup_total_correct;
    [|rewrite list_lookup_fmap, Hrow; reflexivity].
  apply length_fmap.
Qed.

Lemma dKe_square (epsk : float) (kk : list float) : square 8 (dKe epsk kk).
Proof. split; [reflexivity|]. repeat constructor. Qed.

Lemma factor_matrix_shape (epsk : float) (kk : list float) (h : hmat) (rows : nat) :
  rows = match h with H => 8 | H_01 | H_67 => 6 | H_0167 => 4 end ->
  length (factor_matrix eigh epsk kk h) = rows /\
  Forall (fun r => length r = factor_columns eigh epsk kk h)
         (factor_matrix eigh epsk kk h).
Proof.
  intros ->. destruct h; cbn [factor_matrix factor_columns].
  - apply masked_factor_shape, dKe_square.
  - apply (masked_factor_shape 6), (sub_block_square epsk kk [2; 3; 4; 5; 6; 7]).
    repeat constructor.
  - apply (masked_factor_shape 6), (sub_block_square epsk kk [0; 1; 2; 3; 4; 5]).
    repeat constructor.
  - destruct (plain_factor_shape 4 _
                (sub_block_square epsk kk [2; 3; 4; 5] ltac:(repeat constructor)))
      as (H1 & H2 & _).
    split; assumption.
Qed.

End Shapes.

End FactorShape.

(** X9: the COO matrix of a rank update.  For every element, when
    [bc_lim[1] <= Ny], the two right nodes are free and the factor chosen by
    the four-way test has one row per entry of [gv] (two per free node).
    [hrow] and [hcol] have [rank*len(gv)] entries; [hdata] has
    [len(gv)] times the number of columns of the factor, which is the number
    of eigenvalues that passed the mask [abs(D) > small].  So the three
    arrays have the same length exactly when that number is the hard-coded
    [rank], which is always the case for [H_0167] (no mask, four
    eigenvalues); entry [(a, b)] of the factor then goes to row [gv[a]],
    column [b]. *)
Theorem element_update_shape (eigh : list (list float) -> list float * list (list float))
    (epsk : float) (kk : list float) (Ny lo hi e : nat) :
  well_shaped eigh -> hi <= Ny ->
  let fn := free_nodes (lo, hi) (element_nodes Ny e) in
  let gv := gv_of (lo, hi) (element_nodes Ny e) in
  let He := (choose_H fn).1 in
  let rank := (choose_H fn).2 in
  let Hm := factor_matrix eigh epsk kk He in
  let cols := factor_columns eigh epsk kk He in
  fn !! 1 = Some true /\ fn !! 2 = Some true /\
  length Hm = length gv /\
  Forall (fun r => length r = cols) Hm /\
  length (hdata eigh epsk kk He) = length gv * cols /\
  length (hrow gv rank) = length gv * rank /\
  length (hcol gv rank) = length gv * rank /\
  (length (hdata eigh epsk kk He) = length (hrow gv rank) <-> cols = rank) /\
  (He = H_0167 -> cols = rank) /\
  (cols = rank ->
   forall a b, a < length gv -> b < rank ->
     hrow gv rank !! (a * rank + b) = gv !! a /\
     hcol gv rank !! (a * rank + b) = Some b /\
     hdata eigh epsk kk He !! (a * rank + b) = Some ((Hm !!! a) !!! b)).
Proof.
  intros Hshape Hhi fn gv He rank Hm cols.
  destruct (ElementUpdate.free_nodes_cases Ny lo hi e Hhi) as (f0 & f3 & Hfn).
  assert (Hgv : length gv = match He with H => 8 | H_01 | H_67 => 6 | H_0167 => 4 end).
  { unfold gv, He, fn. rewrite ElementUpdate.gv_length, Hfn.
    destruct f0, f3; reflexivity. }
  destruct (FactorShape.factor_matrix_shape eigh Hshape epsk kk He _ Hgv)
    as [Hrows Hcols].
  fold Hm cols in Hrows, Hcols.
  assert (Hdata : length (hdata eigh epsk kk He) = length gv * cols).
  { unfold hdata, Np.ravel_C. fold Hm.
    rewrite (NpFacts.length_concat cols) by exact Hcols. rewrite Hrows. reflexivity. }
  assert (Hhrow : length (hrow gv rank) = length gv * rank)
    by (unfold hrow; apply NpFacts.repeat_length).
  assert (Hpos : 0 < length gv) by (rewrite Hgv; destruct He; lia).
  split; [unfold fn; rewrite Hfn; reflexivity|].
  split; [unfold fn; rewrite Hfn; reflexivity|].
  split; [exact Hrows|]. split; [exact Hcols|]. split; [exact Hdata|].
  split; [exact Hhrow|].
  split; [unfold hcol; rewrite NpFacts.tile_length, length_seq; reflexivity|].
  split; [rewrite Hdata, Hhrow; split; [intros Heq; nia|intros ->; reflexivity]|].
  split.
  { intros HHe. unfold cols, rank, He, fn in HHe |- *. rewrite Hfn in HHe |- *.
    destruct f0, f3; try discriminate HHe. cbn [choose_H forallb id andb negb fst snd
      lookup_total list_lookup_total length Nat.sub factor_columns].
    destruct (FactorShape.plain_factor_shape eigh Hshape 4 _
                (FactorShape.sub_block_square epsk kk [2; 3; 4; 5]
                   ltac:(repeat constructor))) as (_ & _ & HD).
    exact HD. }
  intros Hrank a b Ha Hb. split; [|split].
  - unfold hrow. apply NpFacts.repeat_lookup. exact Hb.
  - unfold hcol.
    replace (a * rank + b) with (a * length (seq 0 rank) + b) by (rewrite length_seq; lia).
    rewrite NpFacts.tile_lookup by (rewrite ?length_seq; lia).
    apply lookup_seq_lt. exact Hb.
  - unfold hdata, Np.ravel_C. fold Hm. rewrite <- Hrank in *.
    rewrite (NpFacts.lookup_at cols) by assumption.
    destruct (lookup_lt_is_Some_2 Hm a ltac:(lia)) as [r Hr].
    rewrite Hr. cbn [mbind option_bind].
    rewrite (list_lookup_total_correct _ _ _ Hr).
    apply list_lookup_lookup_total_lt.
    rewrite (proj1 (Forall_lookup _ _) Hcols a r Hr). exact Hb.
Qed.

(** A stand-in with the shapes of [eigh]: ones for the eigenvalues, the
    matrix itself for the vectors. *)
Definition shape_eigh (M : list (list float)) : list float * list (list float) :=
  (replicate (length M) 1%float, M).

Lemma element_update_shape_witness :
  well_shaped shape_eigh /\
  let kk := [1; 2; 3; 4; 5; 6; 7; 8]%float in
  let fn := free_nodes (1, 2) (element_nodes 2 1) in
  let gv := gv_of (1, 2) (element_nodes 2 1) in
  let He := (choose_H fn).1 in
  let rank := (choose_H fn).2 in
  let Hm := factor_matrix shape_eigh 0.5 kk He in
  let cols := factor_columns shape_eigh 0.5 kk He in
  He = H_0167 /\ gv = [4; 5; 6; 7] /\
  length Hm = length gv /\
  length (hdata shape_eigh 0.5 kk He) = length gv * cols /\
  cols = rank /\
  length (hdata shape_eigh 0.5 kk He) = length (hrow gv rank).
Proof.
  assert (Hshape : well_shaped shape_eigh).
  { intros n M [HM Hrows]. unfold shape_eigh. cbn [fst snd].
    rewrite length_replicate. split; [exact HM|]. split; assumption. }
  split; [exact Hshape|].
  destruct (element_update_shape shape_eigh 0.5 [1; 2; 3; 4; 5; 6; 7; 8]%float
              2 1 2 1 Hshape ltac:(lia))
    as (_ & _ & H1 & _ & H2 & _ & _ & H3 & H4 & _).
  split; [reflexivity|]. split; [reflexivity|].
  split; [exact H1|]. split; [exact H2|].
  split; [exact (H4 eq_refl)|exact (proj2 H3 (H4 eq_refl))].
Defined.
